(** * Callback bridging between native code and the scripting host

    A shallow embedding of [shell/common/native_mate_converters/callback.cc]:
    the [TranslaterHolder] and its weak-reference finalizer, the trampoline
    [CallTranslater], the factory [CreateFunctionFromTranslater], and the
    ref-counted [SafeV8Function] with its [DeleteOnUIThread] policy.

    The process state is threaded explicitly.  A computation returns
    [option World]: [None] stands for undefined behaviour of the C++ program
    (a dereference of a freed holder, a failed [ToChecked]). *)

From stdpp Require Import gmap strings list fin_maps.

(** ** Host values and native callbacks *)

Inductive Value :=
| VBool (b : bool)
| VInt (z : Z)
| VStr (s : string)
| VFunction (f : nat)
| VExternal (e : nat)
| VObject (o : nat).

(** Modelled from the spec: [Translater] is declared in callback.h and not
    in callback.cc.  The spec calls it an opaque native
    function value, invokable with a host argument list, that may signal a
    host-visible error.  A callback is given here by the effects it performs
    when run: it may observe its arguments, signal an error, call back into
    script, or allocate and thereby let the collector run. *)
Inductive NativeOp :=
| OpObserve
| OpThrow (msg : string)
| OpCall (f : nat) (argv : list Value)
| OpGc (f : nat).

Definition Translater := list NativeOp.

(** [struct TranslaterHolder]: a [v8::Global<v8::External>] (empty, or
    referring to an External) and the callback. *)
Record TranslaterHolder := mkHolder {
  handle : option nat;
  translater : Translater
}.

Record FunctionTemplate := mkTemplate {
  tmpl_isolate : nat;
  tmpl_id : nat
}.

(** The result of [BindFunctionWith]: the trampoline's function with two
    leading arguments supplied. *)
Record BoundFunction := mkBound {
  fn_isolate : nat;
  fn_target : FunctionTemplate;
  bound_external : nat;
  bound_state : nat
}.

Inductive DestroyPath := ByFinalizer | ByOneShot.

(** Observable steps, logged in the order they happen. *)
Inductive Event :=
| EvTemplate (t : FunctionTemplate)
| EvCreate (f : nat) (one_time : bool)
| EvInvoke (level : nat) (f : nat) (args : list Value)
| EvReturn (f : nat)
| EvSetCalled (state : nat)
| EvThrow (msg : string)
| EvRunBegin (holder : nat) (args : list Value)
| EvRunEnd (holder : nat)
| EvClearWeak (holder : nat)
| EvReset (holder : nat)
| EvDestroy (path : DestroyPath) (holder : nat)
| EvFinalizer (holder : nat)
| EvReclaim (f : nat).

(** ** The process state

    Native side: the heap of live holders, the cached template
    [g_call_translater] and what the native callbacks have observed.
    Host side: External objects (with the pointer each one wraps), the weak
    registrations made by [SetWeak] (External to finalizer parameter),
    records (each with its own properties), bound functions, the pending
    exception, the stack of callables under execution, and the properties of
    the prototype that every plain object inherits from.  [next_id] is the
    next free index: the objects allocated by one call of the factory
    (holder, External, record, function) take it in their respective
    tables. *)
Record World := mkWorld {
  heap : gmap nat TranslaterHolder;
  g_call_translater : option FunctionTemplate;
  native_log : list (list Value);
  externals : gmap nat nat;
  weak : gmap nat nat;
  objects : gmap nat (gmap string Value);
  functions : gmap nat BoundFunction;
  pending_exception : option string;
  active : list nat;
  next_id : nat;
  next_template : nat;
  trace : list Event;
  object_prototype : gmap string Value
}.

Definition init : World :=
  mkWorld ∅ None [] ∅ ∅ ∅ ∅ None [] 0 0 [] ∅.

Definition set_heap (h : gmap nat TranslaterHolder) (w : World) : World :=
  mkWorld h (g_call_translater w) (native_log w) (externals w) (weak w)
    (objects w) (functions w) (pending_exception w) (active w) (next_id w)
    (next_template w) (trace w) (object_prototype w).

Definition set_cache (c : option FunctionTemplate) (w : World) : World :=
  mkWorld (heap w) c (native_log w) (externals w) (weak w)
    (objects w) (functions w) (pending_exception w) (active w) (next_id w)
    (next_template w) (trace w) (object_prototype w).

Definition set_next_template (x : nat) (w : World) : World :=
  mkWorld (heap w) (g_call_translater w) (native_log w) (externals w) (weak w)
    (objects w) (functions w) (pending_exception w) (active w) (next_id w)
    x (trace w) (object_prototype w).

Definition set_native_log (l : list (list Value)) (w : World) : World :=
  mkWorld (heap w) (g_call_translater w) l (externals w) (weak w)
    (objects w) (functions w) (pending_exception w) (active w) (next_id w)
    (next_template w) (trace w) (object_prototype w).

Definition set_externals (x : gmap nat nat) (w : World) : World :=
  mkWorld (heap w) (g_call_translater w) (native_log w) x (weak w)
    (objects w) (functions w) (pending_exception w) (active w) (next_id w)
    (next_template w) (trace w) (object_prototype w).

Definition set_weak (x : gmap nat nat) (w : World) : World :=
  mkWorld (heap w) (g_call_translater w) (native_log w) (externals w) x
    (objects w) (functions w) (pending_exception w) (active w) (next_id w)
    (next_template w) (trace w) (object_prototype w).

Definition set_objects (x : gmap nat (gmap string Value)) (w : World) : World :=
  mkWorld (heap w) (g_call_translater w) (native_log w) (externals w) (weak w)
    x (functions w) (pending_exception w) (active w) (next_id w)
    (next_template w) (trace w) (object_prototype w).

Definition set_functions (x : gmap nat BoundFunction) (w : World) : World :=
  mkWorld (heap w) (g_call_translater w) (native_log w) (externals w) (weak w)
    (objects w) x (pending_exception w) (active w) (next_id w)
    (next_template w) (trace w) (object_prototype w).

Definition set_pending (x : option string) (w : World) : World :=
  mkWorld (heap w) (g_call_translater w) (native_log w) (externals w) (weak w)
    (objects w) (functions w) x (active w) (next_id w)
    (next_template w) (trace w) (object_prototype w).

Definition set_active (x : list nat) (w : World) : World :=
  mkWorld (heap w) (g_call_translater w) (native_log w) (externals w) (weak w)
    (objects w) (functions w) (pending_exception w) x (next_id w)
    (next_template w) (trace w) (object_prototype w).

Definition set_next_id (x : nat) (w : World) : World :=
  mkWorld (heap w) (g_call_translater w) (native_log w) (externals w) (weak w)
    (objects w) (functions w) (pending_exception w) (active w) x
    (next_template w) (trace w) (object_prototype w).

Definition set_object_prototype (x : gmap string Value) (w : World) : World :=
  mkWorld (heap w) (g_call_translater w) (native_log w) (externals w) (weak w)
    (objects w) (functions w) (pending_exception w) (active w) (next_id w)
    (next_template w) (trace w) x.

Definition emit (ev : Event) (w : World) : World :=
  mkWorld (heap w) (g_call_translater w) (native_log w) (externals w) (weak w)
    (objects w) (functions w) (pending_exception w) (active w) (next_id w)
    (next_template w) (trace w ++ [ev]) (object_prototype w).

(** ** Host primitives *)

(** Modelled from the spec: [mate::StringToSymbol] and the key conversion of
    [mate::Dictionary::Set] are defined in native_mate and not in
    callback.cc.  Both produce the host string naming the property, so a key
    written through the dictionary is found again through the symbol. *)
Definition StringToSymbol (s : string) : string := s.

(** Whether [key] is one of the properties of the object itself.  The
    program has no such test; the invariants below speak of it. *)
Definition HasOwn (w : World) (obj : nat) (key : string) : option bool :=
  o ← objects w !! obj; Some (bool_decide (is_Some (o !! key))).

(** Modelled from the spec: the object model is the embedding engine's.
    The record is a plain object ([Dictionary::CreateEmpty]), and a plain
    object inherits the properties of the prototype shared by all plain
    objects, which script can add to and remove from. *)
Definition inherited (w : World) (key : string) : bool :=
  bool_decide (is_Some (object_prototype w !! key)).

(** [state->Has(context, key)]: a [Maybe<bool>].  [v8::Object::Has] follows
    the prototype chain: the key is found when it is a property of the
    object or one that the object inherits. *)
Definition Has (w : World) (obj : nat) (key : string) : option bool :=
  own ← HasOwn w obj key; Some (own || inherited w key).

(** [state->Set(context, key, value)]: the property becomes one of the
    object's own (an inherited property of that name being a plain writable
    one). *)
Definition Set_ (obj : nat) (key : string) (v : Value) (w : World)
  : option World :=
  o ← objects w !! obj; Some (set_objects (<[obj := <[key := v]> o]> (objects w)) w).

(** [args->ThrowError(message)]: schedules a host exception; the native
    caller keeps running. *)
Definition ThrowError (msg : string) (w : World) : World :=
  emit (EvThrow msg) (set_pending (Some msg) w).

Definition already_called_message : string :=
  "callback can only be called for once".

Definition stack_overflow_message : string :=
  "Maximum call stack size exceeded".

Definition not_a_function_message : string :=
  "not a function".

(** ** TranslaterHolder *)

(** [~TranslaterHolder()] followed by the release of the memory, as run by
    [delete p].  Deleting a freed holder is undefined. *)
Definition delete_holder (path : DestroyPath) (p : nat) (w : World)
  : option World :=
  holder ← heap w !! p;
  let w1 :=
    match handle holder with
    | Some e => emit (EvReset p) (emit (EvClearWeak p) (set_weak (delete e (weak w)) w))
    | None => w
    end in
  Some (emit (EvDestroy path p) (set_heap (delete p (heap w1)) w1)).

(** [TranslaterHolder::GC]: the weak callback, handed the parameter that
    [SetWeak] registered. *)
Definition GC (parameter : nat) (w : World) : option World :=
  delete_holder ByFinalizer parameter (emit (EvFinalizer parameter) w).

(** Modelled from the spec: the host collector and its weak-reference
    mechanism are the embedding engine's.  A finalizer registered against a
    value fires once, after the collector has found the value unreachable
    from script.  [collect f] is the collector finding callable [f]
    unreachable: it fires the finalizer of the External if a weak
    registration is still in place, and reclaims the function, the External
    and the record, which nothing else refers to.  A callable under
    execution is reachable from the stack and is left alone. *)
Definition collect (f : nat) (w : World) : option World :=
  match functions w !! f with
  | None => Some w
  | Some fn =>
    if bool_decide (f ∈ active w) then Some w
    else
      w1 ← match weak w !! bound_external fn with
           | Some p => GC p w
           | None => Some w
           end;
      Some (emit (EvReclaim f)
             (set_functions (delete f (functions w1))
               (set_externals (delete (bound_external fn) (externals w1))
                 (set_objects (delete (bound_state fn) (objects w1)) w1))))
  end.

(** ** The trampoline *)

Section Trampoline.

(** How a running native callback re-enters script. *)
Variable script_call : nat → list Value → World → option World.

Definition exec_op (args : list Value) (op : NativeOp) (w : World)
  : option World :=
  match op with
  | OpObserve => Some (set_native_log (native_log w ++ [args]) w)
  | OpThrow msg => Some (ThrowError msg w)
  | OpCall f argv => script_call f argv w
  | OpGc f => collect f w
  end.

(** [translater.Run(args)]. *)
Fixpoint Run (tr : Translater) (args : list Value) (w : World)
  : option World :=
  match tr with
  | [] => Some w
  | op :: rest => w1 ← exec_op args op w; Run rest args w1
  end.

Definition CallTranslater (external state : nat) (args : list Value)
  (w : World) : option World :=
  match Has w state (StringToSymbol "oneTime") with
  | None => None
  | Some one_time =>
    (* from external->Value() to the end of the function *)
    let run_holder (w : World) : option World :=
      holder_ptr ← externals w !! external;
      holder ← heap w !! holder_ptr;
      w1 ← Run (translater holder) args (emit (EvRunBegin holder_ptr args) w);
      let w2 := emit (EvRunEnd holder_ptr) w1 in
      if one_time : bool then delete_holder ByOneShot holder_ptr w2 else Some w2 in
    if one_time then
      let called_symbol := StringToSymbol "called" in
      match Has w state called_symbol with
      | None => None
      | Some true => Some (ThrowError already_called_message w)
      | Some false =>
        w1 ← Set_ state called_symbol (VBool true) w;
        run_holder (emit (EvSetCalled state) w1)
      end
    else run_holder w
  end.

End Trampoline.

(** Modelled from the spec: host-runtime partial application belongs to the
    engine.  Calling the bound function with scripted arguments invokes the
    trampoline with the two bound values prepended; the callee stays on the
    stack until it returns.  Calling a value that is no function raises a
    host error. *)
Definition dispatch
  (trampoline : nat → nat → list Value → World → option World)
  (f : nat) (args : list Value) (w : World) : option World :=
  match functions w !! f with
  | None => Some (ThrowError not_a_function_message w)
  | Some fn =>
    w1 ← trampoline (bound_external fn) (bound_state fn) args
           (set_active (f :: active w) (emit (EvInvoke (length (active w)) f args) w));
    Some (emit (EvReturn f) (set_active (tail (active w1)) w1))
  end.

(** [Call depth f args]: a scripted call made with [depth] frames of host
    stack left; the callback may call back into script with one frame less.
    With no frame left the host raises its stack-overflow error instead of
    entering the callee, so that every call returns. *)
Fixpoint Call (depth : nat) (f : nat) (args : list Value) (w : World)
  : option World :=
  match depth with
  | 0 => Some (ThrowError stack_overflow_message w)
  | S d => dispatch (CallTranslater (Call d)) f args w
  end.

(** ** The factory *)

(** [new TranslaterHolder(isolate)]: the holder is allocated, an External
    wrapping its address [this] is created, the handle is made to refer to
    it, and [SetWeak(this, &GC, kFinalizer)] registers the finalizer with
    [this] as its parameter.  The callback is still the null one. *)
Definition new_TranslaterHolder (isolate : nat) (w : World) : nat * World :=
  let this := next_id w in
  let external := next_id w in
  let w := set_externals (<[external := this]> (externals w)) w in
  let w := set_heap (<[this := mkHolder (Some external) []]> (heap w)) w in
  (this, set_weak (<[external := this]> (weak w)) w).

(** [BindFunctionWith]: [func.bind(func, arg1, arg2)], a new function value
    with the two arguments bound. *)
Definition BindFunctionWith (isolate : nat) (func : FunctionTemplate)
  (arg1 arg2 : nat) (w : World) : nat * World :=
  let f := next_id w in
  (f, set_functions (<[f := mkBound isolate func arg1 arg2]> (functions w)) w).

Definition CreateFunctionFromTranslater (isolate : nat)
  (translater : Translater) (one_time : bool) (w : World)
  : option (nat * World) :=
  (* The FunctionTemplate is cached. *)
  let w :=
    match g_call_translater w with
    | Some _ => w
    | None =>
      let t := mkTemplate isolate (next_template w) in
      emit (EvTemplate t)
        (set_next_template (S (next_template w)) (set_cache (Some t) w))
    end in
  call_translater ← g_call_translater w;
  (* v8::Local<v8::FunctionTemplate>::New(isolate, g_call_translater) and
     GetFunction(context): a template is a value of the engine that created
     it; with another engine the host defines nothing *)
  if negb (bool_decide (tmpl_isolate call_translater = isolate)) then None else
  let '(holder, w) := new_TranslaterHolder isolate w in
  (* holder->translater = translater *)
  let w :=
    set_heap (alter (λ h, mkHolder (handle h) translater) holder (heap w)) w in
  (* Dictionary state = CreateEmpty; if (one_time) state.Set("oneTime", true) *)
  let state := next_id w in
  let w := set_objects (<[state := ∅]> (objects w)) w in
  let w :=
    if one_time
    then set_objects (alter (insert "oneTime" (VBool true)) state (objects w)) w
    else w in
  (* holder->handle.Get(isolate) *)
  hd ← heap w !! holder;
  external ← handle hd;
  let '(f, w) := BindFunctionWith isolate call_translater external state w in
  Some (f, emit (EvCreate f one_time) (set_next_id (S (next_id w)) w)).

(** ** Scripts driving the process from the outside *)

(** Modelled from the spec: what script does between the calls of the
    native side.  Besides calling a callable and dropping its last reference
    to one (so that the collector finds it unreachable), script can add a
    property to the prototype of plain objects and remove one.  A call made
    by script returns to script, which handles the exception the call
    raised: none is pending afterwards. *)
Inductive Action :=
| ACreate (isolate : nat) (tr : Translater) (one_time : bool)
| AInvoke (depth : nat) (f : nat) (args : list Value)
| ACollect (f : nat)
| ASetPrototype (key : string) (v : Value)
| ADeletePrototype (key : string).

Definition perform (a : Action) (w : World) : option World :=
  match a with
  | ACreate isolate tr one_time =>
    '(_, w1) ← CreateFunctionFromTranslater isolate tr one_time w; Some w1
  | AInvoke depth f args =>
    w1 ← Call depth f args w; Some (set_pending None w1)
  | ACollect f => collect f w
  | ASetPrototype key v =>
    Some (set_object_prototype (<[key := v]> (object_prototype w)) w)
  | ADeletePrototype key =>
    Some (set_object_prototype (delete key (object_prototype w)) w)
  end.

Fixpoint perform_all (acts : list Action) (w : World) : option World :=
  match acts with
  | [] => Some w
  | a :: rest => w1 ← perform a w; perform_all rest w1
  end.

Definition reachable (w : World) : Prop :=
  ∃ acts, perform_all acts init = Some w.

(** ** Reading the log *)

Definition run_args (p : nat) (tr : list Event) : list (list Value) :=
  omap (λ ev, match ev with
              | EvRunBegin q a => if decide (q = p) then Some a else None
              | _ => None
              end) tr.

Definition invoke_args (f : nat) (tr : list Event) : list (list Value) :=
  omap (λ ev, match ev with
              | EvInvoke _ g a => if decide (g = f) then Some a else None
              | _ => None
              end) tr.

Definition invoke_levels (tr : list Event) : list nat :=
  omap (λ ev, match ev with EvInvoke l _ _ => Some l | _ => None end) tr.

Definition destroyed (p : nat) (tr : list Event) : list DestroyPath :=
  omap (λ ev, match ev with
              | EvDestroy path q => if decide (q = p) then Some path else None
              | _ => None
              end) tr.

Definition templates (tr : list Event) : list FunctionTemplate :=
  omap (λ ev, match ev with EvTemplate t => Some t | _ => None end) tr.

Definition thrown (tr : list Event) : list string :=
  omap (λ ev, match ev with EvThrow m => Some m | _ => None end) tr.

(** Every destruction in the log comes right after the detachment of the
    weak registration of the same holder. *)
Definition detached_before_destroy (tr : list Event) : Prop :=
  ∀ i path p, tr !! i = Some (EvDestroy path p) →
    ∃ j, i = S (S j) ∧ tr !! j = Some (EvClearWeak p)
         ∧ tr !! S j = Some (EvReset p).

(** ** Well-formed process states *)

Definition key_set : gset string := {[ "oneTime"; "called" ]}.

(** What holds in every state the process can reach, whatever script does
    to the prototype. *)
Record WF (w : World) : Prop := mkWF {
  wf_fun : ∀ f fn, functions w !! f = Some fn →
    f < next_id w ∧ bound_external fn = f ∧ bound_state fn = f
    ∧ externals w !! f = Some f ∧ is_Some (objects w !! f)
    ∧ g_call_translater w = Some (fn_target fn);
  wf_heap : ∀ p hd, heap w !! p = Some hd →
    handle hd = Some p ∧ weak w !! p = Some p ∧ is_Some (functions w !! p);
  wf_weak : ∀ e p, weak w !! e = Some p → e = p ∧ is_Some (heap w !! p);
  wf_dead : ∀ f, is_Some (functions w !! f) → heap w !! f = None →
    HasOwn w f "called" = Some true;
  wf_active : ∀ f, f ∈ active w → is_Some (functions w !! f);
  wf_keys : ∀ r o, objects w !! r = Some o →
    dom o ⊆ key_set ∧ (∀ k v, o !! k = Some v → v = VBool true);
  wf_destroyed : ∀ p,
    length (destroyed p (trace w)) =
    if bool_decide (p < next_id w ∧ heap w !! p = None) then 1 else 0;
  wf_detached : detached_before_destroy (trace w);
  wf_templates : templates (trace w) = option_list (g_call_translater w);
  wf_lazy : g_call_translater w = None ↔ next_id w = 0
}.

(** [Gated w]: every callable whose holder has been freed reads as
    one-shot.  Its marker being set ([wf_dead]), the trampoline refuses it
    and does not reach the freed holder.  Script breaks this by removing an
    inherited [oneTime]. *)
Definition Gated (w : World) : Prop :=
  ∀ f, is_Some (functions w !! f) → heap w !! f = None →
    Has w f "oneTime" = Some true.

(** [Ext w Δ w'] : [w'] comes after [w] in the course of one action of the
    native side, with [Δ] logged in between; the prototype is the same. *)
Record Ext (w : World) (Δ : list Event) (w' : World) : Prop := mkExt {
  ext_trace : trace w' = trace w ++ Δ;
  ext_active : active w' = active w;
  ext_proto : object_prototype w' = object_prototype w;
  ext_next : next_id w ≤ next_id w';
  ext_cache : ∀ t, g_call_translater w = Some t → g_call_translater w' = Some t;
  ext_fun : ∀ f fn, f < next_id w →
    functions w' !! f = Some fn → functions w !! f = Some fn;
  ext_heap : ∀ p hd, p < next_id w →
    heap w' !! p = Some hd → heap w !! p = Some hd;
  ext_own : ∀ f, is_Some (functions w !! f) → is_Some (functions w' !! f) →
    HasOwn w' f "oneTime" = HasOwn w f "oneTime"
    ∧ (HasOwn w f "called" = Some true → HasOwn w' f "called" = Some true);
  ext_keep : ∀ f, f ∈ active w →
    Has w f "oneTime" = Some false ∨ Has w f "called" = Some true →
    heap w' !! f = heap w !! f;
  ext_repeat : ∀ f, is_Some (functions w !! f) →
    Has w f "oneTime" = Some false →
    run_args f Δ = invoke_args f Δ ∧ ByOneShot ∉ destroyed f Δ;
  ext_once : ∀ f, is_Some (functions w !! f) →
    Has w f "oneTime" = Some true → Has w f "called" = Some true →
    run_args f Δ = [];
  ext_gone : ∀ f, f < next_id w → functions w !! f = None →
    run_args f Δ = [] ∧ invoke_args f Δ = [] ∧ destroyed f Δ = [];
  ext_level : Forall (λ l, length (active w) ≤ l) (invoke_levels Δ);
  ext_fresh : ∀ f, is_Some (functions w !! f) → is_Some (functions w' !! f) →
    Has w f "called" = Some false → invoke_args f Δ = [] →
    Has w' f "called" = Some false;
  ext_gated : Gated w → Gated w'
}.

(** [Since w Δ w'] : [w'] comes after [w], whatever native code and script
    have done in between. *)
Record Since (w : World) (Δ : list Event) (w' : World) : Prop := mkSince {
  since_trace : trace w' = trace w ++ Δ;
  since_next : next_id w ≤ next_id w';
  since_fun : ∀ f fn, f < next_id w →
    functions w' !! f = Some fn → functions w !! f = Some fn;
  since_heap : ∀ p hd, p < next_id w →
    heap w' !! p = Some hd → heap w !! p = Some hd;
  since_own : ∀ f, is_Some (functions w !! f) → is_Some (functions w' !! f) →
    HasOwn w' f "oneTime" = HasOwn w f "oneTime"
    ∧ (HasOwn w f "called" = Some true → HasOwn w' f "called" = Some true);
  since_once : ∀ f, is_Some (functions w !! f) →
    HasOwn w f "oneTime" = Some true → HasOwn w f "called" = Some true →
    run_args f Δ = [];
  since_gone : ∀ f, f < next_id w → functions w !! f = None →
    run_args f Δ = [] ∧ invoke_args f Δ = [] ∧ destroyed f Δ = []
}.

(** The fields that the invariants read. *)
Definition core (w : World) :=
  (heap w, g_call_translater w, externals w, weak w, objects w, functions w,
   active w, next_id w, object_prototype w).

(** Events that none of the readers above picks up. *)
Definition quiet (ev : Event) : Prop :=
  match ev with
  | EvRunBegin _ _ | EvInvoke _ _ _ | EvDestroy _ _ | EvTemplate _ => False
  | _ => True
  end.

(** [safe c]: from a well-formed state [c] returns, if no freed holder
    stands behind an open gate or if it returns at all, in a well-formed
    state that comes after. *)
Definition safe (c : World → option World) : Prop :=
  ∀ w, WF w → Gated w ∨ is_Some (c w) →
    ∃ w' Δ, c w = Some w' ∧ WF w' ∧ Ext w Δ w'.

(** Events that the invariant of the state does not read. *)
Definition calm (ev : Event) : Prop :=
  match ev with
  | EvDestroy _ _ | EvTemplate _ => False
  | _ => True
  end.

(** ** Program points of a scripted call

    [entered]: the callee is on the stack, the trampoline not yet run.
    [at_run]: the state in which [translater.Run] starts; for a one-shot
    callable the marker has been written.  [finished]: what follows the
    return of [Run]. *)

Definition entered (f : nat) (args : list Value) (w : World) : World :=
  set_active (f :: active w) (emit (EvInvoke (length (active w)) f args) w).

Definition marked (one_time : bool) (state : nat) (w : World) : World :=
  if one_time then
    match Set_ state (StringToSymbol "called") (VBool true) w with
    | Some w1 => emit (EvSetCalled state) w1
    | None => w
    end
  else w.

Definition at_run (one_time : bool) (f : nat) (args : list Value) (w : World)
  : World :=
  emit (EvRunBegin f args) (marked one_time f (entered f args w)).

Definition finished (one_time : bool) (f : nat) (w : World) : option World :=
  let w2 := emit (EvRunEnd f) w in
  w3 ← (if one_time then delete_holder ByOneShot f w2 else Some w2);
  Some (emit (EvReturn f) (set_active (tail (active w3)) w3)).

Definition pre_events (one_time : bool) (level f : nat) (args : list Value)
  : list Event :=
  EvInvoke level f args
  :: (if one_time then [EvSetCalled f] else []) ++ [EvRunBegin f args].

Definition post_events (one_time : bool) (f : nat) : list Event :=
  EvRunEnd f
  :: (if one_time
      then [EvClearWeak f; EvReset f; EvDestroy ByOneShot f] else [])
  ++ [EvReturn f].

(** ** Names for what the factory does *)

Definition cached_or_new (isolate : nat) (w : World) : FunctionTemplate :=
  match g_call_translater w with
  | Some t => t
  | None => mkTemplate isolate (next_template w)
  end.

Definition initial_state (one_time : bool) : gmap string Value :=
  if one_time then {[ "oneTime" := VBool true ]} else ∅.

Definition create_events (isolate : nat) (one_time : bool) (w : World)
  : list Event :=
  match g_call_translater w with
  | Some _ => []
  | None => [EvTemplate (mkTemplate isolate (next_template w))]
  end ++ [EvCreate (next_id w) one_time].

(** The wording of the error in the specification. *)
Definition spec_already_called_message : string :=
  "callback can only be called once".

(** [call_all depth f argss]: the caller invokes [f] once per argument
    list, in order. *)
Fixpoint call_all (depth f : nat) (argss : list (list Value)) (w : World)
  : option World :=
  match argss with
  | [] => Some w
  | args :: rest => w1 ← Call depth f args w; call_all depth f rest w1
  end.

(** A one-shot callable is called and then reclaimed; a repeatable one is
    reclaimed by the collector. *)
Definition two_lifetimes : list Action :=
  [ACreate 0 [OpObserve] true; AInvoke 1 0 []; ACollect 0;
   ACreate 0 [] false; ACollect 1].

(** * The ref-counted handle to a host function *)

Module Safe.

(** Threads of the process; [UI] is the designated owner thread. *)
Inductive Thread := UI | IO | Other (n : nat).

(** A [v8::Local]: empty, or a reference to a host value. *)
Definition Local := option Value.

(** [RefCountedGlobal<T>]: the [v8::Global] it owns and the count kept by
    [base::RefCountedThreadSafe]. *)
Record RefCountedGlobal := mkGlobal {
  handle_ : option Value;
  ref_count : nat
}.

(** [SafeV8Function]: a [scoped_refptr], null or pointing to a
    [RefCountedGlobal]. *)
Record SafeV8Function := mkSafe { v8_function_ : option nat }.

(** The native heap of ref-counted globals, the wrappers native code holds
    (a slot is emptied when its wrapper is destroyed), whether this is the
    browser process, the deletions posted to the UI thread, and the log of
    which object was deleted on which thread. *)
Record Process := mkProcess {
  globals : gmap nat RefCountedGlobal;
  next_global : nat;
  wrappers : list (option SafeV8Function);
  is_browser_process : bool;
  ui_tasks : list nat;
  released : list (nat * Thread)
}.

Definition start (browser : bool) : Process :=
  mkProcess ∅ 0 [] browser [] [].

Definition set_globals (g : gmap nat RefCountedGlobal) (st : Process) :=
  mkProcess g (next_global st) (wrappers st) (is_browser_process st)
    (ui_tasks st) (released st).

Definition set_wrappers (ws : list (option SafeV8Function)) (st : Process) :=
  mkProcess (globals st) (next_global st) ws (is_browser_process st)
    (ui_tasks st) (released st).

Definition set_ui_tasks (q : list nat) (st : Process) :=
  mkProcess (globals st) (next_global st) (wrappers st)
    (is_browser_process st) q (released st).

(** Modelled from the spec: [BrowserThread::CurrentlyOn], the predicate
    for "is the current thread the owner thread", is part of the embedder
    and not of callback.cc. *)
Definition CurrentlyOn (id current : Thread) : bool :=
  match id, current with
  | UI, UI | IO, IO => true
  | Other n, Other m => bool_decide (n = m)
  | _, _ => false
  end.

(** Modelled from the spec: [BrowserThread::DeleteSoon], the "run this on
    the designated owner thread" primitive; the deletion is queued for the
    UI thread and the caller goes on. *)
Definition DeleteSoon (x : nat) (st : Process) : Process :=
  set_ui_tasks (ui_tasks st ++ [x]) st.

(** [delete x], run on thread [current]. *)
Definition delete_global (current : Thread) (x : nat) (st : Process)
  : option Process :=
  _ ← globals st !! x;
  Some (mkProcess (delete x (globals st)) (next_global st) (wrappers st)
          (is_browser_process st) (ui_tasks st)
          (released st ++ [(x, current)])).

(** [DeleteOnUIThread::Destruct]. *)
Definition Destruct (current : Thread) (x : nat) (st : Process)
  : option Process :=
  if is_browser_process st && negb (CurrentlyOn UI current)
  then Some (DeleteSoon x st)
  else delete_global current x st.

(** Modelled from the spec: [base::RefCountedThreadSafe] belongs to the
    base library; when the count reaches zero the traits' [Destruct] is
    called. *)
Definition AddRef (x : nat) (st : Process) : option Process :=
  g ← globals st !! x;
  Some (set_globals (<[x := mkGlobal (handle_ g) (S (ref_count g))]> (globals st)) st).

(** [Release] on thread [current]: the count is decremented, and the
    object is handed to [Destruct] when it has reached zero. *)
Definition Release (current : Thread) (x : nat) (st : Process)
  : option Process :=
  g ← globals st !! x;
  match ref_count g with
  | 0 => None
  | S n =>
    let st1 := set_globals (<[x := mkGlobal (handle_ g) n]> (globals st)) st in
    if bool_decide (n = 0) then Destruct current x st1 else Some st1
  end.

(** [RefCountedGlobal::IsAlive] and [RefCountedGlobal::NewHandle]. *)
Definition RefCountedGlobal_IsAlive (g : RefCountedGlobal) : bool :=
  negb (bool_decide (handle_ g = None)).

Definition RefCountedGlobal_NewHandle (g : RefCountedGlobal) : Local := handle_ g.

(** [SafeV8Function::SafeV8Function(isolate, value)]. *)
Definition SafeV8Function_new (value : Local) (st : Process)
  : SafeV8Function * Process :=
  let x := next_global st in
  (mkSafe (Some x),
   mkProcess (<[x := mkGlobal value 1]> (globals st)) (S x) (wrappers st)
     (is_browser_process st) (ui_tasks st) (released st)).

(** [SafeV8Function::SafeV8Function(const SafeV8Function& other)]. *)
Definition SafeV8Function_copy (other : SafeV8Function) (st : Process)
  : option (SafeV8Function * Process) :=
  match v8_function_ other with
  | None => Some (mkSafe None, st)
  | Some x => st1 ← AddRef x st; Some (mkSafe (Some x), st1)
  end.

(** [SafeV8Function::~SafeV8Function()], run on thread [current]. *)
Definition SafeV8Function_destroy (current : Thread) (s : SafeV8Function)
  (st : Process) : option Process :=
  match v8_function_ s with
  | None => Some st
  | Some x => Release current x st
  end.

(** [SafeV8Function::IsAlive]. *)
Definition IsAlive (s : SafeV8Function) (st : Process) : option bool :=
  match v8_function_ s with
  | None => Some false
  | Some x => g ← globals st !! x; Some (RefCountedGlobal_IsAlive g)
  end.

(** [SafeV8Function::NewHandle]: the pointer is dereferenced unchecked. *)
Definition NewHandle (s : SafeV8Function) (st : Process) : option Local :=
  x ← v8_function_ s; g ← globals st !! x; Some (RefCountedGlobal_NewHandle g).

(** What native code and the UI thread's loop do to the process. *)
Inductive Step :=
| SNew (value : Local)
| SCopy (i : nat)
| SDrop (current : Thread) (i : nat)
| SRunUI.

Definition live_wrapper (st : Process) (i : nat) : option SafeV8Function :=
  slot ← wrappers st !! i; slot.

Definition step (a : Step) (st : Process) : option Process :=
  match a with
  | SNew value =>
    let '(s, st1) := SafeV8Function_new value st in
    Some (set_wrappers (wrappers st1 ++ [Some s]) st1)
  | SCopy i =>
    match live_wrapper st i with
    | None => Some st
    | Some other =>
      '(s, st1) ← SafeV8Function_copy other st;
      Some (set_wrappers (wrappers st1 ++ [Some s]) st1)
    end
  | SDrop current i =>
    match live_wrapper st i with
    | None => Some st
    | Some s =>
      st1 ← SafeV8Function_destroy current s st;
      Some (set_wrappers (<[i := None]> (wrappers st1)) st1)
    end
  | SRunUI =>
    match ui_tasks st with
    | [] => Some st
    | x :: rest => delete_global UI x (set_ui_tasks rest st)
    end
  end.

Fixpoint steps (l : list Step) (st : Process) : option Process :=
  match l with
  | [] => Some st
  | a :: rest => st1 ← step a st; steps rest st1
  end.

Definition reachable (st : Process) : Prop :=
  ∃ browser l, steps l (start browser) = Some st.

(** Whether a slot holds a wrapper pointing to [x], and how many do. *)
Definition holds (x : nat) (slot : option SafeV8Function) : bool :=
  match slot with
  | Some s => bool_decide (v8_function_ s = Some x)
  | None => false
  end.

Fixpoint count_refs (x : nat) (ws : list (option SafeV8Function)) : nat :=
  match ws with
  | [] => 0
  | slot :: rest => (if holds x slot then 1 else 0) + count_refs x rest
  end.

Record Inv (st : Process) : Prop := mkInv {
  inv_count : ∀ x g, globals st !! x = Some g →
    ref_count g = count_refs x (wrappers st);
  inv_live : ∀ i s, live_wrapper st i = Some s →
    ∃ x, v8_function_ s = Some x ∧ is_Some (globals st !! x);
  inv_tasks : ∀ x, x ∈ ui_tasks st →
    is_Some (globals st !! x) ∧ count_refs x (wrappers st) = 0;
  inv_nodup : NoDup (ui_tasks st);
  inv_fresh : ∀ x, is_Some (globals st !! x) → x < next_global st
}.

(** [Later st st']: [st'] comes after [st]. *)
Record Later (st st' : Process) : Prop := mkLater {
  later_slots : ∀ i s, i < length (wrappers st) →
    live_wrapper st' i = Some s → live_wrapper st i = Some s;
  later_length : length (wrappers st) ≤ length (wrappers st');
  later_handle : ∀ x g g', globals st !! x = Some g →
    globals st' !! x = Some g' → handle_ g' = handle_ g;
  later_gone : ∀ x, x < next_global st → globals st !! x = None →
    globals st' !! x = None;
  later_next : next_global st ≤ next_global st';
  later_browser : is_browser_process st' = is_browser_process st
}.

End Safe.

(** ** Where and how often an object is deleted

    What [DeleteOnUIThread::Destruct] and the reference counting maintain
    on top of [Safe.Inv]: in the browser process every deletion was run by
    the UI thread, outside of it nothing is ever posted; no object is deleted
    twice, a deleted object is off the heap for good, and an object whose
    count has reached zero is on the heap only while its deletion is
    queued. *)
Record Tidy (st : Safe.Process) : Prop := mkTidy {
  tidy_ui : Safe.is_browser_process st = true →
    ∀ x t, (x, t) ∈ Safe.released st → t = Safe.UI;
  tidy_queue : Safe.is_browser_process st = false → Safe.ui_tasks st = [];
  tidy_once : NoDup (Safe.released st).*1;
  tidy_gone : ∀ x, x ∈ (Safe.released st).*1 →
    Safe.globals st !! x = None ∧ x < Safe.next_global st;
  tidy_zero : ∀ x g, Safe.globals st !! x = Some g → Safe.ref_count g = 0 →
    x ∈ Safe.ui_tasks st
}.

(** ** One-shot callables over the whole life of the process

    [FirstOnly w Δ w']: for every callable whose record has [oneTime] and not
    yet [called] among its own properties in [w], the log [Δ] from [w] to
    [w'] shows the callback started at most once, and not at all if the
    marker is still missing in [w'].  When the record inherits no [called],
    the callback is started for the first entry of the trampoline and for no
    other, and a missing marker means that the trampoline was not entered. *)
Definition FirstOnly (w : World) (Δ : list Event) (w' : World) : Prop :=
  ∀ f, is_Some (functions w !! f) →
    HasOwn w f "oneTime" = Some true → HasOwn w f "called" = Some false →
    length (run_args f Δ) ≤ 1
    ∧ (is_Some (functions w' !! f) → HasOwn w' f "called" = Some false →
       run_args f Δ = [])
    ∧ (inherited w "called" = false →
       run_args f Δ = take 1 (invoke_args f Δ)
       ∧ (is_Some (functions w' !! f) → HasOwn w' f "called" = Some false →
          invoke_args f Δ = [])).

Definition once (c : World → option World) : Prop :=
  ∀ w w' Δ, WF w → c w = Some w' → Ext w Δ w' → FirstOnly w Δ w'.

(** [AtMostOnce w Δ w']: the part of [FirstOnly] that holds whatever script
    does to the prototype between [w] and [w']. *)
Definition AtMostOnce (w : World) (Δ : list Event) (w' : World) : Prop :=
  ∀ f, is_Some (functions w !! f) →
    HasOwn w f "oneTime" = Some true → HasOwn w f "called" = Some false →
    length (run_args f Δ) ≤ 1
    ∧ (is_Some (functions w' !! f) → HasOwn w' f "called" = Some false →
       run_args f Δ = []).

(** An action that does not give the prototype a [called] property. *)
Definition keeps_marker_own (a : Action) : Prop :=
  ∀ v, a ≠ ASetPrototype "called" v.

(** ** What script may do without harm

    An action is gentle when it is not the removal of [oneTime] from the
    prototype, and a factory call is made for [engine] when it is for that
    engine instance. *)
Definition gentle (a : Action) : Prop := a ≠ ADeletePrototype "oneTime".

Definition made_for (engine : nat) (a : Action) : Prop :=
  match a with
  | ACreate isolate _ _ => isolate = engine
  | _ => True
  end.

(** An action of the native side: a factory call, a scripted call or a
    collection. *)
Definition native_action (a : Action) : Prop :=
  match a with
  | ACreate _ _ _ | AInvoke _ _ _ | ACollect _ => True
  | _ => False
  end.

(** The cached template, if any, is one of [engine]. *)
Definition cached_for (engine : nat) (w : World) : Prop :=
  ∀ t, g_call_translater w = Some t → tmpl_isolate t = engine.

(** ** Callbacks that stay on the native side *)

(** A callback that observes its arguments and signals errors, and neither
    calls back into script nor lets the collector run. *)
Definition plain (tr : Translater) : Prop :=
  ∀ op, op ∈ tr → op = OpObserve ∨ ∃ msg, op = OpThrow msg.

(** The errors a callback signals, in order, and what it observes when run
    with [args]. *)
Definition throws_of (tr : Translater) : list string :=
  omap (λ op, match op with OpThrow msg => Some msg | _ => None end) tr.

Definition observes_of (tr : Translater) (args : list Value)
  : list (list Value) :=
  omap (λ op, match op with OpObserve => Some args | _ => None end) tr.

(** The pending exception once the errors [msgs] have been signalled in
    order: the last of them, or the one pending before when there is none. *)
Definition last_error (pending : option string) (msgs : list string)
  : option string :=
  foldl (λ _ msg, Some msg) pending msgs.

(** * Proofs *)

(** ** The model at work *)

(** A repeatable callable observing its arguments is called with (1), (2)
    and (3): the callback sees the three calls in order, and the holder
    stays. *)
Example counter_called_three_times :
  ∃ w,
    perform_all [ACreate 0 [OpObserve] false; AInvoke 1 0 [VInt 1];
                 AInvoke 1 0 [VInt 2]; AInvoke 1 0 [VInt 3]] init = Some w
    ∧ native_log w = [[VInt 1]; [VInt 2]; [VInt 3]]
    ∧ trace w
      = [EvTemplate (mkTemplate 0 0); EvCreate 0 false;
         EvInvoke 0 0 [VInt 1]; EvRunBegin 0 [VInt 1]; EvRunEnd 0; EvReturn 0;
         EvInvoke 0 0 [VInt 2]; EvRunBegin 0 [VInt 2]; EvRunEnd 0; EvReturn 0;
         EvInvoke 0 0 [VInt 3]; EvRunBegin 0 [VInt 3]; EvRunEnd 0; EvReturn 0]
    ∧ is_Some (heap w !! 0).
Proof.
  eexists. split; [vm_compute; reflexivity|].
  split; [reflexivity|]. split; [reflexivity|]. vm_compute. eauto.
Qed.

(** A one-shot callable whose callback calls the callable again and then
    signals an error: the nested call is refused, the callback runs once,
    and the holder is destroyed before the call returns. *)
Example one_shot_reentered :
  ∃ w,
    perform_all [ACreate 0 [OpCall 0 [VInt 7]; OpObserve; OpThrow "boom"] true;
                 AInvoke 2 0 [VInt 1]] init = Some w
    ∧ native_log w = [[VInt 1]]
    ∧ trace w
      = [EvTemplate (mkTemplate 0 0); EvCreate 0 true;
         EvInvoke 0 0 [VInt 1]; EvSetCalled 0; EvRunBegin 0 [VInt 1];
         EvInvoke 1 0 [VInt 7]; EvThrow already_called_message; EvReturn 0;
         EvThrow "boom"; EvRunEnd 0;
         EvClearWeak 0; EvReset 0; EvDestroy ByOneShot 0; EvReturn 0]
    ∧ heap w !! 0 = None.
Proof.
  eexists. split; [vm_compute; reflexivity|].
  split; [reflexivity|]. split; reflexivity.
Qed.

(** ** Lemmas on the log *)

Lemma run_args_app p l1 l2 : run_args p (l1 ++ l2) = run_args p l1 ++ run_args p l2.
Proof. apply omap_app. Qed.

Lemma invoke_args_app f l1 l2 :
  invoke_args f (l1 ++ l2) = invoke_args f l1 ++ invoke_args f l2.
Proof. apply omap_app. Qed.

Lemma invoke_levels_app l1 l2 :
  invoke_levels (l1 ++ l2) = invoke_levels l1 ++ invoke_levels l2.
Proof. apply omap_app. Qed.

Lemma destroyed_app p l1 l2 :
  destroyed p (l1 ++ l2) = destroyed p l1 ++ destroyed p l2.
Proof. apply omap_app. Qed.

Lemma templates_app l1 l2 : templates (l1 ++ l2) = templates l1 ++ templates l2.
Proof. apply omap_app. Qed.

Lemma thrown_app l1 l2 : thrown (l1 ++ l2) = thrown l1 ++ thrown l2.
Proof. apply omap_app. Qed.

Create Rewrite HintDb log.
#[export] Hint Rewrite run_args_app invoke_args_app
  invoke_levels_app destroyed_app templates_app thrown_app
  @app_nil_r @length_app : log.

Lemma quiet_readers Δ :
  Forall quiet Δ →
  (∀ p, run_args p Δ = []) ∧ (∀ f, invoke_args f Δ = [])
  ∧ (∀ p, destroyed p Δ = []) ∧ templates Δ = [] ∧ invoke_levels Δ = [].
Proof.
  induction 1 as [|ev Δ Hq _ IH]; [done|].
  destruct IH as (H1 & H2 & H3 & H4 & H5).
  destruct ev; try done; cbn; auto.
Qed.

Lemma detached_app_free tr Δ :
  detached_before_destroy tr → (∀ path p, EvDestroy path p ∉ Δ) →
  detached_before_destroy (tr ++ Δ).
Proof.
  intros Hd Hq i path p Hi.
  destruct (decide (i < length tr)) as [Hlt|Hge].
  - rewrite lookup_app_l in Hi by done.
    destruct (Hd _ _ _ Hi) as (j & -> & Hj1 & Hj2).
    exists j. split; [done|].
    rewrite !lookup_app_l by lia. done.
  - rewrite lookup_app_r in Hi by lia.
    apply list_elem_of_lookup_2 in Hi. by apply Hq in Hi.
Qed.

Lemma detached_app_quiet tr Δ :
  detached_before_destroy tr → Forall quiet Δ →
  detached_before_destroy (tr ++ Δ).
Proof.
  intros Hd Hq. apply detached_app_free; [done|].
  intros path p Hin. rewrite Forall_forall in Hq. by apply Hq in Hin.
Qed.

Lemma detached_app_destroy tr path p :
  detached_before_destroy tr →
  detached_before_destroy
    (((tr ++ [EvClearWeak p]) ++ [EvReset p]) ++ [EvDestroy path p]).
Proof.
  intros Hd. rewrite <- !app_assoc. cbn.
  intros i path' p' Hi.
  destruct (decide (i < length tr)) as [Hlt|Hge].
  - rewrite lookup_app_l in Hi by done.
    destruct (Hd _ _ _ Hi) as (j & -> & Hj1 & Hj2).
    exists j. split; [done|].
    rewrite !lookup_app_l by lia. done.
  - rewrite lookup_app_r in Hi by lia.
    destruct (i - length tr) as [|[|[|k]]] eqn:Hk; cbn in Hi; try done.
    injection Hi as <- <-.
    exists (length tr). split; [lia|].
    rewrite !lookup_app_r by lia.
    replace (length tr - length tr) with 0 by lia.
    replace (S (length tr) - length tr) with 1 by lia. done.
Qed.

(** ** Steps that leave the invariants' fields alone *)

Lemma HasOwn_objects w w' obj key :
  objects w' = objects w → HasOwn w' obj key = HasOwn w obj key.
Proof. unfold HasOwn. by intros ->. Qed.

Lemma Has_own w w' obj key :
  object_prototype w' = object_prototype w →
  HasOwn w' obj key = HasOwn w obj key → Has w' obj key = Has w obj key.
Proof. unfold Has, inherited. by intros -> ->. Qed.

Lemma Has_objects w w' obj key :
  objects w' = objects w → object_prototype w' = object_prototype w →
  Has w' obj key = Has w obj key.
Proof. intros Ho Hp. by apply Has_own, HasOwn_objects. Qed.

Lemma HasOwn_Has w f key :
  HasOwn w f key = Some true → Has w f key = Some true.
Proof. unfold Has. by intros ->. Qed.

Lemma Has_cases w f key b :
  Has w f key = Some b →
  ∃ own, HasOwn w f key = Some own ∧ b = own || inherited w key.
Proof.
  unfold Has. destruct (HasOwn w f key) as [own|]; [|done].
  intros [= <-]. eauto.
Qed.

Lemma Has_mono w w' f key :
  object_prototype w' = object_prototype w →
  is_Some (HasOwn w' f key) →
  (HasOwn w f key = Some true → HasOwn w' f key = Some true) →
  Has w f key = Some true → Has w' f key = Some true.
Proof.
  intros Hp [own' Hown'] Hmono [own [Hown Hb]]%Has_cases.
  unfold Has, inherited in *. rewrite Hp.
  destruct own.
  - by rewrite (Hmono Hown).
  - rewrite Hown'. cbn. cbn in Hb. rewrite <- Hb. by destruct own'.
Qed.

Lemma Gated_core w w' :
  heap w' = heap w → functions w' = functions w → objects w' = objects w →
  object_prototype w' = object_prototype w → Gated w → Gated w'.
Proof.
  intros Hh Hf Ho Hp G f. rewrite Hh, Hf, (Has_objects w w') by done. apply G.
Qed.

Lemma quiet_step w w' Δ :
  WF w → core w' = core w → trace w' = trace w ++ Δ → Forall quiet Δ →
  WF w' ∧ Ext w Δ w'.
Proof.
  intros Hwf Hcore Htr Hq.
  injection Hcore as Hh Hc He Hk Ho Hf Ha Hn Hp.
  destruct (quiet_readers _ Hq) as (Hr1 & Hr2 & Hr3 & Hr4 & Hr5).
  assert (HH : ∀ g key, Has w' g key = Has w g key).
  { intros. by apply Has_objects. }
  assert (HHo : ∀ g key, HasOwn w' g key = HasOwn w g key).
  { intros. by apply HasOwn_objects. }
  destruct Hwf. split; constructor; intros;
    rewrite ?Hh, ?Hc, ?He, ?Hk, ?Ho, ?Hf, ?Ha, ?Hn, ?Htr, ?HH, ?HHo in * by done;
    autorewrite with log; rewrite ?Hr1, ?Hr2, ?Hr3, ?Hr4, ?Hr5;
    autorewrite with log; eauto using detached_app_quiet, Gated_core.
  - cbn. rewrite Nat.add_0_r. auto.
  - split; [done|]. set_solver.
Qed.

Lemma Ext_refl w : Ext w [] w.
Proof.
  constructor; intros; cbn; autorewrite with log; auto.
  split; [done|]. set_solver.
Qed.

Lemma HasOwn_is_Some w f key key' b :
  HasOwn w f key = Some b → is_Some (HasOwn w f key').
Proof.
  unfold HasOwn. destruct (objects w !! f); [cbn; eauto|done].
Qed.

(** Within one action the trampoline reads the same [oneTime], and a marker
    it has read stays. *)
Lemma ext_rec w Δ w' :
  Ext w Δ w' → ∀ f, is_Some (functions w !! f) → is_Some (functions w' !! f) →
  Has w' f "oneTime" = Has w f "oneTime"
  ∧ (Has w f "called" = Some true → Has w' f "called" = Some true).
Proof.
  intros E f Hf Hf'. destruct (ext_own _ _ _ E f Hf Hf') as [Hone Hcalled].
  pose proof (ext_proto _ _ _ E) as Hp.
  split; [by apply Has_own|].
  intros Hc. apply (Has_mono w w'); try done.
  destruct (Has_cases _ _ _ _ Hc) as (own & Hown & _).
  destruct (HasOwn_is_Some w f "called" "oneTime" own Hown) as [b Hb].
  rewrite Hb in Hone. by apply (HasOwn_is_Some w' f "oneTime" "called" b).
Qed.

Lemma Ext_trans w Δ1 w1 Δ2 w2 :
  WF w → WF w1 → Ext w Δ1 w1 → Ext w1 Δ2 w2 → Ext w (Δ1 ++ Δ2) w2.
Proof.
  intros Hwf Hwf1 E1 E2.
  assert (Hlt : ∀ f, is_Some (functions w !! f) → f < next_id w).
  { intros f [fn Hfn]. by destruct (wf_fun _ Hwf _ _ Hfn). }
  pose proof (ext_next _ _ _ E1) as Hn1.
  assert (Hgone : ∀ f, f < next_id w → functions w1 !! f = None →
            run_args f Δ2 = [] ∧ invoke_args f Δ2 = [] ∧ destroyed f Δ2 = []).
  { intros f Hf Hnone. apply (ext_gone _ _ _ E2); [lia|done]. }
  constructor.
  - rewrite (ext_trace _ _ _ E2), (ext_trace _ _ _ E1). by rewrite app_assoc.
  - rewrite (ext_active _ _ _ E2). apply (ext_active _ _ _ E1).
  - rewrite (ext_proto _ _ _ E2). apply (ext_proto _ _ _ E1).
  - pose proof (ext_next _ _ _ E2). lia.
  - intros t Ht. eapply ext_cache; [exact E2|]. eapply ext_cache; eauto.
  - intros f fn Hf Hfn. eapply ext_fun; [exact E1|done|].
    eapply ext_fun; [exact E2|lia|done].
  - intros p hd Hp Hhd. eapply ext_heap; [exact E1|done|].
    eapply ext_heap; [exact E2|lia|done].
  - intros f Hf0 [fn Hf2].
    assert (Hf1 : is_Some (functions w1 !! f)).
    { exists fn. eapply ext_fun; [exact E2| |done]. specialize (Hlt _ Hf0). lia. }
    destruct (ext_own _ _ _ E1 f Hf0 Hf1) as [Ha Hb].
    destruct (ext_own _ _ _ E2 f Hf1 (ex_intro _ fn Hf2)) as [Hc Hd].
    split; [congruence|auto].
  - intros f Hact Hcond.
    assert (Hact1 : f ∈ active w1) by (by rewrite (ext_active _ _ _ E1)).
    pose proof (wf_active _ Hwf _ Hact) as Hf0.
    pose proof (wf_active _ Hwf1 _ Hact1) as Hf1.
    destruct (ext_rec _ _ _ E1 f Hf0 Hf1) as [Ha Hb].
    rewrite (ext_keep _ _ _ E2 f Hact1).
    + by apply (ext_keep _ _ _ E1).
    + destruct Hcond as [Hc|Hc]; [left; congruence|right; auto].
  - intros f Hf0 Hone. autorewrite with log.
    destruct (ext_repeat _ _ _ E1 f Hf0 Hone) as [Ha Hb].
    destruct (functions w1 !! f) as [fn|] eqn:Hf1.
    + destruct (ext_rec _ _ _ E1 f Hf0) as [Hc _]; [by rewrite Hf1|].
      destruct (ext_repeat _ _ _ E2 f) as [Hd He]; [by rewrite Hf1|congruence|].
      split; [congruence|]. rewrite elem_of_app; tauto.
    + destruct (Hgone f (Hlt _ Hf0) Hf1) as (-> & -> & ->).
      autorewrite with log. done.
  - intros f Hf0 Hone Hcalled. autorewrite with log.
    rewrite (ext_once _ _ _ E1 f Hf0 Hone Hcalled). cbn.
    destruct (functions w1 !! f) as [fn|] eqn:Hf1.
    + destruct (ext_rec _ _ _ E1 f Hf0) as [Ho Hc]; [by rewrite Hf1|].
      apply (ext_once _ _ _ E2 f); [by rewrite Hf1|congruence|auto].
    + by destruct (Hgone f (Hlt _ Hf0) Hf1) as (-> & _).
  - intros f Hf Hnone. autorewrite with log.
    destruct (ext_gone _ _ _ E1 f Hf Hnone) as (-> & -> & ->).
    assert (Hnone1 : functions w1 !! f = None).
    { destruct (functions w1 !! f) as [fn|] eqn:Hf1; [|done].
      pose proof (ext_fun _ _ _ E1 f fn Hf Hf1). congruence. }
    by destruct (Hgone f Hf Hnone1) as (-> & -> & ->).
  - autorewrite with log. apply Forall_app. split.
    + apply (ext_level _ _ _ E1).
    + rewrite <- (ext_active _ _ _ E1). apply (ext_level _ _ _ E2).
  - intros f Hf0 [fn Hf2] Hc Hinv. rewrite invoke_args_app in Hinv.
    apply app_eq_nil in Hinv as [Hi1 Hi2].
    assert (Hf1 : is_Some (functions w1 !! f)).
    { exists fn. eapply ext_fun; [exact E2| |done]. specialize (Hlt _ Hf0). lia. }
    apply (ext_fresh _ _ _ E2 f Hf1 (ex_intro _ fn Hf2)); [|done].
    by apply (ext_fresh _ _ _ E1 f Hf0 Hf1).
  - intros G. apply (ext_gated _ _ _ E2), (ext_gated _ _ _ E1), G.
Qed.

(** ** The destructor and the collector *)

Lemma HasOwn_delete w w' f g key :
  objects w' = delete f (objects w) → f ≠ g →
  HasOwn w' g key = HasOwn w g key.
Proof. intros Ho Hne. unfold HasOwn. rewrite Ho. by rewrite lookup_delete_ne. Qed.

Lemma live_is_function w p hd :
  WF w → heap w !! p = Some hd → p < next_id w ∧ is_Some (functions w !! p).
Proof.
  intros Hwf Hp. destruct (wf_heap _ Hwf _ _ Hp) as (_ & _ & [fn Hfn]).
  destruct (wf_fun _ Hwf _ _ Hfn) as (? & _). eauto.
Qed.

Lemma destroyed_singleton p path q :
  destroyed p [EvDestroy path q] = if decide (q = p) then [path] else [].
Proof. unfold destroyed. cbn. by destruct (decide (q = p)). Qed.

Lemma wf_destroyed_step w w' Δ path f hd :
  WF w → heap w !! f = Some hd →
  heap w' = delete f (heap w) → next_id w' = next_id w →
  trace w' = trace w ++ Δ →
  (∀ p, destroyed p Δ = if decide (f = p) then [path] else []) →
  ∀ p, length (destroyed p (trace w')) =
       if bool_decide (p < next_id w' ∧ heap w' !! p = None) then 1 else 0.
Proof.
  intros Hwf Hhd Hh Hn Ht HΔ p.
  rewrite Ht, Hn, Hh, destroyed_app, length_app, HΔ, (wf_destroyed _ Hwf).
  destruct (live_is_function _ _ _ Hwf Hhd) as [Hlt _].
  destruct (decide (f = p)) as [<-|Hne].
  - rewrite lookup_delete_eq, Hhd.
    rewrite bool_decide_eq_false_2 by (by intros [_ ?]).
    rewrite bool_decide_eq_true_2 by done. done.
  - rewrite lookup_delete_ne by done. cbn. lia.
Qed.

Lemma collect_safe f : safe (collect f).
Proof.
  intros w Hwf _. unfold collect.
  destruct (functions w !! f) as [fn|] eqn:Hfn; [|eauto using Ext_refl].
  case_bool_decide as Hact; [eauto using Ext_refl|].
  destruct (wf_fun _ Hwf _ _ Hfn) as (Hlt & -> & -> & Hext & Hobj & Hcache).
  destruct (weak w !! f) as [p|] eqn:Hweak.
  - destruct (wf_weak _ Hwf _ _ Hweak) as [<- [hd Hhd]].
    destruct (wf_heap _ Hwf _ _ Hhd) as (Hhandle & _ & _).
    unfold GC, delete_holder. cbn [heap emit mbind option_bind].
    rewrite Hhd. cbn [mbind option_bind]. rewrite Hhandle.
    match goal with |- ∃ w' Δ, Some ?x = _ ∧ _ => set (w' := x) end.
    set (Δ := [EvFinalizer f; EvClearWeak f; EvReset f;
               EvDestroy ByFinalizer f; EvReclaim f]).
    assert (Hh : heap w' = delete f (heap w)) by done.
    assert (Hc : g_call_translater w' = g_call_translater w) by done.
    assert (He : externals w' = delete f (externals w)) by done.
    assert (Hk : weak w' = delete f (weak w)) by done.
    assert (Ho : objects w' = delete f (objects w)) by done.
    assert (Hf : functions w' = delete f (functions w)) by done.
    assert (Ha : active w' = active w) by done.
    assert (Hn : next_id w' = next_id w) by done.
    assert (Ht : trace w' = trace w ++ Δ) by (cbn; by rewrite <- !app_assoc).
    assert (Hproto : object_prototype w' = object_prototype w) by done.
    assert (HHo : ∀ g key, f ≠ g → HasOwn w' g key = HasOwn w g key).
    { intros g key Hne. by apply (HasOwn_delete w w' f). }
    assert (HH : ∀ g key, f ≠ g → Has w' g key = Has w g key).
    { intros g key Hne. apply Has_own; auto. }
    assert (HG : Gated w → Gated w').
    { intros G g [fn' Hg] Hnone. rewrite Hf in Hg.
      apply lookup_delete_Some in Hg as [Hne Hg]. rewrite HH by done.
      apply G; [eauto|]. rewrite Hh in Hnone.
      by rewrite ?lookup_delete_ne in Hnone. }
    assert (Hd : ∀ p, destroyed p Δ = if decide (f = p) then [ByFinalizer] else []).
    { intros p. unfold destroyed. cbn. by destruct (decide (f = p)). }
    clearbody w'. exists w', Δ. split; [done|].
    split; constructor.
    + intros g fn' Hg. rewrite Hf in Hg. apply lookup_delete_Some in Hg as [Hne Hg].
      destruct (wf_fun _ Hwf _ _ Hg) as (? & ? & ? & ? & ? & ?).
      rewrite Hn, He, Ho, Hc, !lookup_delete_ne by done. done.
    + intros p hd' Hp. rewrite Hh in Hp. apply lookup_delete_Some in Hp as [Hne Hp].
      destruct (wf_heap _ Hwf _ _ Hp) as (? & ? & ?).
      rewrite Hk, Hf, !lookup_delete_ne by done. done.
    + intros e p Hp. rewrite Hk in Hp. apply lookup_delete_Some in Hp as [Hne Hp].
      destruct (wf_weak _ Hwf _ _ Hp) as (-> & ?).
      rewrite Hh, lookup_delete_ne by done. done.
    + intros g Hg Hnone. rewrite Hf in Hg. rewrite Hh in Hnone.
      destruct Hg as [fn' Hg]. apply lookup_delete_Some in Hg as [Hne Hg].
      rewrite lookup_delete_ne in Hnone by done.
      rewrite HHo by done. apply (wf_dead _ Hwf); eauto.
    + intros g Hg. rewrite Ha in Hg. rewrite Hf.
      destruct (wf_active _ Hwf _ Hg) as [fn' Hg'].
      exists fn'. rewrite lookup_delete_ne; [done|]. by intros ->.
    + intros r o Hr. rewrite Ho in Hr. apply lookup_delete_Some in Hr as [_ Hr].
      by apply (wf_keys _ Hwf r).
    + eapply wf_destroyed_step; eauto.
    + rewrite Ht. unfold Δ.
      change (trace w ++ _) with
        (trace w ++ [EvFinalizer f] ++ [EvClearWeak f] ++ [EvReset f]
           ++ [EvDestroy ByFinalizer f] ++ [EvReclaim f]).
      rewrite !app_assoc. apply detached_app_quiet; [|by repeat constructor].
      apply detached_app_destroy.
      apply detached_app_quiet; [|by repeat constructor].
      apply (wf_detached _ Hwf).
    + rewrite Ht, Hc, templates_app, (wf_templates _ Hwf). cbn. by rewrite app_nil_r.
    + rewrite Hc, Hn. apply (wf_lazy _ Hwf).
    + done.
    + done.
    + done.
    + lia.
    + intros t. by rewrite Hc.
    + intros g fn' _ Hg. rewrite Hf in Hg. by apply lookup_delete_Some in Hg as [_ Hg].
    + intros p hd' _ Hp. rewrite Hh in Hp. by apply lookup_delete_Some in Hp as [_ Hp].
    + intros g _ [fn' Hg]. rewrite Hf in Hg. apply lookup_delete_Some in Hg as [Hne Hg].
      rewrite !HHo by done. auto.
    + intros g Hg _. rewrite Hh. rewrite lookup_delete_ne; [done|]. by intros ->.
    + intros g _ _. split; [done|]. rewrite Hd.
      destruct (decide (f = g)); [|apply not_elem_of_nil].
      by intros [=]%list_elem_of_singleton.
    + done.
    + intros g _ Hg. rewrite Hd. rewrite decide_False; [done|]. intros ->. congruence.
    + constructor.
    + intros g _ [fn' Hg] Hcg _. rewrite Hf in Hg.
      apply lookup_delete_Some in Hg as [Hne Hg]. by rewrite HH.
    + exact HG.
  - assert (Hdead : heap w !! f = None).
    { destruct (heap w !! f) as [hd|] eqn:Hhd; [|done].
      destruct (wf_heap _ Hwf _ _ Hhd) as (_ & ? & _). congruence. }
    cbn [mbind option_bind].
    match goal with |- ∃ w' Δ, Some ?x = _ ∧ _ => set (w' := x) end.
    assert (Hh : heap w' = heap w) by done.
    assert (Hc : g_call_translater w' = g_call_translater w) by done.
    assert (He : externals w' = delete f (externals w)) by done.
    assert (Hk : weak w' = weak w) by done.
    assert (Ho : objects w' = delete f (objects w)) by done.
    assert (Hf : functions w' = delete f (functions w)) by done.
    assert (Ha : active w' = active w) by done.
    assert (Hn : next_id w' = next_id w) by done.
    assert (Ht : trace w' = trace w ++ [EvReclaim f]) by done.
    assert (Hproto : object_prototype w' = object_prototype w) by done.
    assert (HHo : ∀ g key, f ≠ g → HasOwn w' g key = HasOwn w g key).
    { intros g key Hne. by apply (HasOwn_delete w w' f). }
    assert (HH : ∀ g key, f ≠ g → Has w' g key = Has w g key).
    { intros g key Hne. apply Has_own; auto. }
    assert (HG : Gated w → Gated w').
    { intros G g [fn' Hg] Hnone. rewrite Hf in Hg.
      apply lookup_delete_Some in Hg as [Hne Hg]. rewrite HH by done.
      apply G; [eauto|]. rewrite Hh in Hnone.
      by rewrite ?lookup_delete_ne in Hnone. }
    clearbody w'. exists w', [EvReclaim f]. split; [done|].
    split; constructor.
    + intros g fn' Hg. rewrite Hf in Hg. apply lookup_delete_Some in Hg as [Hne Hg].
      destruct (wf_fun _ Hwf _ _ Hg) as (? & ? & ? & ? & ? & ?).
      rewrite Hn, He, Ho, Hc, !lookup_delete_ne by done. done.
    + intros p hd' Hp. rewrite Hh in Hp.
      destruct (wf_heap _ Hwf _ _ Hp) as (? & ? & ?).
      rewrite Hk, Hf, lookup_delete_ne; [done|]. intros ->. congruence.
    + intros e p Hp. rewrite Hk in Hp. rewrite Hh. by apply (wf_weak _ Hwf).
    + intros g Hg Hnone. rewrite Hf in Hg. rewrite Hh in Hnone.
      destruct Hg as [fn' Hg]. apply lookup_delete_Some in Hg as [Hne Hg].
      rewrite HHo by done. apply (wf_dead _ Hwf); eauto.
    + intros g Hg. rewrite Ha in Hg. rewrite Hf.
      destruct (wf_active _ Hwf _ Hg) as [fn' Hg'].
      exists fn'. rewrite lookup_delete_ne; [done|]. by intros ->.
    + intros r o Hr. rewrite Ho in Hr. apply lookup_delete_Some in Hr as [_ Hr].
      by apply (wf_keys _ Hwf r).
    + intros p. rewrite Ht, Hn, Hh, destroyed_app, length_app. cbn.
      rewrite Nat.add_0_r. apply (wf_destroyed _ Hwf).
    + rewrite Ht. apply detached_app_quiet; [|by repeat constructor].
      apply (wf_detached _ Hwf).
    + rewrite Ht, Hc, templates_app, (wf_templates _ Hwf). cbn. by rewrite app_nil_r.
    + rewrite Hc, Hn. apply (wf_lazy _ Hwf).
    + done.
    + done.
    + done.
    + lia.
    + intros t. by rewrite Hc.
    + intros g fn' _ Hg. rewrite Hf in Hg. by apply lookup_delete_Some in Hg as [_ Hg].
    + intros p hd' _ Hp. by rewrite Hh in Hp.
    + intros g _ [fn' Hg]. rewrite Hf in Hg. apply lookup_delete_Some in Hg as [Hne Hg].
      rewrite !HHo by done. auto.
    + intros g _ _. by rewrite Hh.
    + intros g _ _. split; [done|]. cbn. set_solver.
    + done.
    + done.
    + constructor.
    + intros g _ [fn' Hg] Hcg _. rewrite Hf in Hg.
      apply lookup_delete_Some in Hg as [Hne Hg]. by rewrite HH.
    + exact HG.
Qed.

Lemma calm_readers Δ :
  Forall calm Δ → (∀ p, destroyed p Δ = []) ∧ templates Δ = [].
Proof.
  induction 1 as [|ev Δ Hq _ [H1 H2]]; [done|].
  destruct ev; try done; cbn; auto.
Qed.

Lemma detached_app_calm tr Δ :
  detached_before_destroy tr → Forall calm Δ →
  detached_before_destroy (tr ++ Δ).
Proof.
  intros Hd Hq. apply detached_app_free; [done|].
  intros path p Hin. rewrite Forall_forall in Hq. by apply Hq in Hin.
Qed.

Lemma wf_step w w' Δ :
  WF w →
  heap w' = heap w → g_call_translater w' = g_call_translater w →
  externals w' = externals w → weak w' = weak w →
  functions w' = functions w → next_id w' = next_id w →
  (∀ g, g ∈ active w' → is_Some (functions w !! g)) →
  (∀ r, is_Some (objects w !! r) → is_Some (objects w' !! r)) →
  (∀ g key, HasOwn w g key = Some true → HasOwn w' g key = Some true) →
  (∀ r o, objects w' !! r = Some o →
     dom o ⊆ key_set ∧ (∀ k v, o !! k = Some v → v = VBool true)) →
  trace w' = trace w ++ Δ → Forall calm Δ →
  WF w'.
Proof.
  intros Hwf Hh Hc He Hk Hf Hn Ha Ho HH Hkeys Ht Hq.
  destruct (calm_readers _ Hq) as [Hr1 Hr2].
  constructor.
  - intros f fn Hfn. rewrite Hf in Hfn.
    destruct (wf_fun _ Hwf _ _ Hfn) as (? & ? & ? & ? & ? & ?).
    rewrite Hn, He, Hc. auto 10.
  - intros p hd Hp. rewrite Hh in Hp. rewrite Hk, Hf. by apply (wf_heap _ Hwf).
  - intros e p Hp. rewrite Hk in Hp. rewrite Hh. by apply (wf_weak _ Hwf).
  - intros f Hfn Hnone. rewrite Hf in Hfn. rewrite Hh in Hnone.
    apply HH. by apply (wf_dead _ Hwf).
  - intros f Hact. rewrite Hf. auto.
  - done.
  - intros p. rewrite Ht, Hn, Hh, destroyed_app, length_app, Hr1. cbn.
    rewrite Nat.add_0_r. apply (wf_destroyed _ Hwf).
  - rewrite Ht. apply detached_app_calm; [apply (wf_detached _ Hwf)|done].
  - rewrite Ht, Hc, templates_app, Hr2, app_nil_r. apply (wf_templates _ Hwf).
  - rewrite Hc, Hn. apply (wf_lazy _ Hwf).
Qed.

Lemma wf_calm w w' Δ :
  WF w →
  heap w' = heap w → g_call_translater w' = g_call_translater w →
  externals w' = externals w → weak w' = weak w → objects w' = objects w →
  functions w' = functions w → next_id w' = next_id w →
  (∀ g, g ∈ active w' → g ∈ active w) →
  trace w' = trace w ++ Δ → Forall calm Δ →
  WF w'.
Proof.
  intros Hwf Hh Hc He Hk Ho Hf Hn Ha Ht Hq.
  eapply wf_step; eauto.
  - intros g Hg. by apply (wf_active _ Hwf), Ha.
  - intros r. by rewrite Ho.
  - intros g key. by rewrite (HasOwn_objects w w').
  - intros r o. rewrite Ho. apply (wf_keys _ Hwf).
Qed.

Lemma elem_of_tail (g : nat) (l : list nat) : g ∈ tail l → g ∈ l.
Proof. destruct l; cbn; [done|]. intros ?. apply elem_of_cons. auto. Qed.

Lemma delete_holder_live path p w hd :
  heap w !! p = Some hd → handle hd = Some p →
  delete_holder path p w =
  Some (emit (EvDestroy path p)
         (set_heap (delete p (heap w))
           (emit (EvReset p)
             (emit (EvClearWeak p) (set_weak (delete p (weak w)) w))))).
Proof. intros Hp Hh. unfold delete_holder. rewrite Hp. cbn. by rewrite Hh. Qed.

(** The one-shot delete keeps the state well formed, the record being
    marked as called. *)
Lemma wf_one_shot_delete w w' f hd :
  WF w → heap w !! f = Some hd →
  HasOwn w f "called" = Some true →
  delete_holder ByOneShot f w = Some w' →
  WF w'.
Proof.
  intros Hwf Hhd Hcalled Hdel.
  destruct (wf_heap _ Hwf _ _ Hhd) as (Hhandle & _ & _).
  rewrite (delete_holder_live _ _ _ _ Hhd Hhandle) in Hdel.
  injection Hdel as <-.
  match goal with |- WF ?x => set (w' := x) end.
  set (Δ := [EvClearWeak f; EvReset f; EvDestroy ByOneShot f]).
  assert (Hh : heap w' = delete f (heap w)) by done.
  assert (Hk : weak w' = delete f (weak w)) by done.
  assert (Ho : objects w' = objects w) by done.
  assert (Hf : functions w' = functions w) by done.
  assert (Ht : trace w' = trace w ++ Δ) by (cbn; by rewrite <- !app_assoc).
  assert (HH : ∀ g key, HasOwn w' g key = HasOwn w g key) by done.
  constructor.
  - intros g fn Hg. by apply (wf_fun _ Hwf).
  - intros p hd' Hp. rewrite Hh in Hp. apply lookup_delete_Some in Hp as [Hne Hp].
    destruct (wf_heap _ Hwf _ _ Hp) as (? & ? & ?).
    rewrite Hk, Hf, lookup_delete_ne by done. done.
  - intros e p Hp. rewrite Hk in Hp. apply lookup_delete_Some in Hp as [Hne Hp].
    destruct (wf_weak _ Hwf _ _ Hp) as (-> & ?).
    rewrite Hh, lookup_delete_ne by done. done.
  - intros g Hg Hnone. rewrite Hh in Hnone. rewrite !HH.
    destruct (decide (f = g)) as [<-|Hne]; [done|].
    rewrite lookup_delete_ne in Hnone by done. by apply (wf_dead _ Hwf).
  - intros g Hg. by apply (wf_active _ Hwf).
  - intros r o Hr. by apply (wf_keys _ Hwf r).
  - eapply wf_destroyed_step; eauto.
    intros p. unfold destroyed, Δ. cbn. by destruct (decide (f = p)).
  - rewrite Ht. unfold Δ.
    change (trace w ++ _) with
      (trace w ++ [EvClearWeak f] ++ [EvReset f] ++ [EvDestroy ByOneShot f]).
    rewrite !app_assoc. apply detached_app_destroy, (wf_detached _ Hwf).
  - rewrite Ht, templates_app, (wf_templates _ Hwf). cbn. by rewrite app_nil_r.
  - apply (wf_lazy _ Hwf).
Qed.

Lemma pre_events_readers b l f args g :
  run_args g (pre_events b l f args) = (if decide (f = g) then [args] else [])
  ∧ invoke_args g (pre_events b l f args) = (if decide (f = g) then [args] else [])
  ∧ invoke_levels (pre_events b l f args) = [l]
  ∧ destroyed g (pre_events b l f args) = []
  ∧ Forall calm (pre_events b l f args).
Proof.
  unfold run_args, invoke_args, invoke_levels, destroyed.
  destruct b; cbn; destruct (decide (f = g)); repeat split; repeat constructor.
Qed.

Lemma post_events_readers b f g :
  run_args g (post_events b f) = []
  ∧ invoke_args g (post_events b f) = []
  ∧ invoke_levels (post_events b f) = []
  ∧ destroyed g (post_events b f) =
      (if b then if decide (f = g) then [ByOneShot] else [] else []).
Proof.
  unfold run_args, invoke_args, invoke_levels, destroyed.
  destruct b; cbn; destruct (decide (f = g)); repeat split.
Qed.

Lemma HasOwn_Some w f key : is_Some (objects w !! f) → is_Some (HasOwn w f key).
Proof. intros [o Ho]. unfold HasOwn. rewrite Ho. cbn. eauto. Qed.

Lemma Has_is_Some w f key : is_Some (objects w !! f) → is_Some (Has w f key).
Proof.
  intros Ho. destruct (HasOwn_Some w f key Ho) as [b Hb].
  unfold Has. rewrite Hb. cbn. eauto.
Qed.

(** A callable whose gate is open has its holder, where no freed holder
    stands behind an open gate. *)
Lemma live_unless_called w f fn :
  WF w → Gated w → functions w !! f = Some fn →
  Has w f "oneTime" = Some false ∨ Has w f "called" = Some false →
  is_Some (heap w !! f).
Proof.
  intros Hwf G Hfn Hcond.
  destruct (heap w !! f) as [hd|] eqn:Hhd; [eauto|].
  pose proof (G f (ex_intro _ fn Hfn) Hhd) as H1.
  pose proof (HasOwn_Has _ _ _ (wf_dead _ Hwf f (ex_intro _ fn Hfn) Hhd)) as H2.
  destruct Hcond; congruence.
Qed.

Lemma at_run_fields b f args w o :
  objects w !! f = Some o →
  heap (at_run b f args w) = heap w
  ∧ g_call_translater (at_run b f args w) = g_call_translater w
  ∧ externals (at_run b f args w) = externals w
  ∧ weak (at_run b f args w) = weak w
  ∧ functions (at_run b f args w) = functions w
  ∧ next_id (at_run b f args w) = next_id w
  ∧ active (at_run b f args w) = f :: active w
  ∧ native_log (at_run b f args w) = native_log w
  ∧ pending_exception (at_run b f args w) = pending_exception w
  ∧ trace (at_run b f args w)
    = trace w ++ pre_events b (length (active w)) f args
  ∧ objects (at_run b f args w)
    = if b then <[f := <["called" := VBool true]> o]> (objects w)
      else objects w.
Proof.
  intros Ho. unfold at_run, marked, Set_, entered, pre_events, StringToSymbol.
  destruct b; cbn; rewrite ?Ho; cbn; rewrite <- ?app_assoc; repeat split.
Qed.

Lemma at_run_proto b f args w :
  object_prototype (at_run b f args w) = object_prototype w.
Proof.
  unfold at_run, marked, Set_, entered. destruct b; [|done]. cbn.
  by destruct (objects w !! f).
Qed.

Lemma HasOwn_at_run_other b f args w o g key :
  objects w !! f = Some o → g ≠ f →
  HasOwn (at_run b f args w) g key = HasOwn w g key.
Proof.
  intros Ho Hne. unfold HasOwn.
  destruct (at_run_fields b f args w o Ho) as (_&_&_&_&_&_&_&_&_&_&->).
  destruct b; [|done]. by rewrite lookup_insert_ne.
Qed.

Lemma HasOwn_at_run_one_time b f args w o :
  objects w !! f = Some o →
  HasOwn (at_run b f args w) f "oneTime" = HasOwn w f "oneTime".
Proof.
  intros Ho. unfold HasOwn.
  destruct (at_run_fields b f args w o Ho) as (_&_&_&_&_&_&_&_&_&_&->).
  destruct b; [|done]. rewrite lookup_insert_eq, Ho. cbn.
  by rewrite lookup_insert_ne.
Qed.

Lemma HasOwn_at_run_called f args w o :
  objects w !! f = Some o →
  HasOwn (at_run true f args w) f "called" = Some true.
Proof.
  intros Ho. unfold HasOwn.
  destruct (at_run_fields true f args w o Ho) as (_&_&_&_&_&_&_&_&_&_&->).
  rewrite lookup_insert_eq. cbn. by rewrite lookup_insert_eq.
Qed.

Lemma HasOwn_at_run_mono b f args w o g key :
  objects w !! f = Some o →
  HasOwn w g key = Some true → HasOwn (at_run b f args w) g key = Some true.
Proof.
  intros Ho Hg. destruct (decide (g = f)) as [->|Hne].
  - unfold HasOwn in *.
    destruct (at_run_fields b f args w o Ho) as (_&_&_&_&_&_&_&_&_&_&->).
    destruct b; [|done]. rewrite lookup_insert_eq. rewrite Ho in Hg. cbn in *.
    injection Hg as Hg%bool_decide_eq_true. f_equal. apply bool_decide_eq_true.
    destruct (decide (key = "called")) as [->|Hk].
    + rewrite lookup_insert_eq. eauto.
    + by rewrite lookup_insert_ne.
  - by rewrite (HasOwn_at_run_other b f args w o g key Ho Hne).
Qed.

Lemma Has_at_run_other b f args w o g key :
  objects w !! f = Some o → g ≠ f →
  Has (at_run b f args w) g key = Has w g key.
Proof.
  intros Ho Hne. apply Has_own; [apply at_run_proto|].
  by apply (HasOwn_at_run_other b f args w o).
Qed.

Lemma Has_at_run_one_time b f args w o :
  objects w !! f = Some o →
  Has (at_run b f args w) f "oneTime" = Has w f "oneTime".
Proof.
  intros Ho. apply Has_own; [apply at_run_proto|].
  by apply (HasOwn_at_run_one_time b f args w o).
Qed.

Lemma Has_at_run_called f args w o :
  objects w !! f = Some o →
  Has (at_run true f args w) f "called" = Some true.
Proof. intros Ho. by apply HasOwn_Has, (HasOwn_at_run_called f args w o). Qed.

Lemma objects_at_run b f args w o r :
  objects w !! f = Some o → is_Some (objects w !! r) →
  is_Some (objects (at_run b f args w) !! r).
Proof.
  intros Ho Hr.
  destruct (at_run_fields b f args w o Ho) as (_&_&_&_&_&_&_&_&_&_&->).
  destruct b; [|done]. destruct (decide (r = f)) as [->|Hne].
  - rewrite lookup_insert_eq. eauto.
  - by rewrite lookup_insert_ne.
Qed.

Lemma Has_at_run_mono b f args w o g key :
  objects w !! f = Some o →
  Has w g key = Some true → Has (at_run b f args w) g key = Some true.
Proof.
  intros Ho Hg. apply (Has_mono w); try done.
  - apply at_run_proto.
  - destruct (Has_cases _ _ _ _ Hg) as (own & Hown & _).
    apply HasOwn_Some, (objects_at_run b f args w o); [done|].
    unfold HasOwn in Hown. destruct (objects w !! g); [eauto|done].
  - by apply (HasOwn_at_run_mono b f args w o).
Qed.

Lemma Gated_at_run b f args w o :
  objects w !! f = Some o → Gated w → Gated (at_run b f args w).
Proof.
  intros Ho G g.
  destruct (at_run_fields b f args w o Ho) as (->&_&_&_&->&_).
  intros Hg Hnone. destruct (decide (g = f)) as [->|Hne].
  - rewrite (Has_at_run_one_time b f args w o Ho). by apply G.
  - rewrite (Has_at_run_other b f args w o g "oneTime" Ho Hne). by apply G.
Qed.

Lemma wf_at_run b f args w fn :
  WF w → functions w !! f = Some fn → WF (at_run b f args w).
Proof.
  intros Hwf Hfn.
  destruct (wf_fun _ Hwf _ _ Hfn) as (_ & _ & _ & _ & [o Ho] & _).
  destruct (at_run_fields b f args w o Ho)
    as (Hh&Hc&He&Hk&Hf&Hn&Ha&_&_&Ht&Hobj).
  destruct (pre_events_readers b (length (active w)) f args 0) as (_&_&_&_&Hq).
  eapply wf_step; eauto.
  - intros g. rewrite Ha. intros [->|Hg]%elem_of_cons; [eauto|].
    by apply (wf_active _ Hwf).
  - intros r Hr. by apply (objects_at_run b f args w o).
  - intros g key. by apply (HasOwn_at_run_mono b f args w o).
  - intros r o'. rewrite Hobj. destruct b; [|apply (wf_keys _ Hwf)].
    destruct (decide (r = f)) as [->|Hne].
    + rewrite lookup_insert_eq. intros [= <-].
      destruct (wf_keys _ Hwf f o Ho) as (Hdom & Hval).
      split.
      * rewrite dom_insert. intros k [->%elem_of_singleton|Hin]%elem_of_union;
          [|by apply Hdom].
        apply elem_of_union. right. by apply elem_of_singleton.
      * intros k v. destruct (decide (k = "called")) as [->|Hkey].
        -- rewrite lookup_insert_eq. by intros [= <-].
        -- rewrite lookup_insert_ne by done. apply Hval.
    + rewrite lookup_insert_ne by done. apply (wf_keys _ Hwf).
Qed.

Lemma finished_fields b f w hd :
  heap w !! f = Some hd → handle hd = Some f →
  ∃ w', finished b f w = Some w'
    ∧ heap w' = (if b then delete f (heap w) else heap w)
    ∧ weak w' = (if b then delete f (weak w) else weak w)
    ∧ g_call_translater w' = g_call_translater w
    ∧ externals w' = externals w
    ∧ objects w' = objects w
    ∧ functions w' = functions w
    ∧ next_id w' = next_id w
    ∧ active w' = tail (active w)
    ∧ native_log w' = native_log w
    ∧ pending_exception w' = pending_exception w
    ∧ trace w' = trace w ++ post_events b f.
Proof.
  intros Hhd Hhandle. unfold finished, post_events. destruct b.
  - rewrite (delete_holder_live ByOneShot f (emit (EvRunEnd f) w) hd) by done.
    cbn. eexists. split; [done|]. cbn. rewrite <- !app_assoc. repeat split.
  - cbn. eexists. split; [done|]. cbn. rewrite <- !app_assoc. repeat split.
Qed.

Section Dispatch.

Variable script_call : nat → list Value → World → option World.

(** The call of a callable whose one-shot gate is open (not one-shot, or
    not yet called) runs the callback of its holder. *)
Lemma dispatch_run f args w fn hd b :
  functions w !! f = Some fn →
  bound_external fn = f → bound_state fn = f →
  Has w f "oneTime" = Some b →
  (b = true → Has w f "called" = Some false) →
  externals w !! f = Some f → heap w !! f = Some hd →
  dispatch (CallTranslater script_call) f args w =
  (w1 ← Run script_call (translater hd) args (at_run b f args w);
   finished b f w1).
Proof.
  intros Hfn He Hs Hone Hcalled Hext Hhd.
  assert (∃ o, objects w !! f = Some o) as [o Ho].
  { destruct (Has_cases _ _ _ _ Hone) as (own & Hown & _).
    unfold HasOwn in Hown. destruct (objects w !! f); [eauto|done]. }
  unfold dispatch. rewrite Hfn, He, Hs.
  unfold CallTranslater, at_run, marked, finished, StringToSymbol.
  change (Has (set_active _ (emit _ w)) f) with (Has w f).
  rewrite Hone. change (entered f args w) with
    (set_active (f :: active w) (emit (EvInvoke (length (active w)) f args) w)).
  destruct b.
  - rewrite Hcalled by done.
    unfold Set_. cbn [objects set_active emit]. rewrite Ho. cbn.
    rewrite Hext. cbn. rewrite Hhd. cbn.
    destruct (Run _ _ _ _); done.
  - cbn. rewrite Hext. cbn. rewrite Hhd. cbn.
    destruct (Run _ _ _ _); done.
Qed.

(** With the gate open and the holder freed, the trampoline dereferences
    freed memory. *)
Lemma dispatch_dead f args w fn b :
  functions w !! f = Some fn →
  bound_external fn = f → bound_state fn = f →
  Has w f "oneTime" = Some b →
  (b = true → Has w f "called" = Some false) →
  externals w !! f = Some f → heap w !! f = None →
  dispatch (CallTranslater script_call) f args w = None.
Proof.
  intros Hfn He Hs Hone Hcalled Hext Hhd.
  assert (∃ o, objects w !! f = Some o) as [o Ho].
  { destruct (Has_cases _ _ _ _ Hone) as (own & Hown & _).
    unfold HasOwn in Hown. destruct (objects w !! f); [eauto|done]. }
  unfold dispatch. rewrite Hfn, He, Hs.
  unfold CallTranslater, StringToSymbol.
  change (Has (set_active _ (emit _ w)) f) with (Has w f).
  rewrite Hone.
  destruct b.
  - rewrite Hcalled by done.
    unfold Set_. cbn [objects set_active emit]. rewrite Ho. cbn.
    rewrite Hext. cbn. by rewrite Hhd.
  - cbn. rewrite Hext. cbn. by rewrite Hhd.
Qed.

(** The call of a one-shot callable whose marker is set. *)
Lemma dispatch_throw f args w fn :
  functions w !! f = Some fn →
  Has w (bound_state fn) "oneTime" = Some true →
  Has w (bound_state fn) "called" = Some true →
  dispatch (CallTranslater script_call) f args w =
  Some (emit (EvReturn f)
         (set_active (active w)
           (ThrowError already_called_message (entered f args w)))).
Proof.
  intros Hfn Hone Hcalled. unfold dispatch. rewrite Hfn.
  unfold CallTranslater, StringToSymbol.
  change (Has (set_active _ (emit _ w))) with (Has w).
  by rewrite Hone, Hcalled.
Qed.

End Dispatch.

(** ** Safety of the trampoline *)

Lemma finished_proto b f w w' :
  finished b f w = Some w' → object_prototype w' = object_prototype w.
Proof.
  unfold finished, delete_holder. destruct b; cbn.
  - destruct (heap w !! f) as [hd|]; [|done]. cbn.
    destruct (handle hd); by intros [= <-].
  - by intros [= <-].
Qed.

Lemma pre_bind (c k : World → option World) w :
  Gated w ∨ is_Some (w1 ← c w; k w1) → Gated w ∨ is_Some (c w).
Proof.
  intros [G|S]; [by left|right]. destruct (c w); [eauto|by destruct S].
Qed.

Lemma pre_next (c k : World → option World) w w1 Δ :
  Gated w ∨ is_Some (w1 ← c w; k w1) → c w = Some w1 → Ext w Δ w1 →
  Gated w1 ∨ is_Some (k w1).
Proof.
  intros [G|S] Hc E; [left; by apply (ext_gated _ _ _ E)|right].
  by rewrite Hc in S.
Qed.

Section TrampolineSafe.

Variable script_call : nat → list Value → World → option World.
Hypothesis script_call_safe : ∀ f argv, safe (script_call f argv).

Lemma exec_op_safe args op : safe (exec_op script_call args op).
Proof.
  intros w Hwf Hpre. destruct op; cbn.
  - exists (set_native_log (native_log w ++ [args]) w), [].
    split; [done|]. apply quiet_step; try done. cbn. by rewrite app_nil_r.
  - exists (ThrowError msg w), [EvThrow msg].
    split; [done|]. apply quiet_step; try done. by repeat constructor.
  - by apply script_call_safe.
  - by apply collect_safe.
Qed.

Lemma Run_safe tr args : safe (Run script_call tr args).
Proof.
  induction tr as [|op tr IH]; intros w Hwf Hpre; cbn.
  - eauto using Ext_refl.
  - cbn in Hpre.
    destruct (exec_op_safe args op w Hwf (pre_bind _ _ _ Hpre))
      as (w1 & Δ1 & Hop & Hwf1 & E1).
    pose proof (pre_next _ _ _ _ _ Hpre Hop E1) as Hpre1.
    rewrite Hop. cbn.
    destruct (IH w1 Hwf1 Hpre1) as (w2 & Δ2 & -> & Hwf2 & E2).
    exists w2, (Δ1 ++ Δ2). eauto using Ext_trans.
Qed.

Lemma dispatch_open f args w fn b :
  WF w → functions w !! f = Some fn →
  Has w f "oneTime" = Some b →
  (b = true → Has w f "called" = Some false) →
  Gated w ∨ is_Some (dispatch (CallTranslater script_call) f args w) →
  ∃ hd w1 Δ1 w',
    heap w !! f = Some hd
    ∧ WF (at_run b f args w)
    ∧ Run script_call (translater hd) args (at_run b f args w) = Some w1
    ∧ WF w1 ∧ Ext (at_run b f args w) Δ1 w1
    ∧ heap w1 !! f = Some hd
    ∧ finished b f w1 = Some w'
    ∧ dispatch (CallTranslater script_call) f args w = Some w'
    ∧ WF w'
    ∧ Ext w (pre_events b (length (active w)) f args ++ Δ1 ++ post_events b f) w'.
Proof.
  intros Hwf Hfn Hone Hcalled Hpre.
  destruct (wf_fun _ Hwf _ _ Hfn) as (Hlt & Hbe & Hbs & Hext & [o Ho] & Hcache).
  assert (∃ hd, heap w !! f = Some hd) as [hd Hhd].
  { destruct (heap w !! f) as [hd|] eqn:Hhd; [eauto|].
    destruct Hpre as [G|S].
    - destruct (live_unless_called w f fn Hwf G Hfn) as [hd Hhd']; [|congruence].
      destruct b; [right; auto|left; done].
    - rewrite (dispatch_dead script_call f args w fn b) in S by done.
      by destruct S. }
  destruct (wf_heap _ Hwf _ _ Hhd) as (Hhandle & _ & _).
  pose proof (wf_at_run b f args w fn Hwf Hfn) as Hwfa.
  destruct (at_run_fields b f args w o Ho)
    as (Hh&Hc&He&Hk&Hf&Hn&Ha&_&_&Ht&Hobj).
  pose proof (at_run_proto b f args w) as Hpa.
  pose proof (Has_at_run_other b f args w o) as HHo.
  pose proof (Has_at_run_one_time b f args w o Ho) as HH1.
  pose proof (Has_at_run_mono b f args w o) as HHm.
  pose proof (dispatch_run script_call f args w fn hd b Hfn Hbe Hbs Hone Hcalled
                Hext Hhd) as Hdr.
  set (wa := at_run b f args w) in *.
  assert (Hprea : Gated wa ∨ is_Some (Run script_call (translater hd) args wa)).
  { destruct Hpre as [G|S]; [left; by apply (Gated_at_run b f args w o)|right].
    rewrite Hdr in S.
    destruct (Run script_call (translater hd) args wa); [eauto|by destruct S]. }
  destruct (Run_safe (translater hd) args wa Hwfa Hprea)
    as (w1 & Δ1 & Hrun & Hwf1 & E).
  assert (Hfa : f ∈ active wa) by (rewrite Ha; apply elem_of_cons; auto).
  assert (Hf1 : is_Some (functions w1 !! f)).
  { apply (wf_active _ Hwf1). by rewrite (ext_active _ _ _ E). }
  assert (Hfa' : is_Some (functions wa !! f)) by (rewrite Hf; eauto).
  assert (Hgate : Has wa f "oneTime" = Some false ∨ Has wa f "called" = Some true).
  { destruct b; [right; by apply (Has_at_run_called f args w o)|left; congruence]. }
  assert (Hhd1 : heap w1 !! f = Some hd).
  { rewrite (ext_keep _ _ _ E f Hfa Hgate). by rewrite Hh. }
  destruct (finished_fields b f w1 hd Hhd1 Hhandle)
    as (w' & Hfin & Hh' & Hk' & Hc' & He' & Ho' & Hf' & Hn' & Ha' & _ & _ & Ht').
  pose proof (finished_proto b f w1 w' Hfin) as Hp'.
  assert (HH' : ∀ g key, Has w' g key = Has w1 g key).
  { intros. by apply Has_objects. }
  assert (HHo' : ∀ g key, HasOwn w' g key = HasOwn w1 g key).
  { intros. by apply HasOwn_objects. }
  exists hd, w1, Δ1, w'.
  split; [done|]. split; [done|]. split; [done|]. split; [done|].
  split; [done|]. split; [done|]. split; [done|]. split.
  { rewrite Hdr, Hrun. done. }
  destruct (ext_rec _ _ _ E f Hfa' Hf1) as [Hr1 Hr2].
  destruct (ext_own _ _ _ E f Hfa' Hf1) as [Hq1 Hq2].
  assert (Hwf' : WF w').
  { destruct b.
    - unfold finished in Hfin.
      destruct (delete_holder ByOneShot f (emit (EvRunEnd f) w1))
        as [w3|] eqn:Hdel; [|done].
      cbn in Hfin. injection Hfin as <-.
      assert (Hwf2 : WF (emit (EvRunEnd f) w1)).
      { apply (wf_calm w1 _ [EvRunEnd f]); try done. by repeat constructor. }
      assert (Hwf3 : WF w3).
      { eapply wf_one_shot_delete; [exact Hwf2|exact Hhd1| |exact Hdel].
        change (HasOwn (emit _ w1)) with (HasOwn w1). apply Hq2.
        by apply (HasOwn_at_run_called f args w o). }
      apply (wf_calm w3 _ [EvReturn f]); try done.
      + intros g. apply elem_of_tail.
      + by repeat constructor.
    - apply (wf_calm w1 _ (post_events false f)); try done.
      + intros g. rewrite Ha'. apply elem_of_tail.
      + by repeat constructor. }
  split; [done|].
  assert (Hact' : active w' = active w).
  { by rewrite Ha', (ext_active _ _ _ E), Ha. }
  assert (Hsub : ∀ p hd', heap w' !! p = Some hd' → heap w1 !! p = Some hd').
  { intros p hd'. rewrite Hh'. destruct b; [|done].
    by intros [_ ?]%lookup_delete_Some. }
  assert (Hopen : ∀ g, Has w g "oneTime" = Some false ∨ Has w g "called" = Some true →
            (b = true → g ≠ f)
            ∧ (Has wa g "oneTime" = Some false ∨ Has wa g "called" = Some true)).
  { intros g Hg. split.
    - intros -> ->. rewrite Hcalled in Hg by done. destruct Hg; congruence.
    - destruct Hg as [Hg|Hg]; [|right; by apply HHm].
      left. destruct (decide (g = f)) as [->|Hne]; [congruence|].
      by rewrite HHo. }
  constructor.
  - rewrite Ht', (ext_trace _ _ _ E), Ht. by rewrite <- !app_assoc.
  - done.
  - by rewrite Hp', (ext_proto _ _ _ E).
  - rewrite Hn'. pose proof (ext_next _ _ _ E). lia.
  - intros t Hcw. rewrite Hc'. apply (ext_cache _ _ _ E). by rewrite Hc.
  - intros g fn' Hg. rewrite Hf'. intros Hg'.
    rewrite <- Hf. apply (ext_fun _ _ _ E); [by rewrite Hn|done].
  - intros p hd' Hp Hp''. rewrite <- Hh.
    apply (ext_heap _ _ _ E); [by rewrite Hn|auto].
  - intros g Hg Hg'. rewrite !HHo'.
    rewrite Hf' in Hg'. rewrite <- Hf in Hg.
    destruct (ext_own _ _ _ E g Hg Hg') as [Hx Hy].
    split.
    + rewrite Hx. destruct (decide (g = f)) as [->|Hne].
      * by apply (HasOwn_at_run_one_time b f args w o).
      * by apply (HasOwn_at_run_other b f args w o).
    + intros Hcg. by apply Hy, (HasOwn_at_run_mono b f args w o).
  - intros g Hg Hcond.
    destruct (Hopen g Hcond) as [Hne Hcond'].
    rewrite <- Hh, <- (ext_keep _ _ _ E g); [|rewrite Ha; apply elem_of_cons; auto|done].
    rewrite Hh'. destruct b; [|done]. rewrite lookup_delete_ne; [done|].
    intros <-. by apply Hne.
  - intros g Hg Hgone.
    destruct (Hopen g (or_introl Hgone)) as [Hne Hcond'].
    destruct (pre_events_readers b (length (active w)) f args g) as (P1&P2&_&P4&_).
    destruct (post_events_readers b f g) as (Q1&Q2&_&Q4).
    destruct (ext_repeat _ _ _ E g) as [R1 R2].
    { by rewrite Hf. }
    { destruct (decide (g = f)) as [->|Hgf]; [congruence|by rewrite HHo]. }
    autorewrite with log. rewrite P1, P2, P4, Q1, Q2, Q4, R1.
    split; [done|]. cbn. rewrite elem_of_app. intros [?|Hin]; [done|].
    destruct b; [|by apply elem_of_nil in Hin].
    rewrite decide_False in Hin; [by apply elem_of_nil in Hin|].
    intros <-. by apply Hne.
  - intros g Hg Hog Hcg.
    assert (Hne : g ≠ f).
    { intros ->. rewrite Hone in Hog. injection Hog as ->.
      rewrite Hcalled in Hcg; done. }
    destruct (pre_events_readers b (length (active w)) f args g) as (P1&_).
    destruct (post_events_readers b f g) as (Q1&_).
    autorewrite with log. rewrite P1, Q1, decide_False by done.
    rewrite (ext_once _ _ _ E g);
      [done|by rewrite Hf|by rewrite HHo|by apply HHm].
  - intros g Hg Hnone.
    assert (Hne : f ≠ g) by (intros <-; congruence).
    destruct (pre_events_readers b (length (active w)) f args g) as (P1&P2&_&P4&_).
    destruct (post_events_readers b f g) as (Q1&Q2&_&Q4).
    destruct (ext_gone _ _ _ E g) as (R1&R2&R3);
      [by rewrite Hn|by rewrite Hf|].
    autorewrite with log.
    rewrite P1, P2, P4, Q1, Q2, Q4, R1, R2, R3, !decide_False by done.
    by destruct b.
  - destruct (pre_events_readers b (length (active w)) f args 0) as (_&_&P3&_).
    destruct (post_events_readers b f 0) as (_&_&Q3&_).
    autorewrite with log. rewrite P3, Q3, app_nil_r.
    constructor; [done|].
    eapply Forall_impl; [apply (ext_level _ _ _ E)|].
    intros l. rewrite Ha. cbn. lia.
  - intros g Hg Hg' Hcg Hinv. rewrite HH'.
    rewrite Hf' in Hg'. rewrite <- Hf in Hg.
    destruct (pre_events_readers b (length (active w)) f args g) as (_&P2&_).
    rewrite !invoke_args_app, P2 in Hinv.
    destruct (decide (f = g)) as [->|Hne]; [done|].
    apply app_eq_nil in Hinv as [_ [Hinv _]%app_eq_nil].
    apply (ext_fresh _ _ _ E g Hg Hg'); [|done].
    rewrite HHo; auto.
  - intros G g. rewrite Hf', HH'. intros Hg Hnone.
    pose proof (ext_gated _ _ _ E (Gated_at_run b f args w o Ho G)) as G1.
    destruct (decide (g = f)) as [->|Hne].
    + rewrite Hr1, HH1. destruct b; [done|].
      rewrite Hh' in Hnone. congruence.
    + apply G1; [done|]. rewrite Hh' in Hnone. destruct b; [|done].
      by rewrite lookup_delete_ne in Hnone.
Qed.

End TrampolineSafe.

Lemma throw_safe msg : safe (λ w, Some (ThrowError msg w)).
Proof.
  intros w Hwf. exists (ThrowError msg w), [EvThrow msg].
  split; [done|]. apply quiet_step; try done. by repeat constructor.
Qed.

Lemma already_called_safe f args w fn :
  WF w → functions w !! f = Some fn →
  Has w f "oneTime" = Some true →
  WF (emit (EvReturn f)
       (set_active (active w)
         (ThrowError already_called_message (entered f args w))))
  ∧ Ext w [EvInvoke (length (active w)) f args;
           EvThrow already_called_message; EvReturn f]
      (emit (EvReturn f)
        (set_active (active w)
          (ThrowError already_called_message (entered f args w)))).
Proof.
  intros Hwf Hfn Hone.
  set (Δ := [EvInvoke (length (active w)) f args;
             EvThrow already_called_message; EvReturn f]).
  assert (Hout : ∀ g, g ≠ f → run_args g Δ = [] ∧ invoke_args g Δ = []).
  { intros g Hne. unfold run_args, invoke_args. cbn.
    by rewrite decide_False by done. }
  split.
  - apply (wf_calm w _ Δ); try done.
    + cbn. by rewrite <- !app_assoc.
    + by repeat constructor.
  - constructor; try done.
    + cbn. by rewrite <- !app_assoc.
    + intros g _ Hg. destruct (Hout g) as [-> ->]; [congruence|].
      split; [done|apply not_elem_of_nil].
    + intros g Hlt Hg. destruct (Hout g) as [-> ->]; [congruence|done].
    + by repeat constructor.
Qed.

Lemma dispatch_safe sc f args :
  (∀ g argv, safe (sc g argv)) → safe (dispatch (CallTranslater sc) f args).
Proof.
  intros Hsc w Hwf Hpre.
  destruct (functions w !! f) as [fn|] eqn:Hfn.
  - destruct (wf_fun _ Hwf _ _ Hfn) as (_ & _ & Hbs & _ & Ho & _).
    destruct (Has_is_Some w f "oneTime" Ho) as [b Hone].
    destruct (Has_is_Some w f "called" Ho) as [c Hcalled].
    destruct (bool_decide (b = true ∧ c = true)) eqn:Hcase.
    + apply bool_decide_eq_true in Hcase as [-> ->].
      rewrite (dispatch_throw sc f args w fn) by (by rewrite ?Hbs).
      destruct (already_called_safe f args w fn Hwf Hfn Hone). eauto.
    + apply bool_decide_eq_false in Hcase.
      destruct (dispatch_open sc Hsc f args w fn b Hwf Hfn Hone)
        as (hd & w1 & Δ1 & w' & _ & _ & _ & _ & _ & _ & _ & Hd & Hwf' & E).
      { intros ->. destruct c; [tauto|done]. }
      { done. }
      eauto.
  - unfold dispatch. rewrite Hfn.
    apply (throw_safe not_a_function_message w Hwf). right. eauto.
Qed.

Lemma Call_safe depth : ∀ f args, safe (Call depth f args).
Proof.
  induction depth as [|d IH]; intros f args; cbn.
  - apply throw_safe.
  - by apply dispatch_safe.
Qed.

(** ** The factory keeps the state well formed *)

Lemma create_fields isolate tr one_time w :
  cached_for isolate w →
  ∃ w', CreateFunctionFromTranslater isolate tr one_time w
        = Some (next_id w, w')
    ∧ heap w' = <[next_id w := mkHolder (Some (next_id w)) tr]> (heap w)
    ∧ g_call_translater w' = Some (cached_or_new isolate w)
    ∧ externals w' = <[next_id w := next_id w]> (externals w)
    ∧ weak w' = <[next_id w := next_id w]> (weak w)
    ∧ objects w' = <[next_id w := initial_state one_time]> (objects w)
    ∧ functions w'
      = <[next_id w := mkBound isolate (cached_or_new isolate w)
                         (next_id w) (next_id w)]> (functions w)
    ∧ active w' = active w
    ∧ next_id w' = S (next_id w)
    ∧ native_log w' = native_log w
    ∧ pending_exception w' = pending_exception w
    ∧ trace w' = trace w ++ create_events isolate one_time w.
Proof.
  intros Hfor. unfold cached_for in Hfor.
  unfold CreateFunctionFromTranslater, new_TranslaterHolder, BindFunctionWith,
    cached_or_new, create_events, initial_state.
  destruct (g_call_translater w) as [t|] eqn:Hc, one_time; cbn; rewrite ?Hc; cbn;
    rewrite ?(bool_decide_eq_true_2 _ (Hfor _ eq_refl));
    rewrite ?(bool_decide_eq_true_2 (isolate = isolate) eq_refl); cbn;
    rewrite ?alter_insert_eq, ?lookup_insert_eq; cbn;
    rewrite ?alter_insert_eq, ?lookup_insert_eq, ?insert_insert_eq, ?insert_empty;
    cbn; (eexists; split; [reflexivity|]); cbn; rewrite <- ?app_assoc;
    repeat split; auto.
Qed.

(** A factory call made for another engine than the one of the cached
    template is undefined. *)
Lemma create_other_engine isolate tr one_time w t :
  g_call_translater w = Some t → tmpl_isolate t ≠ isolate →
  CreateFunctionFromTranslater isolate tr one_time w = None.
Proof.
  intros Hc Hne. unfold CreateFunctionFromTranslater. rewrite Hc. cbn.
  rewrite Hc. cbn. by rewrite bool_decide_eq_false_2.
Qed.

Lemma created_for isolate tr one_time w :
  is_Some (CreateFunctionFromTranslater isolate tr one_time w) →
  cached_for isolate w.
Proof.
  intros S t Ht. destruct (decide (tmpl_isolate t = isolate)) as [|Hne]; [done|].
  rewrite (create_other_engine isolate tr one_time w t Ht Hne) in S.
  by destruct S.
Qed.

Lemma create_proto isolate tr one_time w f w' :
  CreateFunctionFromTranslater isolate tr one_time w = Some (f, w') →
  object_prototype w' = object_prototype w.
Proof.
  intros Hcreate.
  pose proof (created_for isolate tr one_time w (ex_intro _ _ Hcreate)) as Hfor.
  unfold cached_for in Hfor. revert Hcreate.
  unfold CreateFunctionFromTranslater, new_TranslaterHolder, BindFunctionWith.
  destruct (g_call_translater w) as [t|] eqn:Hc, one_time; cbn; rewrite ?Hc; cbn;
    rewrite ?(bool_decide_eq_true_2 _ (Hfor _ eq_refl));
    rewrite ?(bool_decide_eq_true_2 (isolate = isolate) eq_refl); cbn;
    rewrite ?alter_insert_eq, ?lookup_insert_eq; cbn;
    by intros [= <- <-].
Qed.

Lemma create_events_readers isolate one_time w g :
  run_args g (create_events isolate one_time w) = []
  ∧ invoke_args g (create_events isolate one_time w) = []
  ∧ invoke_levels (create_events isolate one_time w) = []
  ∧ destroyed g (create_events isolate one_time w) = []
  ∧ templates (create_events isolate one_time w)
    = match g_call_translater w with
      | Some _ => []
      | None => [mkTemplate isolate (next_template w)]
      end
  ∧ ∀ path p, EvDestroy path p ∉ create_events isolate one_time w.
Proof.
  unfold create_events.
  destruct (g_call_translater w); cbn; repeat split; intros path p Hin;
    repeat (apply elem_of_cons in Hin as [Hin|Hin]; [done|]);
    by apply elem_of_nil in Hin.
Qed.

Lemma fresh_id w :
  WF w →
  heap w !! next_id w = None ∧ weak w !! next_id w = None
  ∧ functions w !! next_id w = None.
Proof.
  intros Hwf.
  assert (Hf : functions w !! next_id w = None).
  { destruct (functions w !! next_id w) as [fn|] eqn:Hfn; [|done].
    destruct (wf_fun _ Hwf _ _ Hfn) as (? & _). lia. }
  assert (Hh : heap w !! next_id w = None).
  { destruct (heap w !! next_id w) as [hd|] eqn:Hhd; [|done].
    destruct (wf_heap _ Hwf _ _ Hhd) as (_ & _ & [fn Hfn]). congruence. }
  split; [done|]. split; [|done].
  destruct (weak w !! next_id w) as [p|] eqn:Hp; [|done].
  destruct (wf_weak _ Hwf _ _ Hp) as [<- [hd Hhd]]. congruence.
Qed.

Lemma create_safe isolate tr one_time w :
  WF w → cached_for isolate w →
  ∃ w', CreateFunctionFromTranslater isolate tr one_time w
        = Some (next_id w, w')
    ∧ WF w' ∧ Ext w (create_events isolate one_time w) w'.
Proof.
  intros Hwf Hfor.
  destruct (create_fields isolate tr one_time w Hfor)
    as (w' & Hcreate & Hh & Hc & He & Hk & Ho & Hf & Ha & Hn & _ & _ & Ht).
  pose proof (create_proto _ _ _ _ _ _ Hcreate) as Hproto.
  exists w'. split; [exact Hcreate|]. clear Hcreate.
  destruct (fresh_id w Hwf) as (Fh & Fk & Ff).
  destruct (create_events_readers isolate one_time w 0) as (_&_&R3&_&R5&R6).
  set (n := next_id w) in *.
  assert (Hold : ∀ g fn, functions w !! g = Some fn → g ≠ n).
  { intros g fn Hg ->. congruence. }
  assert (HHo : ∀ g key, g ≠ n → HasOwn w' g key = HasOwn w g key).
  { intros g key Hne. unfold HasOwn. by rewrite Ho, lookup_insert_ne. }
  assert (HH : ∀ g key, g ≠ n → Has w' g key = Has w g key).
  { intros g key Hne. apply Has_own; auto. }
  split; constructor.
  - intros g fn. rewrite Hf, Hn, He, Ho, Hc.
    destruct (decide (g = n)) as [->|Hne].
    + rewrite !lookup_insert_eq. intros [= <-]. cbn. repeat split; eauto.
    + rewrite !lookup_insert_ne by done. intros Hg.
      destruct (wf_fun _ Hwf _ _ Hg) as (? & ? & ? & ? & ? & Hcw).
      repeat split; eauto. unfold cached_or_new. by rewrite Hcw.
  - intros p hd. rewrite Hh, Hk, Hf.
    destruct (decide (p = n)) as [->|Hne].
    + rewrite !lookup_insert_eq. intros [= <-]. cbn. eauto.
    + rewrite !lookup_insert_ne by done. apply (wf_heap _ Hwf).
  - intros e p. rewrite Hk, Hh.
    destruct (decide (e = n)) as [->|Hne].
    + rewrite lookup_insert_eq. intros [= <-]. rewrite lookup_insert_eq. eauto.
    + rewrite lookup_insert_ne by done. intros Hp.
      destruct (wf_weak _ Hwf _ _ Hp) as [<- ?].
      by rewrite lookup_insert_ne.
  - intros g. rewrite Hf, Hh.
    destruct (decide (g = n)) as [->|Hne].
    + intros _. by rewrite lookup_insert_eq.
    + rewrite !lookup_insert_ne, !HHo by done. apply (wf_dead _ Hwf).
  - intros g. rewrite Ha, Hf. intros Hg.
    destruct (wf_active _ Hwf _ Hg) as [fn Hfn].
    exists fn. rewrite lookup_insert_ne; [done|]. intros <-. congruence.
  - intros r o. rewrite Ho.
    destruct (decide (r = n)) as [->|Hne].
    + rewrite lookup_insert_eq. intros [= <-]. unfold initial_state, key_set.
      destruct one_time.
      * split; [rewrite dom_singleton; set_solver|].
        intros k v [<- <-]%lookup_singleton_Some. done.
      * split; [set_solver|]. by intros k v.
    + rewrite lookup_insert_ne by done. apply (wf_keys _ Hwf).
  - intros p.
    destruct (create_events_readers isolate one_time w p) as (_&_&_&R4&_).
    rewrite Ht, Hn, Hh, destroyed_app, length_app, R4, (wf_destroyed _ Hwf).
    cbn. rewrite Nat.add_0_r. fold n.
    destruct (decide (p = n)) as [->|Hne].
    + rewrite lookup_insert_eq.
      rewrite !bool_decide_eq_false_2; [done| |]; intros [? ?]; [done|lia].
    + rewrite lookup_insert_ne by done.
      rewrite (bool_decide_ext (p < n ∧ heap w !! p = None)
                 (p < S n ∧ heap w !! p = None)); [done|].
      split; intros [? ?]; split; auto; lia.
  - rewrite Ht. apply detached_app_free; [apply (wf_detached _ Hwf)|done].
  - rewrite Ht, Hc, templates_app, R5, (wf_templates _ Hwf).
    unfold cached_or_new. by destruct (g_call_translater w).
  - rewrite Hc, Hn. split; [done|lia].
  - done.
  - done.
  - done.
  - lia.
  - intros t Hcw. rewrite Hc. unfold cached_or_new. by rewrite Hcw.
  - intros g fn Hg. rewrite Hf, lookup_insert_ne; [done|]. fold n in Hg. lia.
  - intros p hd Hp. rewrite Hh, lookup_insert_ne; [done|]. fold n in Hp. lia.
  - intros g [fn Hg] _. rewrite !HHo by eauto. auto.
  - intros g Hg _. rewrite Hh.
    destruct (wf_active _ Hwf _ Hg) as [fn Hfn].
    rewrite lookup_insert_ne; [done|]. intros <-. congruence.
  - intros g _ _.
    destruct (create_events_readers isolate one_time w g) as (->&->&_&->&_).
    split; [done|apply not_elem_of_nil].
  - intros g _ _ _.
    by destruct (create_events_readers isolate one_time w g) as (->&_).
  - intros g _ _.
    by destruct (create_events_readers isolate one_time w g) as (->&->&_&->&_).
  - rewrite R3. constructor.
  - intros g [fn Hg] _ Hcg _. rewrite HH; eauto.
  - intros G g. rewrite Hf, Hh.
    destruct (decide (g = n)) as [->|Hne].
    + intros _. by rewrite lookup_insert_eq.
    + rewrite !lookup_insert_ne, HH by done. apply G.
Qed.

(** ** Every reachable state is well formed *)

Lemma init_WF : WF init.
Proof.
  constructor; try done.
  - intros f [fn Hfn]. done.
  - intros f Hf. by apply elem_of_nil in Hf.
Qed.

Lemma Ext_Since w Δ w' : Ext w Δ w' → Since w Δ w'.
Proof.
  intros E. constructor.
  - apply (ext_trace _ _ _ E).
  - apply (ext_next _ _ _ E).
  - apply (ext_fun _ _ _ E).
  - apply (ext_heap _ _ _ E).
  - apply (ext_own _ _ _ E).
  - intros f Hf Hone Hcalled.
    apply (ext_once _ _ _ E f Hf); by apply HasOwn_Has.
  - apply (ext_gone _ _ _ E).
Qed.

Lemma Since_refl w : Since w [] w.
Proof. apply Ext_Since, Ext_refl. Qed.

Lemma Since_trans w Δ1 w1 Δ2 w2 :
  WF w → Since w Δ1 w1 → Since w1 Δ2 w2 → Since w (Δ1 ++ Δ2) w2.
Proof.
  intros Hwf S1 S2.
  assert (Hlt : ∀ f, is_Some (functions w !! f) → f < next_id w).
  { intros f [fn Hfn]. by destruct (wf_fun _ Hwf _ _ Hfn). }
  pose proof (since_next _ _ _ S1) as Hn1.
  assert (Hgone : ∀ f, f < next_id w → functions w1 !! f = None →
            run_args f Δ2 = [] ∧ invoke_args f Δ2 = [] ∧ destroyed f Δ2 = []).
  { intros f Hf Hnone. apply (since_gone _ _ _ S2); [lia|done]. }
  constructor.
  - rewrite (since_trace _ _ _ S2), (since_trace _ _ _ S1). by rewrite app_assoc.
  - pose proof (since_next _ _ _ S2). lia.
  - intros f fn Hf Hfn. eapply since_fun; [exact S1|done|].
    eapply since_fun; [exact S2|lia|done].
  - intros p hd Hp Hhd. eapply since_heap; [exact S1|done|].
    eapply since_heap; [exact S2|lia|done].
  - intros f Hf0 [fn Hf2].
    assert (Hf1 : is_Some (functions w1 !! f)).
    { exists fn. eapply since_fun; [exact S2| |done]. specialize (Hlt _ Hf0). lia. }
    destruct (since_own _ _ _ S1 f Hf0 Hf1) as [Ha Hb].
    destruct (since_own _ _ _ S2 f Hf1 (ex_intro _ fn Hf2)) as [Hc Hd].
    split; [congruence|auto].
  - intros f Hf0 Hone Hcalled. rewrite run_args_app.
    rewrite (since_once _ _ _ S1 f Hf0 Hone Hcalled). cbn.
    destruct (functions w1 !! f) as [fn|] eqn:Hf1.
    + destruct (since_own _ _ _ S1 f Hf0) as [Ho Hc]; [by rewrite Hf1|].
      apply (since_once _ _ _ S2 f); [by rewrite Hf1|congruence|auto].
    + by destruct (Hgone f (Hlt _ Hf0) Hf1) as (-> & _).
  - intros f Hf Hnone. autorewrite with log.
    destruct (since_gone _ _ _ S1 f Hf Hnone) as (-> & -> & ->).
    assert (Hnone1 : functions w1 !! f = None).
    { destruct (functions w1 !! f) as [fn|] eqn:Hf1; [|done].
      pose proof (since_fun _ _ _ S1 f fn Hf Hf1). congruence. }
    by destruct (Hgone f Hf Hnone1) as (-> & -> & ->).
Qed.

(** Script changing the prototype leaves everything else as it is. *)
Lemma prototype_step w x :
  WF w →
  WF (set_object_prototype x w) ∧ Since w [] (set_object_prototype x w).
Proof.
  intros Hwf. split.
  - destruct Hwf. constructor; done.
  - constructor; cbn; try done; by rewrite ?app_nil_r.
Qed.

Lemma pending_step w x : WF w → WF (set_pending x w) ∧ Ext w [] (set_pending x w).
Proof.
  intros Hwf. apply quiet_step; try done. cbn. by rewrite app_nil_r.
Qed.

Lemma perform_ext a w w' :
  WF w → native_action a → perform a w = Some w' →
  WF w' ∧ ∃ Δ, Ext w Δ w'.
Proof.
  intros Hwf Hnat Hp.
  destruct a as [isolate tr one_time|depth f args|f|key v|key]; try done.
  - unfold perform in Hp.
    destruct (CreateFunctionFromTranslater isolate tr one_time w)
      as [[f w1]|] eqn:Hc; [|done].
    cbn in Hp. injection Hp as <-.
    destruct (create_safe isolate tr one_time w Hwf) as (w2 & Hc2 & ? & ?).
    { apply (created_for isolate tr one_time w). eauto. }
    assert (w2 = w1) as -> by congruence. eauto.
  - cbn in Hp. destruct (Call depth f args w) as [w1|] eqn:Hc; [|done].
    cbn in Hp. injection Hp as <-.
    destruct (Call_safe depth f args w Hwf) as (w2 & Δ & Hc2 & Hwf2 & E);
      [right; eauto|].
    assert (w2 = w1) as -> by congruence.
    destruct (pending_step w1 None Hwf2) as [Hwf3 E3].
    split; [done|]. exists (Δ ++ []). by apply (Ext_trans w Δ w1).
  - cbn in Hp.
    destruct (collect_safe f w Hwf) as (w2 & Δ & Hc2 & Hwf2 & E); [right; eauto|].
    assert (w2 = w') as -> by congruence. eauto.
Qed.

Lemma perform_sound a w w' :
  WF w → perform a w = Some w' → WF w' ∧ ∃ Δ, Since w Δ w'.
Proof.
  intros Hwf Hp.
  destruct a as [isolate tr one_time|depth f args|f|key v|key].
  - destruct (perform_ext (ACreate isolate tr one_time) w w' Hwf I Hp)
      as (? & Δ & E); eauto using Ext_Since.
  - destruct (perform_ext (AInvoke depth f args) w w' Hwf I Hp)
      as (? & Δ & E); eauto using Ext_Since.
  - destruct (perform_ext (ACollect f) w w' Hwf I Hp)
      as (? & Δ & E); eauto using Ext_Since.
  - injection Hp as <-.
    destruct (prototype_step w (<[key := v]> (object_prototype w)) Hwf). eauto.
  - injection Hp as <-.
    destruct (prototype_step w (delete key (object_prototype w)) Hwf). eauto.
Qed.

Lemma perform_all_sound acts : ∀ w w',
  WF w → perform_all acts w = Some w' → WF w' ∧ ∃ Δ, Since w Δ w'.
Proof.
  induction acts as [|a acts IH]; intros w w' Hwf Hp; cbn in Hp.
  - injection Hp as <-. eauto using Since_refl.
  - destruct (perform a w) as [w1|] eqn:Ha; [|done]. cbn in Hp.
    destruct (perform_sound a w w1 Hwf Ha) as (Hwf1 & Δ1 & S1).
    destruct (IH w1 w' Hwf1 Hp) as (Hwf2 & Δ2 & S2).
    split; [done|]. exists (Δ1 ++ Δ2). by apply (Since_trans w Δ1 w1).
Qed.

Lemma reachable_WF w : reachable w → WF w.
Proof.
  intros [acts Hacts].
  by destruct (perform_all_sound acts init w init_WF Hacts).
Qed.

(** ** Facts used by the main theorems *)

Lemma created_facts isolate tr one_time w0 f w1 :
  WF w0 →
  CreateFunctionFromTranslater isolate tr one_time w0 = Some (f, w1) →
  f = next_id w0
  ∧ WF w1
  ∧ Ext w0 (create_events isolate one_time w0) w1
  ∧ functions w1 !! f
    = Some (mkBound isolate (cached_or_new isolate w0) f f)
  ∧ heap w1 !! f = Some (mkHolder (Some f) tr)
  ∧ objects w1 !! f = Some (initial_state one_time)
  ∧ HasOwn w1 f "oneTime" = Some one_time
  ∧ HasOwn w1 f "called" = Some false.
Proof.
  intros Hwf Hcreate.
  assert (Hfor : cached_for isolate w0) by (eapply created_for; eauto).
  destruct (create_safe isolate tr one_time w0 Hwf Hfor)
    as (w2 & Heq2 & Hwf1 & E).
  destruct (create_fields isolate tr one_time w0 Hfor)
    as (w' & Heq & Hh & _ & _ & _ & Ho & Hf & _).
  rewrite Hcreate in Heq, Heq2.
  injection Heq as -> <-. injection Heq2 as <-.
  split; [done|]. split; [done|]. split; [done|].
  rewrite Hf, Hh. unfold HasOwn. rewrite Ho, !lookup_insert_eq. cbn.
  repeat split; by destruct one_time.
Qed.

Lemma call_facts d f args w w' :
  WF w → Call d f args w = Some w' → WF w' ∧ ∃ Δ, Ext w Δ w'.
Proof.
  intros Hwf Hcall.
  destruct (Call_safe d f args w Hwf) as (w2 & Δ & Hw2 & Hwf2 & E);
    [right; eauto|].
  assert (w2 = w') as -> by congruence. eauto.
Qed.

Lemma still_function w Δ w' f :
  Since w Δ w' → f < next_id w →
  is_Some (functions w' !! f) → is_Some (functions w !! f).
Proof. intros E Hlt [fn Hfn]. exists fn. by apply (since_fun _ _ _ E). Qed.

Lemma Has_of_own w f key b :
  HasOwn w f key = Some b → inherited w key = false → Has w f key = Some b.
Proof. unfold Has. intros -> ->. cbn. by rewrite orb_false_r. Qed.

(** After a call that entered the trampoline of a callable that reads as
    one-shot while no [called] is inherited, the record has the marker. *)
Lemma call_marks d f args w fn w' :
  WF w → functions w !! f = Some fn → Has w f "oneTime" = Some true →
  inherited w "called" = false →
  Call (S d) f args w = Some w' →
  is_Some (functions w' !! f) ∧ HasOwn w' f "called" = Some true.
Proof.
  intros Hwf Hfn Hone' Hinh Hcall. cbn in Hcall.
  destruct (wf_fun _ Hwf _ _ Hfn) as (_ & _ & Hbs & _ & Ho & _).
  destruct (HasOwn_Some w f "called" Ho) as [[] Hcalled].
  - rewrite (dispatch_throw (Call d) f args w fn) in Hcall
      by (rewrite ?Hbs; auto using HasOwn_Has).
    injection Hcall as <-. split; [by exists fn|done].
  - pose proof (Has_of_own _ _ _ _ Hcalled Hinh) as Hcalled'.
    destruct (dispatch_open (Call d) (Call_safe d) f args w fn true Hwf Hfn Hone')
      as (hd & w1 & Δ1 & w2 & _ & Hwfa & _ & Hwf1 & E & Hhd1 & Hfin & Hd & _ & _);
      [done|right; eauto|].
    assert (w2 = w') as -> by congruence.
    destruct Ho as [o Ho].
    destruct (at_run_fields true f args w o Ho) as (_&_&_&_&Hf&_&Ha&_).
    assert (Hf1 : is_Some (functions w1 !! f)).
    { apply (wf_active _ Hwf1). rewrite (ext_active _ _ _ E), Ha.
      apply elem_of_cons. auto. }
    destruct (ext_own _ _ _ E f) as [_ Hmark]; [by rewrite Hf; eauto|done|].
    specialize (Hmark (HasOwn_at_run_called f args w o Ho)).
    destruct (wf_heap _ Hwf1 _ _ Hhd1) as (Hhandle & _ & _).
    destruct (finished_fields true f w1 hd Hhd1 Hhandle)
      as (w2 & Hfin2 & _ & _ & _ & _ & Ho2 & Hf2 & _).
    assert (w2 = w') as -> by congruence.
    rewrite Hf2. split; [done|]. by rewrite (HasOwn_objects w1 w').
Qed.

(** * One-shot callables *)




(** A callable since its creation: it still exists, its record still has
    [oneTime] among its own properties exactly when it was made one-shot,
    and its holder if live is the one allocated for it. *)
Lemma since_creation isolate tr one_time w0 f w1 acts w2 :
  reachable w0 →
  CreateFunctionFromTranslater isolate tr one_time w0 = Some (f, w1) →
  perform_all acts w1 = Some w2 →
  is_Some (functions w2 !! f) →
  WF w1 ∧ WF w2
  ∧ functions w2 !! f = Some (mkBound isolate (cached_or_new isolate w0) f f)
  ∧ HasOwn w2 f "oneTime" = Some one_time
  ∧ (∀ hd, heap w2 !! f = Some hd → hd = mkHolder (Some f) tr)
  ∧ ∃ Δ, Since w1 Δ w2.
Proof.
  intros Hreach Hcreate Hacts Hf2.
  pose proof (reachable_WF _ Hreach) as Hwf0.
  destruct (created_facts _ _ _ _ _ _ Hwf0 Hcreate)
    as (-> & Hwf1 & E01 & Hf1 & Hh1 & _ & Hone1 & Hcalled1).
  destruct (perform_all_sound _ _ _ Hwf1 Hacts) as (Hwf2 & Δ & E).
  assert (Hlt1 : next_id w0 < next_id w1).
  { by destruct (wf_fun _ Hwf1 _ _ Hf1) as (? & _). }
  set (f := next_id w0) in *.
  assert (Hf1' : is_Some (functions w1 !! f)) by (by rewrite Hf1).
  destruct (since_own _ _ _ E f Hf1' Hf2) as [Hone2 _].
  split; [done|]. split; [done|]. split.
  { destruct Hf2 as [fn Hfn]. rewrite Hfn. f_equal.
    pose proof (since_fun _ _ _ E f fn Hlt1 Hfn). congruence. }
  split; [congruence|]. split; [|eauto].
  intros hd Hhd. pose proof (since_heap _ _ _ E f hd Hlt1 Hhd). congruence.
Qed.

(** A call of a callable that the trampoline reads as one-shot and not yet
    called, from any well-formed state. *)
Lemma first_call_shape d f args w fn :
  WF w → functions w !! f = Some fn →
  Has w f "oneTime" = Some true → Has w f "called" = Some false →
  Gated w ∨ is_Some (Call (S d) f args w) →
  ∃ hd w1 Δ1 w',
    heap w !! f = Some hd
    ∧ WF (at_run true f args w)
    ∧ Run (Call d) (translater hd) args (at_run true f args w) = Some w1
    ∧ WF w1
    ∧ Ext (at_run true f args w) Δ1 w1
    ∧ Call (S d) f args w = Some w'
    ∧ WF w'
    ∧ trace w'
      = trace w ++ pre_events true (length (active w)) f args
          ++ Δ1 ++ post_events true f
    ∧ run_args f Δ1 = []
    ∧ destroyed f Δ1 = []
    ∧ heap w' !! f = None
    ∧ weak w' !! f = None
    ∧ pending_exception w' = pending_exception w1
    ∧ native_log w' = native_log w1.
Proof.
  intros Hwf Hfn Hone Hcalled Hpre.
  destruct (dispatch_open (Call d) (Call_safe d) f args w fn true Hwf Hfn Hone)
    as (hd & w1 & Δ1 & w' & Hhd & Hwfa & Hrun & Hwf1 & E & Hhd1 & Hfin & Hd
        & Hwf' & E'); [done|done|].
  destruct (wf_fun _ Hwf _ _ Hfn) as (_ & _ & _ & _ & [o Ho] & _).
  destruct (at_run_fields true f args w o Ho) as (Hh&_&_&_&Hf&_&_&_&_&Hta&_).
  destruct (wf_heap _ Hwf1 _ _ Hhd1) as (Hhandle & _ & _).
  destruct (finished_fields true f w1 hd Hhd1 Hhandle)
    as (w2 & Hfin2 & Hh2 & Hk2 & _ & _ & _ & _ & _ & _ & Hl2 & Hp2 & _).
  assert (w2 = w') as -> by congruence.
  exists hd, w1, Δ1, w'.
  split; [done|]. split; [done|]. split; [done|]. split; [done|].
  split; [done|]. split; [done|]. split; [done|].
  split; [exact (ext_trace _ _ _ E')|].
  split.
  { apply (ext_once _ _ _ E f); [rewrite Hf; eauto| |].
    - by rewrite (Has_at_run_one_time true f args w o Ho).
    - apply (Has_at_run_called f args w o Ho). }
  split.
  { pose proof (wf_destroyed _ Hwfa f) as Da.
    pose proof (wf_destroyed _ Hwf1 f) as D1.
    rewrite bool_decide_eq_false_2 in Da by (rewrite Hh, Hhd; by intros [_ ?]).
    rewrite bool_decide_eq_false_2 in D1 by (rewrite Hhd1; by intros [_ ?]).
    rewrite (ext_trace _ _ _ E), destroyed_app, length_app, Da in D1.
    by apply nil_length_inv. }
  rewrite Hh2, Hk2, !lookup_delete_eq. done.
Qed.

(** C2, at a concrete input: a callable is made with [one_time = true] and
    script then gives the prototype of plain objects a property [called].
    The first invocation of the callable finds that property through
    [Has]: it is refused with the already-called error, the callback is not
    run and the holder is not destroyed, neither then nor by any later
    invocation made while the property is inherited.  Once script has
    removed the property, the third invocation is the one that runs the
    callback and destroys the holder. *)
Theorem first_call_refused_when_marker_inherited :
  ∃ w w' w'',
    perform_all [ACreate 0 [OpObserve] true;
                 ASetPrototype "called" (VBool true)] init = Some w
    ∧ HasOwn w 0 "called" = Some false
    ∧ Has w 0 "called" = Some true
    ∧ invoke_args 0 (trace w) = []
    ∧ Call 1 0 [VInt 1] w = Some w'
    ∧ trace w' = trace w ++ [EvInvoke 0 0 [VInt 1];
                             EvThrow already_called_message; EvReturn 0]
    ∧ pending_exception w' = Some already_called_message
    ∧ native_log w' = []
    ∧ run_args 0 (trace w') = []
    ∧ destroyed 0 (trace w') = []
    ∧ heap w' !! 0 = Some (mkHolder (Some 0) [OpObserve])
    ∧ HasOwn w' 0 "called" = Some false
    ∧ Call 1 0 [VInt 2] w' = Some w''
    ∧ run_args 0 (trace w'') = []
    ∧ is_Some (heap w'' !! 0)
    ∧ ∃ w3 w4,
        perform (ADeletePrototype "called") w'' = Some w3
        ∧ Call 1 0 [VInt 3] w3 = Some w4
        ∧ invoke_args 0 (trace w4) = [[VInt 1]; [VInt 2]; [VInt 3]]
        ∧ run_args 0 (trace w4) = [[VInt 3]]
        ∧ destroyed 0 (trace w4) = [ByOneShot].
Proof.
  eexists _, _, _. split; [vm_compute; reflexivity|].
  split; [vm_compute; reflexivity|]. split; [vm_compute; reflexivity|].
  split; [vm_compute; reflexivity|]. split; [vm_compute; reflexivity|].
  split; [vm_compute; reflexivity|]. split; [vm_compute; reflexivity|].
  split; [vm_compute; reflexivity|]. split; [vm_compute; reflexivity|].
  split; [vm_compute; reflexivity|]. split; [vm_compute; reflexivity|].
  split; [vm_compute; reflexivity|]. split; [vm_compute; reflexivity|].
  split; [vm_compute; reflexivity|]. split; [vm_compute; eauto|].
  eexists _, _. split; [vm_compute; reflexivity|].
  split; [vm_compute; reflexivity|]. split; [vm_compute; reflexivity|].
  split; vm_compute; reflexivity.
Qed.



(** ** Errors signalled by the running callback *)

Lemma Run_app sc tr1 tr2 args w :
  Run sc (tr1 ++ tr2) args w = (w1 ← Run sc tr1 args w; Run sc tr2 args w1).
Proof.
  revert w. induction tr1 as [|op tr1 IH]; intros w; cbn; [done|].
  destruct (exec_op sc args op w); cbn; auto.
Qed.

Lemma Run_logs_throw sc tr args msg :
  (∀ g argv, safe (sc g argv)) → OpThrow msg ∈ tr →
  ∀ w w', WF w → Run sc tr args w = Some w' →
  ∃ Δ, trace w' = trace w ++ Δ ∧ msg ∈ thrown Δ.
Proof.
  intros Hsc. induction tr as [|op tr IH]; intros Hin w w' Hwf Hrun.
  - by apply elem_of_nil in Hin.
  - cbn in Hrun.
    destruct (exec_op sc args op w) as [w1|] eqn:Hop; [|done]. cbn in Hrun.
    destruct (exec_op_safe sc Hsc args op w Hwf)
      as (w1' & Δ1 & Hop' & Hwf1 & E1); [right; eauto|].
    assert (w1' = w1) as -> by congruence.
    apply elem_of_cons in Hin as [<-|Hin].
    + destruct (Run_safe sc Hsc tr args w1 Hwf1) as (w2 & Δ2 & Hrun2 & _ & E2);
        [right; eauto|].
      assert (w2 = w') as -> by congruence.
      injection Hop as <-.
      exists ([EvThrow msg] ++ Δ2). split.
      * rewrite (ext_trace _ _ _ E2). cbn. by rewrite <- app_assoc.
      * rewrite thrown_app. apply elem_of_app. left. cbn. apply elem_of_cons. auto.
    + destruct (IH Hin w1 w' Hwf1 Hrun) as (Δ2 & Ht & Hm).
      exists (Δ1 ++ Δ2). split.
      * by rewrite Ht, (ext_trace _ _ _ E1), app_assoc.
      * rewrite thrown_app. apply elem_of_app. auto.
Qed.



(** * Destruction of holders *)

Lemma perform_active a w w' :
  WF w → perform a w = Some w' → active w' = active w.
Proof.
  intros Hwf Hp.
  destruct a as [isolate tr one_time|depth f args|f|key v|key].
  - destruct (perform_ext (ACreate isolate tr one_time) w w' Hwf I Hp)
      as (_ & Δ & E). exact (ext_active _ _ _ E).
  - destruct (perform_ext (AInvoke depth f args) w w' Hwf I Hp)
      as (_ & Δ & E). exact (ext_active _ _ _ E).
  - destruct (perform_ext (ACollect f) w w' Hwf I Hp) as (_ & Δ & E).
    exact (ext_active _ _ _ E).
  - by injection Hp as <-.
  - by injection Hp as <-.
Qed.

Lemma perform_all_active acts : ∀ w w',
  WF w → perform_all acts w = Some w' → active w' = active w.
Proof.
  induction acts as [|a acts IH]; intros w w' Hwf Hp; cbn in Hp.
  - by injection Hp as <-.
  - destruct (perform a w) as [w1|] eqn:Ha; [|done]. cbn in Hp.
    destruct (perform_sound a w w1 Hwf Ha) as [Hwf1 _].
    rewrite (IH w1 w' Hwf1 Hp). by apply (perform_active a).
Qed.

(** Between two actions no callable is under execution. *)
Lemma reachable_idle w : reachable w → active w = [].
Proof. intros [acts Hacts]. exact (perform_all_active acts init w init_WF Hacts). Qed.

Lemma collect_finalizes f w fn hd :
  WF w → functions w !! f = Some fn → heap w !! f = Some hd →
  f ∉ active w →
  ∃ w',
    collect f w = Some w'
    ∧ trace w'
      = trace w ++ [EvFinalizer f; EvClearWeak f; EvReset f;
                    EvDestroy ByFinalizer f; EvReclaim f]
    ∧ heap w' !! f = None
    ∧ weak w' !! f = None
    ∧ functions w' !! f = None.
Proof.
  intros Hwf Hfn Hhd Hact. unfold collect. rewrite Hfn.
  rewrite bool_decide_eq_false_2 by done.
  destruct (wf_fun _ Hwf _ _ Hfn) as (_ & -> & _).
  destruct (wf_heap _ Hwf _ _ Hhd) as (Hhandle & -> & _).
  unfold GC.
  rewrite (delete_holder_live ByFinalizer f _ hd) by done.
  eexists. split; [reflexivity|]. cbn.
  rewrite <- !app_assoc, !lookup_delete_eq. done.
Qed.

Lemma collect_freed f w fn :
  WF w → functions w !! f = Some fn → heap w !! f = None → f ∉ active w →
  ∃ w', collect f w = Some w' ∧ trace w' = trace w ++ [EvReclaim f]
    ∧ heap w' = heap w ∧ functions w' !! f = None.
Proof.
  intros Hwf Hfn Hdead Hact. unfold collect.
  rewrite Hfn, bool_decide_eq_false_2 by done.
  destruct (wf_fun _ Hwf _ _ Hfn) as (_ & -> & _).
  destruct (weak w !! f) as [q|] eqn:Hq.
  - destruct (wf_weak _ Hwf _ _ Hq) as [<- [hd Hhd]]. congruence.
  - cbn. eexists. split; [reflexivity|]. cbn. by rewrite lookup_delete_eq.
Qed.

(** A gated call leaves the callable in place, with the marker. *)
Lemma first_call_after d f args w fn w' :
  WF w → functions w !! f = Some fn →
  Has w f "oneTime" = Some true → Has w f "called" = Some false →
  Call (S d) f args w = Some w' →
  functions w' !! f = Some fn ∧ active w' = active w
  ∧ HasOwn w' f "called" = Some true.
Proof.
  intros Hwf Hfn Hone Hcalled Hcall.
  destruct (Has_cases _ _ _ _ Hcalled) as (own & _ & Hor).
  assert (Hinh : inherited w "called" = false).
  { symmetry in Hor. by apply orb_false_iff in Hor as [_ ?]. }
  destruct (call_marks d f args w fn w' Hwf Hfn Hone Hinh Hcall)
    as [[fn' Hfn'] Hmark].
  destruct (call_facts _ _ _ _ _ Hwf Hcall) as (_ & Δ & E).
  destruct (wf_fun _ Hwf _ _ Hfn) as (Hlt & _).
  pose proof (ext_fun _ _ _ E f fn' Hlt Hfn') as Hback.
  split; [congruence|]. split; [exact (ext_active _ _ _ E)|done].
Qed.



(** * Callables that may be called repeatedly *)

(** C5, at a concrete input: a callable is made with [one_time = false] and
    script then gives the prototype of plain objects a property [oneTime].
    The callable is invoked twice: the first invocation runs the callback
    and then destroys the holder by the one-shot path, with no collection
    at all; the second is refused, so that two invocations run the callback
    once.  When script removes the property again, the next invocation
    passes the gate and reads the freed holder, which is undefined. *)
Theorem repeatable_freed_when_one_time_inherited :
  ∃ w w1 w2 w3,
    perform_all [ACreate 0 [OpObserve] false;
                 ASetPrototype "oneTime" (VBool true)] init = Some w
    ∧ HasOwn w 0 "oneTime" = Some false
    ∧ Has w 0 "oneTime" = Some true
    ∧ Call 1 0 [VInt 1] w = Some w1
    ∧ trace w1
      = trace w ++ [EvInvoke 0 0 [VInt 1]; EvSetCalled 0; EvRunBegin 0 [VInt 1];
                    EvRunEnd 0; EvClearWeak 0; EvReset 0;
                    EvDestroy ByOneShot 0; EvReturn 0]
    ∧ heap w1 !! 0 = None
    ∧ Call 1 0 [VInt 2] w1 = Some w2
    ∧ pending_exception w2 = Some already_called_message
    ∧ invoke_args 0 (trace w2) = [[VInt 1]; [VInt 2]]
    ∧ run_args 0 (trace w2) = [[VInt 1]]
    ∧ native_log w2 = [[VInt 1]]
    ∧ destroyed 0 (trace w2) = [ByOneShot]
    ∧ perform (ADeletePrototype "oneTime") w2 = Some w3
    ∧ Call 1 0 [VInt 3] w3 = None.
Proof.
  eexists _, _, _, _. split; [vm_compute; reflexivity|].
  split; [vm_compute; reflexivity|]. split; [vm_compute; reflexivity|].
  split; [vm_compute; reflexivity|]. split; [vm_compute; reflexivity|].
  split; [vm_compute; reflexivity|]. split; [vm_compute; reflexivity|].
  split; [vm_compute; reflexivity|]. split; [vm_compute; reflexivity|].
  split; [vm_compute; reflexivity|]. split; [vm_compute; reflexivity|].
  split; [vm_compute; reflexivity|]. split; [vm_compute; reflexivity|].
  vm_compute. reflexivity.
Qed.

(** * The metadata record *)

(** C6, at a concrete input: the factory called with [one_time = false]
    builds an empty record.  Script then gives the prototype of plain
    objects a property [oneTime]; the record itself stays empty, but the
    trampoline finds the inherited property through [Has] and applies the
    one-shot gating: the call writes the marker into the record, and the
    next call is refused. *)
Theorem gate_follows_inherited_one_time :
  ∃ w0 w w1 w2,
    CreateFunctionFromTranslater 0 [OpObserve] false init = Some (0, w0)
    ∧ objects w0 !! 0 = Some ∅
    ∧ Has w0 0 "oneTime" = Some false
    ∧ perform (ASetPrototype "oneTime" (VBool true)) w0 = Some w
    ∧ objects w !! 0 = Some ∅
    ∧ Has w 0 "oneTime" = Some true
    ∧ Call 1 0 [VInt 1] w = Some w1
    ∧ objects w1 !! 0 = Some {[ "called" := VBool true ]}
    ∧ trace w1
      = trace w ++ [EvInvoke 0 0 [VInt 1]; EvSetCalled 0; EvRunBegin 0 [VInt 1];
                    EvRunEnd 0; EvClearWeak 0; EvReset 0;
                    EvDestroy ByOneShot 0; EvReturn 0]
    ∧ Call 1 0 [VInt 2] w1 = Some w2
    ∧ trace w2 = trace w1 ++ [EvInvoke 0 0 [VInt 2];
                              EvThrow already_called_message; EvReturn 0]
    ∧ pending_exception w2 = Some already_called_message
    ∧ native_log w2 = [[VInt 1]].
Proof.
  eexists _, _, _, _. split; [vm_compute; reflexivity|].
  split; [vm_compute; reflexivity|]. split; [vm_compute; reflexivity|].
  split; [vm_compute; reflexivity|]. split; [vm_compute; reflexivity|].
  split; [vm_compute; reflexivity|]. split; [vm_compute; reflexivity|].
  split; [vm_compute; reflexivity|].
  split; [vm_compute; reflexivity|].
  split; [vm_compute; reflexivity|]. split; [vm_compute; reflexivity|].
  split; [vm_compute; reflexivity|]. vm_compute. reflexivity.
Qed.

(** * The cached template *)

(** C9, at a concrete input: the process creates a callable for engine
    instance 0 and then asks for one for engine instance 1.  The cache is
    one for the process: it holds the template made for instance 0, no
    template is made for instance 1, and the factory uses the cached one
    with the other engine, which the host leaves undefined. *)
Theorem second_engine_has_no_template :
  ∃ w,
    perform (ACreate 0 [] false) init = Some w
    ∧ g_call_translater w = Some (mkTemplate 0 0)
    ∧ templates (trace w) = [mkTemplate 0 0]
    ∧ CreateFunctionFromTranslater 1 [] false w = None
    ∧ perform_all [ACreate 0 [] false; ACreate 1 [] false] init = None.
Proof.
  eexists. split; [vm_compute; reflexivity|].
  split; [vm_compute; reflexivity|]. split; [vm_compute; reflexivity|].
  split; vm_compute; reflexivity.
Qed.

(** ** Invariants of the ref-counted handle *)

Lemma count_refs_app x ws1 ws2 :
  Safe.count_refs x (ws1 ++ ws2) = Safe.count_refs x ws1 + Safe.count_refs x ws2.
Proof. induction ws1 as [|slot ws1 IH]; cbn; [done|]. rewrite IH. lia. Qed.

Lemma count_refs_drop x ws i slot :
  ws !! i = Some slot →
  Safe.count_refs x (<[i := None]> ws) + (if Safe.holds x slot then 1 else 0)
  = Safe.count_refs x ws.
Proof.
  revert i. induction ws as [|slot' ws IH]; intros [|i] Hi; try done.
  - cbn in Hi. injection Hi as ->. cbn. lia.
  - cbn in Hi. specialize (IH i Hi).
    change (<[S i := None]> (slot' :: ws)) with (slot' :: <[i := None]> ws).
    cbn [Safe.count_refs]. lia.
Qed.

Lemma count_refs_pos x ws i s :
  ws !! i = Some (Some s) → Safe.v8_function_ s = Some x →
  0 < Safe.count_refs x ws.
Proof.
  revert i. induction ws as [|slot ws IH]; intros [|i] Hi Hx; try done.
  - cbn in Hi. injection Hi as ->. cbn. rewrite bool_decide_eq_true_2 by done. lia.
  - cbn in Hi. cbn. specialize (IH i Hi Hx). lia.
Qed.

Lemma live_wrapper_Some st i s :
  Safe.live_wrapper st i = Some s ↔ Safe.wrappers st !! i = Some (Some s).
Proof.
  unfold Safe.live_wrapper. destruct (Safe.wrappers st !! i) as [[s'|]|]; cbn;
    split; congruence.
Qed.

Lemma Later_refl st : Safe.Later st st.
Proof. constructor; auto. intros x g g' H1 H2. congruence. Qed.

Lemma Later_trans st1 st2 st3 :
  Safe.Inv st1 → Safe.Later st1 st2 → Safe.Later st2 st3 → Safe.Later st1 st3.
Proof.
  intros Hinv L1 L2.
  pose proof (Safe.later_length _ _ L1). pose proof (Safe.later_length _ _ L2).
  pose proof (Safe.later_next _ _ L1). pose proof (Safe.later_next _ _ L2).
  constructor; try lia.
  - intros i s Hi Hs. apply (Safe.later_slots _ _ L1); [done|].
    apply (Safe.later_slots _ _ L2); [lia|done].
  - intros x g g3 Hg Hg3.
    destruct (Safe.globals st2 !! x) as [g2|] eqn:Hg2.
    + rewrite (Safe.later_handle _ _ L2 x g2 g3 Hg2 Hg3).
      apply (Safe.later_handle _ _ L1 x g g2 Hg Hg2).
    + assert (Hx : x < Safe.next_global st2).
      { assert (x < Safe.next_global st1); [|lia].
        apply (Safe.inv_fresh _ Hinv). by rewrite Hg. }
      pose proof (Safe.later_gone _ _ L2 x Hx Hg2). congruence.
  - intros x Hx Hg. apply (Safe.later_gone _ _ L2); [lia|].
    by apply (Safe.later_gone _ _ L1).
  - rewrite (Safe.later_browser _ _ L2). apply (Safe.later_browser _ _ L1).
Qed.

Lemma count_refs_zero x ws :
  (∀ j s, ws !! j = Some (Some s) → Safe.v8_function_ s ≠ Some x) →
  Safe.count_refs x ws = 0.
Proof.
  induction ws as [|slot ws IH]; intros Hno; [done|].
  cbn [Safe.count_refs]. rewrite IH by (intros j s Hj; apply (Hno (S j) s Hj)).
  destruct slot as [s|]; cbn; [|done].
  rewrite bool_decide_eq_false_2; [done|]. by apply (Hno 0 s).
Qed.

Lemma count_refs_new x y ws :
  Safe.count_refs y (ws ++ [Some (Safe.mkSafe (Some x))])
  = Safe.count_refs y ws + (if bool_decide (x = y) then 1 else 0).
Proof.
  rewrite count_refs_app. cbn. f_equal.
  destruct (decide (x = y)) as [->|Hne].
  - by rewrite !bool_decide_eq_true_2.
  - rewrite !bool_decide_eq_false_2; [done|done|congruence].
Qed.

Lemma live_wrapper_app_l st ws i :
  i < length (Safe.wrappers st) →
  Safe.live_wrapper (Safe.set_wrappers (Safe.wrappers st ++ ws) st) i
  = Safe.live_wrapper st i.
Proof. intros Hi. unfold Safe.live_wrapper. cbn. by rewrite lookup_app_l. Qed.

Lemma no_wrapper_of_fresh st :
  Safe.Inv st → Safe.globals st !! Safe.next_global st = None
  ∧ Safe.count_refs (Safe.next_global st) (Safe.wrappers st) = 0.
Proof.
  intros Hinv.
  assert (Hnone : Safe.globals st !! Safe.next_global st = None).
  { destruct (Safe.globals st !! Safe.next_global st) eqn:Hg; [|done].
    assert (Safe.next_global st < Safe.next_global st); [|lia].
    apply (Safe.inv_fresh _ Hinv). by rewrite Hg. }
  split; [done|]. apply count_refs_zero. intros j s Hj Hx.
  destruct (Safe.inv_live _ Hinv j s) as (y & Hy & [g Hg]).
  { by apply live_wrapper_Some. }
  congruence.
Qed.

Lemma step_new_inv value st :
  Safe.Inv st →
  ∃ st', Safe.step (Safe.SNew value) st = Some st'
    ∧ Safe.Inv st' ∧ Safe.Later st st'
    ∧ Safe.live_wrapper st' (length (Safe.wrappers st))
      = Some (Safe.mkSafe (Some (Safe.next_global st)))
    ∧ Safe.globals st' !! Safe.next_global st = Some (Safe.mkGlobal value 1).
Proof.
  intros Hinv. destruct (no_wrapper_of_fresh st Hinv) as [Hnone Hzero].
  eexists. split; [reflexivity|].
  set (x := Safe.next_global st) in *. set (ws := Safe.wrappers st) in *.
  split; [|split; [|split]].
  - constructor; cbn.
    + intros y g. rewrite count_refs_new.
      destruct (decide (x = y)) as [<-|Hne].
      * rewrite lookup_insert_eq, bool_decide_eq_true_2 by done.
        intros [= <-]. cbn. fold ws. lia.
      * rewrite lookup_insert_ne, bool_decide_eq_false_2 by done.
        intros Hg. rewrite (Safe.inv_count _ Hinv y g Hg). fold ws. lia.
    + intros i s. unfold Safe.live_wrapper. cbn.
      destruct (decide (i < length ws)) as [Hlt|Hge].
      * rewrite lookup_app_l by done. intros Hs.
        destruct (Safe.inv_live _ Hinv i s Hs) as (y & Hy & Hg).
        exists y. split; [done|].
        destruct (decide (x = y)) as [<-|Hne];
          [rewrite lookup_insert_eq; eauto|by rewrite lookup_insert_ne].
      * rewrite lookup_app_r by lia.
        destruct (i - length ws) as [|k]; cbn; [|by destruct k].
        intros [= <-]. exists x. cbn. rewrite lookup_insert_eq. eauto.
    + intros y Hy. destruct (Safe.inv_tasks _ Hinv y Hy) as [[g Hg] Hc].
      assert (x ≠ y) by congruence.
      rewrite lookup_insert_ne, count_refs_new, bool_decide_eq_false_2 by done.
      fold ws in Hc. split; [eauto|lia].
    + apply (Safe.inv_nodup _ Hinv).
    + intros y. destruct (decide (x = y)) as [<-|Hne]; [lia|].
      rewrite lookup_insert_ne by done. intros Hy.
      pose proof (Safe.inv_fresh _ Hinv y Hy). fold x in H. lia.
  - constructor; cbn.
    + intros i s Hi. unfold Safe.live_wrapper. cbn. by rewrite lookup_app_l.
    + rewrite length_app. cbn. unfold ws. lia.
    + intros y g g' Hg. assert (x ≠ y) by congruence.
      rewrite lookup_insert_ne by done. congruence.
    + intros y Hy Hg. rewrite lookup_insert_ne; [done|]. fold x in Hy. lia.
    + lia.
    + done.
  - unfold Safe.live_wrapper. cbn. rewrite lookup_app_r by done.
    by rewrite Nat.sub_diag.
  - cbn. by rewrite lookup_insert_eq.
Qed.

Lemma step_copy_inv i st :
  Safe.Inv st →
  ∃ st', Safe.step (Safe.SCopy i) st = Some st'
    ∧ Safe.Inv st' ∧ Safe.Later st st'.
Proof.
  intros Hinv. cbn.
  destruct (Safe.live_wrapper st i) as [other|] eqn:Hother;
    [|eauto using Later_refl].
  destruct (Safe.inv_live _ Hinv i other Hother) as (x & Hx & [g Hg]).
  unfold Safe.SafeV8Function_copy, Safe.AddRef. rewrite Hx. cbn. rewrite Hg. cbn.
  pose proof (count_refs_pos x _ i other (proj1 (live_wrapper_Some _ _ _) Hother) Hx)
    as Hpos.
  eexists. split; [reflexivity|]. split.
  - constructor; cbn.
    + intros y g'. rewrite count_refs_new.
      destruct (decide (x = y)) as [<-|Hne].
      * rewrite lookup_insert_eq, bool_decide_eq_true_2 by done.
        intros [= <-]. cbn. rewrite (Safe.inv_count _ Hinv x g Hg). lia.
      * rewrite lookup_insert_ne, bool_decide_eq_false_2 by done.
        intros Hg'. rewrite (Safe.inv_count _ Hinv y g' Hg'). lia.
    + intros j s. unfold Safe.live_wrapper. cbn.
      destruct (decide (j < length (Safe.wrappers st))) as [Hlt|Hge].
      * rewrite lookup_app_l by done. intros Hs.
        destruct (Safe.inv_live _ Hinv j s Hs) as (y & Hy & Hgy).
        exists y. split; [done|].
        destruct (decide (x = y)) as [<-|Hne];
          [rewrite lookup_insert_eq; eauto|by rewrite lookup_insert_ne].
      * rewrite lookup_app_r by lia.
        destruct (j - length (Safe.wrappers st)) as [|k]; cbn; [|by destruct k].
        intros [= <-]. exists x. cbn. rewrite lookup_insert_eq. eauto.
    + intros y Hy. destruct (Safe.inv_tasks _ Hinv y Hy) as [[gy Hgy] Hc].
      assert (x ≠ y) by (intros <-; lia).
      rewrite lookup_insert_ne, count_refs_new, bool_decide_eq_false_2 by done.
      split; [eauto|lia].
    + apply (Safe.inv_nodup _ Hinv).
    + intros y Hy. apply (Safe.inv_fresh _ Hinv).
      destruct (decide (x = y)) as [<-|Hne]; [eauto|].
      by rewrite lookup_insert_ne in Hy.
  - constructor; cbn.
    + intros j s Hj. unfold Safe.live_wrapper. cbn. by rewrite lookup_app_l.
    + rewrite length_app. cbn. lia.
    + intros y g1 g2 Hg1.
      destruct (decide (x = y)) as [<-|Hne].
      * rewrite lookup_insert_eq. intros [= <-]. cbn. congruence.
      * rewrite lookup_insert_ne by done. congruence.
    + intros y Hy Hgy. rewrite lookup_insert_ne; [done|]. congruence.
    + lia.
    + done.
Qed.

(** The states a drop can lead to: the count decremented, and then nothing
    more, or the deletion posted to the UI thread, or the object deleted on
    the spot. *)
Lemma drop_outcomes_inv st i s x g n gl tasks rel :
  Safe.Inv st → Safe.live_wrapper st i = Some s →
  Safe.v8_function_ s = Some x → Safe.globals st !! x = Some g →
  Safe.ref_count g = S n →
  (gl = <[x := Safe.mkGlobal (Safe.handle_ g) n]> (Safe.globals st)
   ∧ (tasks = Safe.ui_tasks st ∨ n = 0 ∧ tasks = Safe.ui_tasks st ++ [x]))
  ∨ (n = 0 ∧ gl = delete x (Safe.globals st) ∧ tasks = Safe.ui_tasks st) →
  Safe.Inv (Safe.mkProcess gl (Safe.next_global st)
              (<[i := None]> (Safe.wrappers st))
              (Safe.is_browser_process st) tasks rel)
  ∧ Safe.Later st (Safe.mkProcess gl (Safe.next_global st)
                     (<[i := None]> (Safe.wrappers st))
                     (Safe.is_browser_process st) tasks rel).
Proof.
  intros Hinv Hs Hx Hg Hn Hcase.
  apply live_wrapper_Some in Hs.
  pose proof (Safe.inv_count _ Hinv x g Hg) as Hcx.
  assert (Hcount : ∀ y, Safe.count_refs y (<[i := None]> (Safe.wrappers st))
                        + (if bool_decide (x = y) then 1 else 0)
                        = Safe.count_refs y (Safe.wrappers st)).
  { intros y. rewrite <- (count_refs_drop y _ i (Some s) Hs). cbn. rewrite Hx.
    f_equal. destruct (decide (x = y)) as [->|Hne].
    - by rewrite !bool_decide_eq_true_2.
    - rewrite (bool_decide_eq_false_2 (x = y)) by done.
      by rewrite (bool_decide_eq_false_2 (Some x = Some y)) by congruence. }
  assert (Hqueue : ∀ y, y ∈ Safe.ui_tasks st → x ≠ y).
  { intros y Hy <-. destruct (Safe.inv_tasks _ Hinv x Hy) as [_ Hz]. lia. }
  assert (Hslots : ∀ j s', <[i := None]> (Safe.wrappers st) !! j = Some (Some s') →
            Safe.wrappers st !! j = Some (Some s')).
  { intros j s'. destruct (decide (i = j)) as [<-|Hne].
    - rewrite list_lookup_insert_eq by (by eapply lookup_lt_Some). done.
    - by rewrite list_lookup_insert_ne. }
  assert (Hsub : ∀ y, is_Some (gl !! y) → is_Some (Safe.globals st !! y)).
  { intros y. destruct Hcase as [[-> _]|(_ & -> & _)].
    - destruct (decide (x = y)) as [<-|Hne]; [eauto|by rewrite lookup_insert_ne].
    - destruct (decide (x = y)) as [<-|Hne];
        [by rewrite lookup_delete_eq; intros [? ?]|by rewrite lookup_delete_ne]. }
  split.
  - constructor; cbn.
    + intros y gy Hy. specialize (Hcount y).
      destruct Hcase as [[-> _]|(-> & -> & _)].
      * destruct (decide (x = y)) as [<-|Hne].
        -- rewrite lookup_insert_eq in Hy. injection Hy as <-. cbn.
           rewrite bool_decide_eq_true_2 in Hcount by done. lia.
        -- rewrite lookup_insert_ne in Hy by done.
           rewrite bool_decide_eq_false_2 in Hcount by done.
           rewrite (Safe.inv_count _ Hinv y gy Hy). lia.
      * apply lookup_delete_Some in Hy as [Hne Hy].
        rewrite bool_decide_eq_false_2 in Hcount by done.
        rewrite (Safe.inv_count _ Hinv y gy Hy). lia.
    + intros j s'. rewrite live_wrapper_Some. cbn. intros Hj.
      pose proof (Hslots j s' Hj) as Hj0.
      destruct (Safe.inv_live _ Hinv j s') as (y & Hy & Hgy);
        [by apply live_wrapper_Some|].
      exists y. split; [done|].
      destruct Hcase as [[-> _]|(-> & -> & _)].
      * destruct (decide (x = y)) as [<-|Hne];
          [rewrite lookup_insert_eq; eauto|by rewrite lookup_insert_ne].
      * rewrite lookup_delete_ne; [done|]. intros <-.
        pose proof (count_refs_pos x _ j s' Hj Hy).
        specialize (Hcount x). rewrite bool_decide_eq_true_2 in Hcount by done.
        lia.
    + intros y Hy. specialize (Hcount y).
      destruct Hcase as [[-> [->|[-> ->]]]|(-> & -> & ->)].
      * pose proof (Hqueue y Hy).
        destruct (Safe.inv_tasks _ Hinv y Hy) as [Hgy Hz].
        rewrite lookup_insert_ne by done.
        rewrite bool_decide_eq_false_2 in Hcount by done. split; [done|lia].
      * apply elem_of_app in Hy as [Hy|Hy%list_elem_of_singleton].
        -- pose proof (Hqueue y Hy).
           destruct (Safe.inv_tasks _ Hinv y Hy) as [Hgy Hz].
           rewrite lookup_insert_ne by done.
           rewrite bool_decide_eq_false_2 in Hcount by done. split; [done|lia].
        -- subst y. rewrite lookup_insert_eq.
           rewrite bool_decide_eq_true_2 in Hcount by done. split; [eauto|lia].
      * pose proof (Hqueue y Hy).
        destruct (Safe.inv_tasks _ Hinv y Hy) as [Hgy Hz].
        rewrite lookup_delete_ne by done.
        rewrite bool_decide_eq_false_2 in Hcount by done. split; [done|lia].
    + destruct Hcase as [[_ [->|[_ ->]]]|(_ & _ & ->)];
        try apply (Safe.inv_nodup _ Hinv).
      apply NoDup_app. split; [apply (Safe.inv_nodup _ Hinv)|].
      split; [|apply NoDup_singleton].
      intros y Hy ->%list_elem_of_singleton. by apply (Hqueue x).
    + intros y Hy. by apply (Safe.inv_fresh _ Hinv), Hsub.
  - constructor; cbn.
    + intros j s' _. rewrite !live_wrapper_Some. cbn. apply Hslots.
    + by rewrite length_insert.
    + intros y g1 g2 Hg1 Hg2.
      destruct Hcase as [[-> _]|(_ & -> & _)].
      * destruct (decide (x = y)) as [<-|Hne].
        -- rewrite lookup_insert_eq in Hg2. injection Hg2 as <-. cbn. congruence.
        -- rewrite lookup_insert_ne in Hg2 by done. congruence.
      * apply lookup_delete_Some in Hg2 as [_ Hg2]. congruence.
    + intros y _ Hy. destruct (gl !! y) eqn:Hgl; [|done].
      destruct (Hsub y) as [? ?]; [eauto|congruence].
    + lia.
    + done.
Qed.

Lemma step_drop_shape current i st s x g :
  Safe.Inv st → Safe.live_wrapper st i = Some s →
  Safe.v8_function_ s = Some x → Safe.globals st !! x = Some g →
  ∃ n, Safe.ref_count g = S n
    ∧ Safe.step (Safe.SDrop current i) st
      = Some
          (if bool_decide (n = 0)
           then if Safe.is_browser_process st
                   && negb (Safe.CurrentlyOn Safe.UI current)
                then Safe.mkProcess
                       (<[x := Safe.mkGlobal (Safe.handle_ g) n]> (Safe.globals st))
                       (Safe.next_global st) (<[i := None]> (Safe.wrappers st))
                       (Safe.is_browser_process st) (Safe.ui_tasks st ++ [x])
                       (Safe.released st)
                else Safe.mkProcess
                       (delete x (Safe.globals st))
                       (Safe.next_global st) (<[i := None]> (Safe.wrappers st))
                       (Safe.is_browser_process st) (Safe.ui_tasks st)
                       (Safe.released st ++ [(x, current)])
           else Safe.mkProcess
                  (<[x := Safe.mkGlobal (Safe.handle_ g) n]> (Safe.globals st))
                  (Safe.next_global st) (<[i := None]> (Safe.wrappers st))
                  (Safe.is_browser_process st) (Safe.ui_tasks st)
                  (Safe.released st)).
Proof.
  intros Hinv Hs Hx Hg.
  pose proof (Safe.inv_count _ Hinv x g Hg) as Hc.
  pose proof (count_refs_pos x _ i s (proj1 (live_wrapper_Some _ _ _) Hs) Hx).
  destruct (Safe.ref_count g) as [|n] eqn:Hn; [lia|].
  exists n. split; [done|].
  cbn [Safe.step]. rewrite Hs.
  unfold Safe.SafeV8Function_destroy, Safe.Release. rewrite Hx, Hg. cbn [mbind option_bind].
  rewrite Hn. unfold Safe.Destruct, Safe.delete_global, Safe.DeleteSoon.
  cbn [Safe.is_browser_process Safe.set_globals Safe.globals].
  destruct (bool_decide (n = 0)); [|done].
  destruct (Safe.is_browser_process st && negb (Safe.CurrentlyOn Safe.UI current));
    [done|].
  rewrite lookup_insert_eq. cbn. by rewrite delete_insert_eq.
Qed.

Lemma step_drop_inv current i st :
  Safe.Inv st →
  ∃ st', Safe.step (Safe.SDrop current i) st = Some st'
    ∧ Safe.Inv st' ∧ Safe.Later st st'.
Proof.
  intros Hinv.
  destruct (Safe.live_wrapper st i) as [s|] eqn:Hs.
  - destruct (Safe.inv_live _ Hinv i s Hs) as (x & Hx & [g Hg]).
    destruct (step_drop_shape current i st s x g Hinv Hs Hx Hg) as (n & Hn & ->).
    eexists. split; [reflexivity|].
    case_bool_decide as Hz.
    + destruct (Safe.is_browser_process st
                && negb (Safe.CurrentlyOn Safe.UI current));
        eapply drop_outcomes_inv; eauto 10.
    + eapply drop_outcomes_inv; eauto 10.
  - cbn. rewrite Hs. eauto using Later_refl.
Qed.

Lemma step_run_ui_inv st :
  Safe.Inv st →
  ∃ st', Safe.step Safe.SRunUI st = Some st'
    ∧ Safe.Inv st' ∧ Safe.Later st st'
    ∧ Safe.ui_tasks st' = tail (Safe.ui_tasks st)
    ∧ Safe.released st'
      = Safe.released st
        ++ match Safe.ui_tasks st with [] => [] | x :: _ => [(x, Safe.UI)] end
    ∧ Safe.globals st'
      = match Safe.ui_tasks st with
        | [] => Safe.globals st
        | x :: _ => delete x (Safe.globals st)
        end.
Proof.
  intros Hinv. cbn [Safe.step].
  destruct (Safe.ui_tasks st) as [|x rest] eqn:Hq.
  - exists st. rewrite Hq, app_nil_r. eauto 10 using Later_refl.
  - destruct (Safe.inv_tasks _ Hinv x) as [[g Hg] Hzero];
      [rewrite Hq; apply elem_of_cons; auto|].
    pose proof (Safe.inv_nodup _ Hinv) as Hnd. rewrite Hq in Hnd.
    apply NoDup_cons in Hnd as [Hnotin Hnd].
    unfold Safe.delete_global. cbn. rewrite Hg. cbn.
    eexists. split; [reflexivity|]. cbn.
    split; [|split; [|done]].
    + constructor; cbn.
      * intros y gy [Hne Hy]%lookup_delete_Some.
        apply (Safe.inv_count _ Hinv y gy Hy).
      * intros j s Hj. destruct (Safe.inv_live _ Hinv j s Hj) as (y & Hy & Hgy).
        exists y. split; [done|]. rewrite lookup_delete_ne; [done|]. intros <-.
        pose proof (count_refs_pos x _ j s (proj1 (live_wrapper_Some _ _ _) Hj) Hy)
          as Hpos.
        cbn in Hpos. lia.
      * intros y Hy. destruct (Safe.inv_tasks _ Hinv y) as [Hgy Hz];
          [rewrite Hq; apply elem_of_cons; auto|].
        rewrite lookup_delete_ne; [done|]. by intros <-.
      * done.
      * intros y [gy [_ Hy]%lookup_delete_Some].
        apply (Safe.inv_fresh _ Hinv). eauto.
    + constructor; cbn; auto.
      * intros y g1 g2 Hg1 [_ Hg2]%lookup_delete_Some. congruence.
      * intros y _ Hy. destruct (decide (x = y)) as [<-|Hne];
          [by rewrite lookup_delete_eq|by rewrite lookup_delete_ne].
Qed.

Lemma step_inv a st :
  Safe.Inv st →
  ∃ st', Safe.step a st = Some st' ∧ Safe.Inv st' ∧ Safe.Later st st'.
Proof.
  intros Hinv. destruct a as [value|i|current i|].
  - destruct (step_new_inv value st Hinv) as (st' & ? & ? & ? & _). eauto.
  - by apply step_copy_inv.
  - by apply step_drop_inv.
  - destruct (step_run_ui_inv st Hinv) as (st' & ? & ? & ? & _). eauto.
Qed.

Lemma steps_inv l : ∀ st,
  Safe.Inv st →
  ∃ st', Safe.steps l st = Some st' ∧ Safe.Inv st' ∧ Safe.Later st st'.
Proof.
  induction l as [|a l IH]; intros st Hinv; cbn.
  - eauto using Later_refl.
  - destruct (step_inv a st Hinv) as (st1 & -> & Hinv1 & L1). cbn.
    destruct (IH st1 Hinv1) as (st2 & -> & Hinv2 & L2).
    eauto using Later_trans.
Qed.

Lemma start_inv browser : Safe.Inv (Safe.start browser).
Proof.
  constructor; cbn; try done.
  - intros x Hx. by apply elem_of_nil in Hx.
  - constructor.
  - intros x [g Hg]. done.
Qed.

Lemma reachable_inv st : Safe.reachable st → Safe.Inv st.
Proof.
  intros (browser & l & Hl).
  destruct (steps_inv l _ (start_inv browser)) as (st' & Hst' & Hinv & _).
  congruence.
Qed.

(** C7: a wrapper constructed from the reference [value] answers, right
    after its construction and after any further steps of the process for as
    long as it exists: [IsAlive] is true when [value] referred to a host
    value and false when the handle is empty, never changing; [NewHandle]
    returns [value] itself, that is the wrapped value when [IsAlive] is true
    and the empty reference when it is false.  The same relation between
    [IsAlive] and [NewHandle] holds for every wrapper of a reachable state,
    copies included. *)
Theorem safe_function_alive_and_handle st value l st' s :
  Safe.reachable st →
  Safe.steps (Safe.SNew value :: l) st = Some st' →
  Safe.live_wrapper st' (length (Safe.wrappers st)) = Some s →
  Safe.IsAlive s st'
  = Some (match value with Some _ => true | None => false end)
  ∧ Safe.NewHandle s st' = Some value
  ∧ (Safe.IsAlive s st' = Some false → Safe.NewHandle s st' = Some None)
  ∧ (Safe.IsAlive s st' = Some true →
     ∃ v, value = Some v ∧ Safe.NewHandle s st' = Some (Some v))
  ∧ ∀ j s2, Safe.live_wrapper st' j = Some s2 →
      ∃ h, Safe.NewHandle s2 st' = Some h
        ∧ Safe.IsAlive s2 st'
          = Some (match h with Some _ => true | None => false end).
Proof.
  intros Hreach Hsteps Hs. pose proof (reachable_inv _ Hreach) as Hinv.
  cbn [Safe.steps] in Hsteps.
  destruct (step_new_inv value st Hinv) as (st1 & Hnew & Hinv1 & _ & Hs1 & Hg1).
  rewrite Hnew in Hsteps. cbn in Hsteps.
  destruct (steps_inv l st1 Hinv1) as (st2 & Hst2 & Hinv' & L).
  assert (st2 = st') as -> by congruence.
  assert (Hlt : length (Safe.wrappers st) < length (Safe.wrappers st1)).
  { apply live_wrapper_Some in Hs1. by apply lookup_lt_Some in Hs1. }
  pose proof (Safe.later_slots _ _ L _ s Hlt Hs) as Hs1'.
  assert (s = Safe.mkSafe (Some (Safe.next_global st))) as -> by congruence.
  destruct (Safe.inv_live _ Hinv' _ _ Hs) as (x & Hx & [g' Hg']).
  cbn in Hx. injection Hx as <-.
  pose proof (Safe.later_handle _ _ L _ _ _ Hg1 Hg') as Hhandle. cbn in Hhandle.
  assert (Halive : Safe.IsAlive (Safe.mkSafe (Some (Safe.next_global st))) st'
                   = Some (match value with Some _ => true | None => false end)).
  { unfold Safe.IsAlive. cbn. rewrite Hg'. cbn.
    unfold Safe.RefCountedGlobal_IsAlive. rewrite Hhandle. by destruct value. }
  assert (Hnewh : Safe.NewHandle (Safe.mkSafe (Some (Safe.next_global st))) st'
                  = Some value).
  { unfold Safe.NewHandle. cbn. rewrite Hg'. cbn.
    unfold Safe.RefCountedGlobal_NewHandle. by rewrite Hhandle. }
  split; [done|]. split; [done|]. split; [|split].
  - rewrite Halive, Hnewh. by destruct value.
  - rewrite Halive, Hnewh. destruct value as [v|]; [eauto|done].
  - intros j s2 Hs2.
    destruct (Safe.inv_live _ Hinv' _ _ Hs2) as (y & Hy & [gy Hgy]).
    exists (Safe.handle_ gy). unfold Safe.NewHandle, Safe.IsAlive.
    rewrite Hy. cbn. rewrite Hgy. cbn.
    unfold Safe.RefCountedGlobal_NewHandle, Safe.RefCountedGlobal_IsAlive.
    split; [done|]. by destruct (Safe.handle_ gy).
Qed.

Lemma safe_function_alive_and_handle_witness :
  Safe.IsAlive (Safe.mkSafe (Some 0))
    (default (Safe.start true)
       (Safe.steps [Safe.SNew (Some (VFunction 7)); Safe.SCopy 0;
                    Safe.SDrop Safe.IO 1] (Safe.start true)))
  = Some true
  ∧ Safe.NewHandle (Safe.mkSafe (Some 0))
      (default (Safe.start true)
         (Safe.steps [Safe.SNew (Some (VFunction 7)); Safe.SCopy 0;
                      Safe.SDrop Safe.IO 1] (Safe.start true)))
    = Some (Some (VFunction 7)).
Proof.
  destruct (safe_function_alive_and_handle (Safe.start true)
              (Some (VFunction 7)) [Safe.SCopy 0; Safe.SDrop Safe.IO 1]
              (default (Safe.start true)
                 (Safe.steps [Safe.SNew (Some (VFunction 7)); Safe.SCopy 0;
                              Safe.SDrop Safe.IO 1] (Safe.start true)))
              (Safe.mkSafe (Some 0)))
    as (Halive & Hhandle & _).
  - exists true, []. reflexivity.
  - vm_compute. reflexivity.
  - vm_compute. reflexivity.
  - split; [exact Halive|exact Hhandle].
Defined.

(** The UI thread runs every deletion posted to it. *)
Lemma drain_ui_tasks n : ∀ st,
  Safe.Inv st → length (Safe.ui_tasks st) = n →
  ∃ st', Safe.steps (replicate n Safe.SRunUI) st = Some st'
    ∧ Safe.Inv st' ∧ Safe.Later st st'
    ∧ Safe.ui_tasks st' = []
    ∧ Safe.released st'
      = Safe.released st ++ map (λ y, (y, Safe.UI)) (Safe.ui_tasks st)
    ∧ ∀ y, y ∈ Safe.ui_tasks st → Safe.globals st' !! y = None.
Proof.
  induction n as [|n IH]; intros st Hinv Hlen.
  - apply nil_length_inv in Hlen. exists st. rewrite Hlen, app_nil_r. cbn.
    split; [done|]. split; [done|]. split; [apply Later_refl|].
    split; [done|]. split; [done|]. intros y Hy. by apply elem_of_nil in Hy.
  - destruct (step_run_ui_inv st Hinv) as (st1 & Hstep & Hinv1 & L1 & Hq1 & Hr1 & Hg1).
    destruct (Safe.ui_tasks st) as [|x rest] eqn:Hq; [done|].
    cbn in Hlen, Hq1. injection Hlen as Hlen.
    destruct (IH st1 Hinv1) as (st' & Hsteps & Hinv' & L' & Hq' & Hr' & Hg');
      [by rewrite Hq1|].
    exists st'. cbn [replicate Safe.steps]. rewrite Hstep. cbn.
    split; [done|]. split; [done|]. split; [by eapply Later_trans|].
    split; [done|]. split.
    + rewrite Hr', Hr1, Hq1. cbn. by rewrite <- app_assoc.
    + intros y [->|Hy]%elem_of_cons.
      * destruct (Safe.inv_tasks _ Hinv x) as [Hgx _];
          [rewrite Hq; apply elem_of_cons; auto|].
        apply (Safe.later_gone _ _ L').
        -- pose proof (Safe.later_next _ _ L1).
           pose proof (Safe.inv_fresh _ Hinv x Hgx). lia.
        -- by rewrite Hg1, lookup_delete_eq.
      * apply Hg'. by rewrite Hq1.
Qed.

(** C8: the last holder of a ref-counted global is dropped on thread
    [current].  In the browser process and off the UI thread, the object is
    not deleted by the drop: its deletion is posted to the UI thread, and
    it is the UI thread that deletes it when it runs the tasks posted to
    it.  On the UI thread, or outside the browser process, the object is
    deleted by the drop itself, on the dropping thread, and nothing is
    posted. *)
Theorem last_drop_released_on_owner_thread st i s x g current :
  Safe.reachable st →
  Safe.live_wrapper st i = Some s → Safe.v8_function_ s = Some x →
  Safe.globals st !! x = Some g → Safe.ref_count g = 1 →
  ∃ st',
    Safe.step (Safe.SDrop current i) st = Some st'
    ∧ if Safe.is_browser_process st && negb (Safe.CurrentlyOn Safe.UI current)
      then
        Safe.globals st' !! x = Some (Safe.mkGlobal (Safe.handle_ g) 0)
        ∧ Safe.ui_tasks st' = Safe.ui_tasks st ++ [x]
        ∧ Safe.released st' = Safe.released st
        ∧ ∃ st'',
            Safe.steps (replicate (length (Safe.ui_tasks st')) Safe.SRunUI) st'
            = Some st''
            ∧ Safe.globals st'' !! x = None
            ∧ Safe.released st''
              = Safe.released st
                ++ map (λ y, (y, Safe.UI)) (Safe.ui_tasks st ++ [x])
      else
        Safe.globals st' !! x = None
        ∧ Safe.ui_tasks st' = Safe.ui_tasks st
        ∧ Safe.released st' = Safe.released st ++ [(x, current)].
Proof.
  intros Hreach Hs Hx Hg Hone. pose proof (reachable_inv _ Hreach) as Hinv.
  destruct (step_drop_inv current i st Hinv) as (st' & Hstep & Hinv' & _).
  destruct (step_drop_shape current i st s x g Hinv Hs Hx Hg) as (n & Hn & Hshape).
  assert (n = 0) as -> by lia.
  rewrite Hshape in Hstep. rewrite bool_decide_eq_true_2 in Hstep by done.
  exists st'. split; [by rewrite Hshape, bool_decide_eq_true_2|].
  destruct (Safe.is_browser_process st && negb (Safe.CurrentlyOn Safe.UI current));
    injection Hstep as <-; cbn.
  - rewrite lookup_insert_eq. split; [done|]. split; [done|]. split; [done|].
    destruct (drain_ui_tasks _ _ Hinv' eq_refl)
      as (st'' & Hsteps & _ & _ & _ & Hr & Hgone).
    exists st''. cbn in Hsteps, Hr, Hgone.
    split; [done|]. split; [|done].
    apply Hgone, elem_of_app. right. by apply list_elem_of_singleton.
  - by rewrite lookup_delete_eq.
Qed.

Lemma last_drop_released_on_owner_thread_witness :
  ∃ st',
    Safe.step (Safe.SDrop Safe.IO 0)
      (default (Safe.start true)
         (Safe.steps [Safe.SNew (Some (VFunction 7))] (Safe.start true)))
    = Some st'
    ∧ Safe.ui_tasks st' = [0]
    ∧ Safe.released st' = [].
Proof.
  destruct (last_drop_released_on_owner_thread
              (default (Safe.start true)
                 (Safe.steps [Safe.SNew (Some (VFunction 7))] (Safe.start true)))
              0 (Safe.mkSafe (Some 0)) 0 (Safe.mkGlobal (Some (VFunction 7)) 1)
              Safe.IO)
    as (st' & Hstep & Hcase).
  - exists true, [Safe.SNew (Some (VFunction 7))]. reflexivity.
  - vm_compute; reflexivity.
  - vm_compute; reflexivity.
  - vm_compute; reflexivity.
  - vm_compute; reflexivity.
  - exists st'. split; [exact Hstep|].
    cbn in Hcase. destruct Hcase as (_ & Hq & Hr & _). by split.
Defined.

(** * Further properties of the ref-counted handle *)

Lemma steps_app l1 l2 st :
  Safe.steps (l1 ++ l2) st = st1 ← Safe.steps l1 st; Safe.steps l2 st1.
Proof.
  revert st. induction l1 as [|a l1 IH]; intros st; cbn; [done|].
  destruct (Safe.step a st) as [st1|]; cbn; [apply IH|done].
Qed.

Lemma CurrentlyOn_UI current :
  Safe.CurrentlyOn Safe.UI current = true → current = Safe.UI.
Proof. by destruct current. Qed.

Lemma released_snoc (rel : list (nat * Safe.Thread)) x t y :
  y ∈ (rel ++ [(x, t)]).*1 ↔ y ∈ rel.*1 ∨ y = x.
Proof.
  rewrite fmap_app, elem_of_app. cbn. by rewrite list_elem_of_singleton.
Qed.

Lemma count_refs_held x ws :
  0 < Safe.count_refs x ws →
  ∃ i s, ws !! i = Some (Some s) ∧ Safe.v8_function_ s = Some x.
Proof.
  induction ws as [|slot ws IH]; cbn; [lia|].
  destruct slot as [s|]; cbn.
  - case_bool_decide as Hs.
    + intros _. by exists 0, s.
    + intros Hpos. destruct IH as (i & s' & Hi & Hs'); [lia|]. by exists (S i), s'.
  - intros Hpos. destruct IH as (i & s' & Hi & Hs'); [lia|]. by exists (S i), s'.
Qed.

(** Deleting [x] on thread [t], [x] being on the heap and, in the browser
    process, [t] being the UI thread. *)
Lemma tidy_delete st x t wrappers' tasks' :
  Safe.Inv st → Tidy st → is_Some (Safe.globals st !! x) →
  (Safe.is_browser_process st = true → t = Safe.UI) →
  (Safe.is_browser_process st = false → tasks' = []) →
  (∀ y, y ≠ x → y ∈ Safe.ui_tasks st → y ∈ tasks') →
  Tidy (Safe.mkProcess (delete x (Safe.globals st)) (Safe.next_global st)
          wrappers' (Safe.is_browser_process st) tasks'
          (Safe.released st ++ [(x, t)])).
Proof.
  intros Hinv Ht Hx Hui Hq Hkeep. constructor; cbn.
  - intros Hb y t' [Hin|Hin%list_elem_of_singleton]%elem_of_app.
    + by apply (tidy_ui _ Ht Hb y).
    + injection Hin as -> ->. by apply Hui.
  - done.
  - rewrite fmap_app. apply NoDup_app. split; [apply (tidy_once _ Ht)|].
    split; [|apply NoDup_singleton].
    intros y Hy ->%list_elem_of_singleton.
    destruct (tidy_gone _ Ht x Hy) as [Hnone _]. rewrite Hnone in Hx.
    by destruct Hx.
  - intros y [Hy| ->]%released_snoc.
    + destruct (tidy_gone _ Ht y Hy) as [Hnone Hlt]. split; [|done].
      destruct (decide (x = y)) as [<-|Hne];
        [by rewrite lookup_delete_eq|by rewrite lookup_delete_ne].
    + split; [by rewrite lookup_delete_eq|by apply (Safe.inv_fresh _ Hinv)].
  - intros y g [Hne Hy]%lookup_delete_Some Hz.
    apply Hkeep; [done|]. by apply (tidy_zero _ Ht y g).
Qed.

(** Replacing the entry of [x] on the heap, the new count being zero only
    when [x] is queued afterwards. *)
Lemma tidy_update st x g' next' wrappers' tasks' :
  Tidy st → Safe.next_global st ≤ next' →
  (x < Safe.next_global st → is_Some (Safe.globals st !! x)) →
  (Safe.ref_count g' = 0 → x ∈ tasks') →
  (Safe.is_browser_process st = false → tasks' = []) →
  (∀ y, y ∈ Safe.ui_tasks st → y ∈ tasks') →
  Tidy (Safe.mkProcess (<[x := g']> (Safe.globals st)) next'
          wrappers' (Safe.is_browser_process st) tasks' (Safe.released st)).
Proof.
  intros Ht Hnext Hx Hzero Hq Hkeep. constructor; cbn.
  - apply (tidy_ui _ Ht).
  - done.
  - apply (tidy_once _ Ht).
  - intros y Hy. destruct (tidy_gone _ Ht y Hy) as [Hnone Hlt]. split; [|lia].
    rewrite lookup_insert_ne; [done|]. intros ->.
    destruct (Hx Hlt) as [? ?]. congruence.
  - intros y g. destruct (decide (x = y)) as [<-|Hne].
    + rewrite lookup_insert_eq. intros [= <-]. done.
    + rewrite lookup_insert_ne by done. intros Hy Hz.
      apply Hkeep. by apply (tidy_zero _ Ht y g).
Qed.

Lemma step_tidy a st st' :
  Safe.Inv st → Tidy st → Safe.step a st = Some st' → Tidy st'.
Proof.
  intros Hinv Ht. destruct a as [value|i|current i|].
  - cbn. intros [= <-].
    destruct (no_wrapper_of_fresh st Hinv) as [Hnone _].
    apply (tidy_update st); cbn; try done; [lia|lia|apply (tidy_queue _ Ht)].
  - cbn. destruct (Safe.live_wrapper st i) as [other|] eqn:Hother;
      [|by intros [= <-]].
    destruct (Safe.inv_live _ Hinv i other Hother) as (x & Hx & [g Hg]).
    unfold Safe.SafeV8Function_copy, Safe.AddRef. rewrite Hx. cbn. rewrite Hg. cbn.
    intros [= <-].
    apply (tidy_update st); cbn; try done. apply (tidy_queue _ Ht).
  - destruct (Safe.live_wrapper st i) as [s|] eqn:Hs;
      [|by cbn; rewrite Hs; intros [= <-]].
    destruct (Safe.inv_live _ Hinv i s Hs) as (x & Hx & [g Hg]).
    destruct (step_drop_shape current i st s x g Hinv Hs Hx Hg) as (n & Hn & ->).
    destruct (bool_decide (n = 0)) eqn:Hz.
    + destruct (Safe.is_browser_process st
                && negb (Safe.CurrentlyOn Safe.UI current)) eqn:Hcond;
        intros [= <-].
      * apply andb_true_iff in Hcond as [Hb Hon].
        apply (tidy_update st); eauto.
        -- intros _. apply elem_of_app. right. by apply list_elem_of_singleton.
        -- congruence.
        -- intros y Hy. apply elem_of_app. by left.
      * apply (tidy_delete st); eauto.
        -- intros Hb. rewrite Hb in Hcond. cbn [andb] in Hcond.
           apply CurrentlyOn_UI. by destruct (Safe.CurrentlyOn Safe.UI current).
        -- apply (tidy_queue _ Ht).
    + apply bool_decide_eq_false in Hz. intros [= <-].
      apply (tidy_update st); eauto; [done|apply (tidy_queue _ Ht)].
  - cbn. destruct (Safe.ui_tasks st) as [|x rest] eqn:Hq; [by intros [= <-]|].
    destruct (Safe.inv_tasks _ Hinv x) as [[g Hg] _];
      [rewrite Hq; apply elem_of_cons; auto|].
    unfold Safe.delete_global. cbn. rewrite Hg. cbn. intros [= <-].
    assert (Hb : Safe.is_browser_process st = true).
    { destruct (Safe.is_browser_process st) eqn:Hb; [done|].
      pose proof (tidy_queue _ Ht Hb). congruence. }
    apply (tidy_delete st); eauto; [congruence|].
    intros y Hne. rewrite Hq. intros [->|Hy]%elem_of_cons; done.
Qed.

Lemma steps_tidy l : ∀ st st',
  Safe.Inv st → Tidy st → Safe.steps l st = Some st' → Tidy st'.
Proof.
  induction l as [|a l IH]; intros st st' Hinv Ht; cbn.
  - by intros [= <-].
  - destruct (step_inv a st Hinv) as (st1 & Hst1 & Hinv1 & _).
    rewrite Hst1. cbn. apply IH; [done|]. exact (step_tidy a st st1 Hinv Ht Hst1).
Qed.

Lemma start_tidy browser : Tidy (Safe.start browser).
Proof.
  constructor; cbn; try done.
  - intros _ x t Hx. by apply elem_of_nil in Hx.
  - constructor.
  - intros x Hx. by apply elem_of_nil in Hx.
Qed.

Lemma reachable_tidy st : Safe.reachable st → Tidy st.
Proof.
  intros (browser & l & Hl).
  by apply (steps_tidy l _ _ (start_inv browser) (start_tidy browser)).
Qed.

(** X1: from a state the process can reach, no sequence of constructions,
    copies, destructions (on whatever thread) and runs of the UI thread's
    queue is undefined: no count is decremented below zero, no object is
    deleted twice and none is used after its deletion.  The state reached is
    again one the process can reach. *)
Theorem handle_operations_never_undefined st l :
  Safe.reachable st →
  ∃ st', Safe.steps l st = Some st' ∧ Safe.reachable st'.
Proof.
  intros Hr. pose proof (reachable_inv st Hr) as Hinv.
  destruct (steps_inv l st Hinv) as (st' & Hst' & _).
  exists st'. split; [done|]. destruct Hr as (browser & l0 & Hl0).
  exists browser, (l0 ++ l). by rewrite steps_app, Hl0.
Qed.

Lemma handle_operations_never_undefined_witness :
  ∃ st', Safe.steps [Safe.SNew (Some (VFunction 7)); Safe.SDrop Safe.IO 0;
                     Safe.SDrop Safe.IO 0; Safe.SCopy 0; Safe.SRunUI;
                     Safe.SRunUI]
           (Safe.start true) = Some st'
    ∧ Safe.reachable st'.
Proof.
  apply (handle_operations_never_undefined (Safe.start true)).
  exists true, []. reflexivity.
Defined.

(** X2: a wrapper that exists never dangles.  Its pointer is not null, the
    object it points to is on the heap, the object's count is the number of
    wrappers pointing to it and is at least one, and the object is neither
    queued for deletion nor deleted. *)
Theorem wrapper_never_dangles st i s :
  Safe.reachable st → Safe.live_wrapper st i = Some s →
  ∃ x g, Safe.v8_function_ s = Some x ∧ Safe.globals st !! x = Some g
    ∧ Safe.ref_count g = Safe.count_refs x (Safe.wrappers st)
    ∧ 0 < Safe.ref_count g
    ∧ (x ∉ Safe.ui_tasks st)
    ∧ (x ∉ (Safe.released st).*1).
Proof.
  intros Hr Hs. pose proof (reachable_inv st Hr) as Hinv.
  pose proof (reachable_tidy st Hr) as Ht.
  destruct (Safe.inv_live _ Hinv i s Hs) as (x & Hx & [g Hg]).
  pose proof (Safe.inv_count _ Hinv x g Hg) as Hc.
  pose proof (count_refs_pos x _ i s (proj1 (live_wrapper_Some _ _ _) Hs) Hx)
    as Hpos.
  exists x, g. repeat split; try done; [lia| |].
  - intros Hq. destruct (Safe.inv_tasks _ Hinv x Hq) as [_ Hz]. lia.
  - intros Hrel. destruct (tidy_gone _ Ht x Hrel) as [Hnone _]. congruence.
Qed.

Lemma wrapper_never_dangles_witness :
  ∃ x g, Safe.v8_function_ (Safe.mkSafe (Some 0)) = Some x
    ∧ Safe.globals
        (default (Safe.start true)
           (Safe.steps [Safe.SNew (Some (VFunction 7)); Safe.SCopy 0]
              (Safe.start true))) !! x = Some g
    ∧ Safe.ref_count g = 2.
Proof.
  destruct (wrapper_never_dangles
              (default (Safe.start true)
                 (Safe.steps [Safe.SNew (Some (VFunction 7)); Safe.SCopy 0]
                    (Safe.start true)))
              1 (Safe.mkSafe (Some 0)))
    as (x & g & Hx & Hg & Hc & _).
  - exists true, [Safe.SNew (Some (VFunction 7)); Safe.SCopy 0]. reflexivity.
  - vm_compute; reflexivity.
  - exists x, g. split; [exact Hx|]. split; [exact Hg|].
    injection Hx as <-. exact Hc.
Defined.

(** X3: copying a wrapper and destroying the copy, on whatever thread,
    is a round trip: the copy points to the same object as the original, and
    once it is destroyed the heap, the counts, the UI thread's queue and the
    log of deletions are what they were before the copy. *)
Theorem copy_then_drop_restores st i s current :
  Safe.reachable st → Safe.live_wrapper st i = Some s →
  ∃ st1 st2, Safe.step (Safe.SCopy i) st = Some st1
    ∧ Safe.live_wrapper st1 (length (Safe.wrappers st)) = Some s
    ∧ Safe.step (Safe.SDrop current (length (Safe.wrappers st))) st1 = Some st2
    ∧ Safe.globals st2 = Safe.globals st
    ∧ Safe.wrappers st2 = Safe.wrappers st ++ [None]
    ∧ Safe.ui_tasks st2 = Safe.ui_tasks st
    ∧ Safe.released st2 = Safe.released st.
Proof.
  intros Hr Hs. pose proof (reachable_inv st Hr) as Hinv.
  destruct (Safe.inv_live _ Hinv i s Hs) as (x & Hx & [g Hg]).
  pose proof (Safe.inv_count _ Hinv x g Hg) as Hc.
  pose proof (count_refs_pos x _ i s (proj1 (live_wrapper_Some _ _ _) Hs) Hx)
    as Hpos.
  destruct (step_copy_inv i st Hinv) as (st1 & Hst1 & Hinv1 & _).
  assert (Hshape : st1 = Safe.mkProcess
            (<[x := Safe.mkGlobal (Safe.handle_ g) (S (Safe.ref_count g))]>
               (Safe.globals st))
            (Safe.next_global st)
            (Safe.wrappers st ++ [Some (Safe.mkSafe (Some x))])
            (Safe.is_browser_process st) (Safe.ui_tasks st) (Safe.released st)).
  { revert Hst1. cbn. rewrite Hs.
    unfold Safe.SafeV8Function_copy, Safe.AddRef. rewrite Hx. cbn. rewrite Hg.
    cbn. by intros [= <-]. }
  assert (Hcopy : Safe.live_wrapper st1 (length (Safe.wrappers st)) = Some s).
  { rewrite Hshape. unfold Safe.live_wrapper. cbn.
    rewrite lookup_app_r, Nat.sub_diag by done. cbn.
    destruct s as [p]. cbn in Hx. by rewrite Hx. }
  assert (Hg1 : Safe.globals st1 !! x
                = Some (Safe.mkGlobal (Safe.handle_ g) (S (Safe.ref_count g)))).
  { rewrite Hshape. cbn. by rewrite lookup_insert_eq. }
  destruct (step_drop_shape current (length (Safe.wrappers st)) st1 s x _
              Hinv1 Hcopy Hx Hg1) as (n & Hn & Hdrop).
  cbn in Hn. injection Hn as <-.
  rewrite bool_decide_eq_false_2 in Hdrop by lia.
  exists st1. eexists. split; [done|]. split; [done|]. split; [exact Hdrop|].
  rewrite Hshape. cbn. split; [|split; [|done]].
  - rewrite insert_insert_eq. apply insert_id. rewrite Hg. by destruct g.
  - rewrite insert_app_r_alt, Nat.sub_diag by done. done.
Qed.

Lemma copy_then_drop_restores_witness :
  ∃ st1 st2,
    Safe.step (Safe.SCopy 0)
      (default (Safe.start true)
         (Safe.steps [Safe.SNew (Some (VFunction 7))] (Safe.start true)))
    = Some st1
    ∧ Safe.step (Safe.SDrop Safe.IO 1) st1 = Some st2
    ∧ Safe.globals st2
      = Safe.globals
          (default (Safe.start true)
             (Safe.steps [Safe.SNew (Some (VFunction 7))] (Safe.start true)))
    ∧ Safe.released st2 = [].
Proof.
  destruct (copy_then_drop_restores
              (default (Safe.start true)
                 (Safe.steps [Safe.SNew (Some (VFunction 7))] (Safe.start true)))
              0 (Safe.mkSafe (Some 0)) Safe.IO)
    as (st1 & st2 & Hcopy & _ & Hdrop & Hheap & _ & _ & Hrel).
  - exists true, [Safe.SNew (Some (VFunction 7))]. reflexivity.
  - vm_compute; reflexivity.
  - exists st1, st2. split; [exact Hcopy|]. split; [exact Hdrop|].
    split; [exact Hheap|exact Hrel].
Defined.

(** X4: destroying a wrapper that is not the last one pointing to its
    object only decrements the count, on whatever thread and in whatever
    process: nothing is deleted and nothing is posted to the UI thread, and
    every other wrapper stays as it is and answers [IsAlive] and [NewHandle]
    as before. *)
Theorem non_last_drop_keeps_object st i s x g current :
  Safe.reachable st → Safe.live_wrapper st i = Some s →
  Safe.v8_function_ s = Some x → Safe.globals st !! x = Some g →
  1 < Safe.ref_count g →
  ∃ st', Safe.step (Safe.SDrop current i) st = Some st'
    ∧ Safe.globals st' !! x
      = Some (Safe.mkGlobal (Safe.handle_ g) (Safe.ref_count g - 1))
    ∧ Safe.live_wrapper st' i = None
    ∧ Safe.ui_tasks st' = Safe.ui_tasks st
    ∧ Safe.released st' = Safe.released st
    ∧ ∀ j s', j ≠ i → Safe.live_wrapper st j = Some s' →
        Safe.live_wrapper st' j = Some s'
        ∧ Safe.IsAlive s' st' = Safe.IsAlive s' st
        ∧ Safe.NewHandle s' st' = Safe.NewHandle s' st.
Proof.
  intros Hr Hs Hx Hg Hcount. pose proof (reachable_inv st Hr) as Hinv.
  destruct (step_drop_shape current i st s x g Hinv Hs Hx Hg) as (n & Hn & Hdrop).
  rewrite bool_decide_eq_false_2 in Hdrop by lia.
  eexists. split; [exact Hdrop|]. cbn.
  split; [rewrite lookup_insert_eq, Hn; do 3 f_equal; lia|].
  split.
  { unfold Safe.live_wrapper. cbn. apply live_wrapper_Some in Hs.
    rewrite list_lookup_insert_eq by (by eapply lookup_lt_Some). done. }
  split; [done|]. split; [done|].
  intros j s' Hne Hj. split; [|split].
  - unfold Safe.live_wrapper in *. cbn. by rewrite list_lookup_insert_ne.
  - unfold Safe.IsAlive. destruct (Safe.v8_function_ s') as [y|]; [|done]. cbn.
    destruct (decide (x = y)) as [<-|Hxy].
    + by rewrite lookup_insert_eq, Hg.
    + by rewrite lookup_insert_ne.
  - unfold Safe.NewHandle. destruct (Safe.v8_function_ s') as [y|]; [|done]. cbn.
    destruct (decide (x = y)) as [<-|Hxy].
    + by rewrite lookup_insert_eq, Hg.
    + by rewrite lookup_insert_ne.
Qed.

Lemma non_last_drop_keeps_object_witness :
  ∃ st',
    Safe.step (Safe.SDrop (Safe.Other 3) 0)
      (default (Safe.start true)
         (Safe.steps [Safe.SNew (Some (VFunction 7)); Safe.SCopy 0]
            (Safe.start true)))
    = Some st'
    ∧ Safe.ui_tasks st' = []
    ∧ Safe.released st' = []
    ∧ Safe.NewHandle (Safe.mkSafe (Some 0)) st' = Some (Some (VFunction 7)).
Proof.
  destruct (non_last_drop_keeps_object
              (default (Safe.start true)
                 (Safe.steps [Safe.SNew (Some (VFunction 7)); Safe.SCopy 0]
                    (Safe.start true)))
              0 (Safe.mkSafe (Some 0)) 0 (Safe.mkGlobal (Some (VFunction 7)) 2)
              (Safe.Other 3))
    as (st' & Hstep & _ & _ & Hq & Hrel & Hothers).
  - exists true, [Safe.SNew (Some (VFunction 7)); Safe.SCopy 0]. reflexivity.
  - vm_compute; reflexivity.
  - vm_compute; reflexivity.
  - vm_compute; reflexivity.
  - vm_compute; lia.
  - exists st'. split; [exact Hstep|]. split; [exact Hq|]. split; [exact Hrel|].
    destruct (Hothers 1 (Safe.mkSafe (Some 0))) as (_ & _ & Hhandle).
    + lia.
    + vm_compute; reflexivity.
    + rewrite Hhandle. vm_compute; reflexivity.
Defined.

(** X5: no object is deleted twice, and a deleted object is off the heap
    and pointed to by no wrapper.  In the browser process every deletion was
    run by the UI thread, whichever threads destroyed the wrappers; outside
    the browser process nothing is ever posted to the UI thread. *)
Theorem deleted_once_and_on_ui_thread st :
  Safe.reachable st →
  NoDup (Safe.released st).*1
  ∧ (∀ x, x ∈ (Safe.released st).*1 →
       Safe.globals st !! x = None
       ∧ ∀ i s, Safe.live_wrapper st i = Some s → Safe.v8_function_ s ≠ Some x)
  ∧ (Safe.is_browser_process st = true →
       ∀ x t, (x, t) ∈ Safe.released st → t = Safe.UI)
  ∧ (Safe.is_browser_process st = false → Safe.ui_tasks st = []).
Proof.
  intros Hr. pose proof (reachable_inv st Hr) as Hinv.
  pose proof (reachable_tidy st Hr) as Ht.
  split; [apply (tidy_once _ Ht)|].
  split; [|split; [apply (tidy_ui _ Ht)|apply (tidy_queue _ Ht)]].
  intros x Hx. destruct (tidy_gone _ Ht x Hx) as [Hnone _]. split; [done|].
  intros i s Hs Hsx.
  destruct (Safe.inv_live _ Hinv i s Hs) as (y & Hy & [g Hg]). congruence.
Qed.

Lemma deleted_once_and_on_ui_thread_witness :
  Safe.released
    (default (Safe.start true)
       (Safe.steps [Safe.SNew (Some (VFunction 7)); Safe.SNew None;
                    Safe.SDrop Safe.IO 0; Safe.SDrop Safe.UI 1; Safe.SRunUI]
          (Safe.start true)))
  = [(1, Safe.UI); (0, Safe.UI)]
  ∧ ∀ x t,
      (x, t) ∈ Safe.released
        (default (Safe.start true)
           (Safe.steps [Safe.SNew (Some (VFunction 7)); Safe.SNew None;
                        Safe.SDrop Safe.IO 0; Safe.SDrop Safe.UI 1; Safe.SRunUI]
              (Safe.start true))) →
      t = Safe.UI.
Proof.
  split; [vm_compute; reflexivity|].
  destruct (deleted_once_and_on_ui_thread
              (default (Safe.start true)
                 (Safe.steps [Safe.SNew (Some (VFunction 7)); Safe.SNew None;
                              Safe.SDrop Safe.IO 0; Safe.SDrop Safe.UI 1;
                              Safe.SRunUI]
                    (Safe.start true))))
    as (_ & _ & Hui & _).
  - exists true, [Safe.SNew (Some (VFunction 7)); Safe.SNew None;
                  Safe.SDrop Safe.IO 0; Safe.SDrop Safe.UI 1; Safe.SRunUI].
    reflexivity.
  - apply Hui. vm_compute; reflexivity.
Defined.

(** X6: nothing leaks.  An object on the heap is pointed to by a wrapper
    that exists or, in the browser process, waits in the UI thread's queue to
    be deleted; so once every wrapper is destroyed and the queue has run, the
    heap is empty. *)
Theorem heap_objects_held_or_queued st :
  Safe.reachable st →
  (∀ x g, Safe.globals st !! x = Some g →
     (∃ i s, Safe.live_wrapper st i = Some s ∧ Safe.v8_function_ s = Some x)
     ∨ (x ∈ Safe.ui_tasks st ∧ Safe.is_browser_process st = true))
  ∧ ((∀ i, Safe.live_wrapper st i = None) → Safe.ui_tasks st = [] →
     Safe.globals st = ∅).
Proof.
  intros Hr. pose proof (reachable_inv st Hr) as Hinv.
  pose proof (reachable_tidy st Hr) as Ht.
  assert (Hall : ∀ x g, Safe.globals st !! x = Some g →
     (∃ i s, Safe.live_wrapper st i = Some s ∧ Safe.v8_function_ s = Some x)
     ∨ (x ∈ Safe.ui_tasks st ∧ Safe.is_browser_process st = true)).
  { intros x g Hg. pose proof (Safe.inv_count _ Hinv x g Hg) as Hc.
    destruct (Safe.ref_count g) as [|n] eqn:Hn.
    - right. pose proof (tidy_zero _ Ht x g Hg Hn) as Hq. split; [done|].
      destruct (Safe.is_browser_process st) eqn:Hb; [done|].
      rewrite (tidy_queue _ Ht Hb) in Hq. by apply elem_of_nil in Hq.
    - left. destruct (count_refs_held x (Safe.wrappers st)) as (i & s & Hi & Hs);
        [lia|].
      exists i, s. split; [by apply live_wrapper_Some|done]. }
  split; [done|].
  intros Hnone Hq. apply map_empty. intros x.
  destruct (Safe.globals st !! x) as [g|] eqn:Hg; [|done].
  destruct (Hall x g Hg) as [(i & s & Hs & _)|[Hin _]].
  - rewrite Hnone in Hs. done.
  - rewrite Hq in Hin. by apply elem_of_nil in Hin.
Qed.

Lemma heap_objects_held_or_queued_witness :
  Safe.globals
    (default (Safe.start true)
       (Safe.steps [Safe.SNew (Some (VFunction 7)); Safe.SCopy 0;
                    Safe.SDrop Safe.IO 0; Safe.SDrop Safe.IO 1; Safe.SRunUI]
          (Safe.start true)))
  = ∅.
Proof.
  destruct (heap_objects_held_or_queued
              (default (Safe.start true)
                 (Safe.steps [Safe.SNew (Some (VFunction 7)); Safe.SCopy 0;
                              Safe.SDrop Safe.IO 0; Safe.SDrop Safe.IO 1;
                              Safe.SRunUI]
                    (Safe.start true))))
    as [_ Hempty].
  - exists true, [Safe.SNew (Some (VFunction 7)); Safe.SCopy 0;
                  Safe.SDrop Safe.IO 0; Safe.SDrop Safe.IO 1; Safe.SRunUI].
    reflexivity.
  - apply Hempty.
    + intros [|[|i]]; vm_compute; reflexivity.
    + vm_compute; reflexivity.
Defined.


(** * Further properties of the callables *)

Lemma perform_all_app acts1 acts2 w :
  perform_all (acts1 ++ acts2) w = w1 ← perform_all acts1 w; perform_all acts2 w1.
Proof.
  revert w. induction acts1 as [|a acts1 IH]; intros w; cbn; [done|].
  destruct (perform a w) as [w1|]; cbn; [apply IH|done].
Qed.

Lemma Ext_log w Δ Δ' w' : Ext w Δ w' → trace w' = trace w ++ Δ' → Δ' = Δ.
Proof.
  intros E Ht. rewrite (ext_trace _ _ _ E) in Ht. by apply app_inv_head in Ht.
Qed.

Lemma Since_log w Δ Δ' w' : Since w Δ w' → trace w' = trace w ++ Δ' → Δ' = Δ.
Proof.
  intros E Ht. rewrite (since_trace _ _ _ E) in Ht. by apply app_inv_head in Ht.
Qed.

Lemma collect_silent f w w' :
  collect f w = Some w' →
  ∃ Δ, trace w' = trace w ++ Δ
    ∧ ∀ g, run_args g Δ = [] ∧ invoke_args g Δ = [].
Proof.
  unfold collect. destruct (functions w !! f) as [fn|].
  - case_bool_decide.
    + intros [= <-]. exists []. by rewrite app_nil_r.
    + destruct (weak w !! bound_external fn) as [p|].
      * unfold GC, delete_holder. cbn.
        destruct (heap w !! p) as [hd|]; [|done]. cbn.
        destruct (handle hd); intros [= <-]; cbn; rewrite <- !app_assoc;
          eexists; (split; [reflexivity|done]).
      * intros [= <-]. cbn. eexists. split; [reflexivity|done].
  - intros [= <-]. exists []. by rewrite app_nil_r.
Qed.

Lemma inherited_proto w w' key :
  object_prototype w' = object_prototype w → inherited w' key = inherited w key.
Proof. unfold inherited. by intros ->. Qed.

(** Within one action of the native side, the marker appears in a record
    that inherits none only through an entry of the trampoline. *)
Lemma Ext_fresh_own w Δ w' f :
  Ext w Δ w' → is_Some (functions w !! f) → is_Some (functions w' !! f) →
  HasOwn w f "called" = Some false → inherited w "called" = false →
  invoke_args f Δ = [] → HasOwn w' f "called" = Some false.
Proof.
  intros E Hf Hf' Hown Hinh Hinv.
  pose proof (ext_fresh _ _ _ E f Hf Hf' (Has_of_own _ _ _ _ Hown Hinh) Hinv)
    as Hfresh.
  destruct (Has_cases _ _ _ _ Hfresh) as (own & Hown' & Hor).
  symmetry in Hor. apply orb_false_iff in Hor as [-> _]. done.
Qed.

Lemma FirstOnly_AtMostOnce w Δ w' : FirstOnly w Δ w' → AtMostOnce w Δ w'.
Proof.
  intros F f Hf Hot Hc. destruct (F f Hf Hot Hc) as (L & N & _). by split.
Qed.

Lemma FirstOnly_silent w Δ w' :
  (∀ f, run_args f Δ = [] ∧ invoke_args f Δ = []) → FirstOnly w Δ w'.
Proof.
  intros Hno f _ _ _. destruct (Hno f) as [-> ->]. cbn.
  split; [lia|]. split; [done|]. intros _. by split.
Qed.

Lemma AtMostOnce_trans w Δ1 w1 Δ2 w2 :
  WF w → WF w1 → Since w Δ1 w1 → Since w1 Δ2 w2 →
  AtMostOnce w Δ1 w1 → AtMostOnce w1 Δ2 w2 → AtMostOnce w (Δ1 ++ Δ2) w2.
Proof.
  intros Hwf Hwf1 E1 E2 F1 F2 f Hf Hot Hc.
  destruct (F1 f Hf Hot Hc) as [L1 N1].
  destruct Hf as [fn Hfn]. destruct (wf_fun _ Hwf _ _ Hfn) as (Hlt & _).
  pose proof (since_next _ _ _ E1) as Hnext.
  rewrite run_args_app.
  destruct (functions w1 !! f) as [fn1|] eqn:Hfn1.
  - destruct (since_own _ _ _ E1 f) as [Hot1 _]; [eauto|eauto|].
    rewrite Hot in Hot1.
    destruct (wf_fun _ Hwf1 _ _ Hfn1) as (_ & _ & _ & _ & Hobj & _).
    destruct (HasOwn_Some w1 f "called" Hobj) as [c Hc1].
    destruct c.
    + rewrite (since_once _ _ _ E2 f) by eauto. rewrite app_nil_r.
      split; [done|]. intros Hf2 Hc2.
      destruct (since_own _ _ _ E2 f) as [_ Hmono]; [eauto|done|].
      rewrite Hmono in Hc2; done.
    + rewrite N1 by eauto. cbn. apply F2; eauto.
  - destruct (since_gone _ _ _ E2 f) as (-> & _ & _); [lia|done|].
    rewrite app_nil_r. split; [done|].
    intros [fn2 Hfn2]. pose proof (since_fun _ _ _ E2 f fn2) as Hback.
    rewrite Hback in Hfn1; [done|lia|done].
Qed.

Lemma FirstOnly_trans w Δ1 w1 Δ2 w2 :
  WF w → WF w1 → Since w Δ1 w1 → Since w1 Δ2 w2 →
  (inherited w "called" = false → inherited w1 "called" = false) →
  (∀ f, is_Some (functions w !! f) → is_Some (functions w1 !! f) →
     HasOwn w f "called" = Some false → inherited w "called" = false →
     invoke_args f Δ1 = [] → HasOwn w1 f "called" = Some false) →
  FirstOnly w Δ1 w1 → FirstOnly w1 Δ2 w2 → FirstOnly w (Δ1 ++ Δ2) w2.
Proof.
  intros Hwf Hwf1 E1 E2 Hinh1 Hfresh F1 F2 f Hf Hot Hc.
  destruct (AtMostOnce_trans w Δ1 w1 Δ2 w2 Hwf Hwf1 E1 E2
              (FirstOnly_AtMostOnce _ _ _ F1) (FirstOnly_AtMostOnce _ _ _ F2)
              f Hf Hot Hc) as [L N].
  split; [done|]. split; [done|]. intros Hinh.
  destruct (F1 f Hf Hot Hc) as (_ & N1 & C1).
  destruct (C1 Hinh) as [R1 I1].
  pose proof Hf as [fn Hfn]. destruct (wf_fun _ Hwf _ _ Hfn) as (Hlt & _).
  pose proof (since_next _ _ _ E1) as Hnext.
  rewrite run_args_app, invoke_args_app.
  destruct (functions w1 !! f) as [fn1|] eqn:Hfn1.
  - destruct (since_own _ _ _ E1 f) as [Hot1 _]; [eauto|eauto|].
    rewrite Hot in Hot1.
    destruct (wf_fun _ Hwf1 _ _ Hfn1) as (_ & _ & _ & _ & Hobj & _).
    destruct (HasOwn_Some w1 f "called" Hobj) as [c Hc1].
    destruct c.
    + destruct (invoke_args f Δ1) as [|a l] eqn:Hinv1.
      { rewrite (Hfresh f) in Hc1; eauto. done. }
      rewrite (since_once _ _ _ E2 f) by eauto.
      rewrite R1. split; [done|].
      intros Hf2 Hc2. destruct (since_own _ _ _ E2 f) as [_ Hmono]; [eauto|done|].
      rewrite Hmono in Hc2; done.
    + rewrite I1 in * by eauto. rewrite R1. cbn.
      destruct (F2 f) as (_ & _ & C2); eauto.
  - destruct (since_gone _ _ _ E2 f) as (-> & -> & _); [lia|done|].
    rewrite !app_nil_r. split; [done|].
    intros [fn2 Hfn2]. pose proof (since_fun _ _ _ E2 f fn2) as Hback.
    rewrite Hback in Hfn1; [done|lia|done].
Qed.

Lemma once_silent (c : World → option World) :
  (∀ w w', c w = Some w' →
     ∃ Δ, trace w' = trace w ++ Δ
       ∧ ∀ g, run_args g Δ = [] ∧ invoke_args g Δ = []) →
  once c.
Proof.
  intros Hc w w' Δ _ Hw' E. destruct (Hc w w' Hw') as (Δ' & Ht & Hno).
  rewrite (Ext_log _ _ _ _ E Ht) in Hno. by apply FirstOnly_silent.
Qed.

Lemma once_throw msg : once (λ w, Some (ThrowError msg w)).
Proof. apply once_silent. intros w w' [= <-]. by exists [EvThrow msg]. Qed.

(** Two steps of one action of the native side. *)
Lemma FirstOnly_seq w Δ1 w1 Δ2 w2 :
  WF w → WF w1 → Ext w Δ1 w1 → Ext w1 Δ2 w2 →
  FirstOnly w Δ1 w1 → FirstOnly w1 Δ2 w2 → FirstOnly w (Δ1 ++ Δ2) w2.
Proof.
  intros Hwf Hwf1 E1 E2.
  apply FirstOnly_trans; auto using Ext_Since.
  - by rewrite (inherited_proto w w1 "called" (ext_proto _ _ _ E1)).
  - intros f. by apply Ext_fresh_own.
Qed.

Section TrampolineOnce.

Variable script_call : nat → list Value → World → option World.
Hypothesis script_call_safe : ∀ f argv, safe (script_call f argv).
Hypothesis script_call_once : ∀ f argv, once (script_call f argv).

Lemma exec_op_once args op : once (exec_op script_call args op).
Proof.
  destruct op as [|msg|g argv|g]; cbn.
  - apply once_silent. intros w w' [= <-]. exists []. cbn. by rewrite app_nil_r.
  - apply once_throw.
  - apply script_call_once.
  - apply once_silent. apply collect_silent.
Qed.

Lemma Run_once tr args : once (Run script_call tr args).
Proof.
  induction tr as [|op tr IH]; intros w w' Δ Hwf Hrun E.
  - injection Hrun as <-.
    assert (Δ = []) as ->; [|by apply FirstOnly_silent].
    symmetry. apply (Ext_log _ _ _ _ E). by rewrite app_nil_r.
  - cbn in Hrun.
    destruct (exec_op script_call args op w) as [w1|] eqn:Hop; [|done].
    cbn in Hrun.
    destruct (exec_op_safe script_call script_call_safe args op w Hwf)
      as (w1' & Δ1 & Hop' & Hwf1 & E1); [right; eauto|].
    assert (w1' = w1) as -> by congruence.
    destruct (Run_safe script_call script_call_safe tr args w1 Hwf1)
      as (w2 & Δ2 & Hrest & _ & E2); [right; eauto|].
    assert (w2 = w') as -> by congruence.
    assert (Δ = Δ1 ++ Δ2) as ->.
    { apply (Ext_log _ _ _ _ (Ext_trans _ _ _ _ _ Hwf Hwf1 E1 E2)), (ext_trace _ _ _ E). }
    apply (FirstOnly_seq w Δ1 w1 Δ2 w'); try done.
    + by apply (exec_op_once args op).
    + by apply IH.
Qed.

Lemma dispatch_once f args : once (dispatch (CallTranslater script_call) f args).
Proof.
  intros w w' Δ Hwf Hd E.
  destruct (functions w !! f) as [fn|] eqn:Hfn.
  2:{ revert Hd. unfold dispatch. rewrite Hfn. intros [= <-].
      assert (Δ = [EvThrow not_a_function_message]) as ->.
      { symmetry. by apply (Ext_log _ _ _ _ E). }
      by apply FirstOnly_silent. }
  destruct (wf_fun _ Hwf _ _ Hfn) as (Hlt & Hbe & Hbs & Hext & [o Ho] & _).
  destruct (Has_is_Some w f "oneTime") as [b Hb]; [eauto|].
  destruct (Has_is_Some w f "called") as [c Hc]; [eauto|].
  assert (Hopen : (b = true → Has w f "called" = Some false) →
            FirstOnly w Δ w').
  { intros Hgate.
    destruct (dispatch_open script_call script_call_safe f args w fn b
                Hwf Hfn Hb Hgate)
      as (hd & w1 & Δ1 & w'' & Hhd & Hwfa & Hrun & Hwf1 & E1 & Hhd1 & Hfin
          & Hd' & _ & E'); [right; eauto|].
    assert (w'' = w') as -> by congruence.
    assert (Δ = pre_events b (length (active w)) f args ++ Δ1 ++ post_events b f)
      as ->.
    { apply (Ext_log _ _ _ _ E'), (ext_trace _ _ _ E). }
    pose proof (Run_once _ args _ _ _ Hwfa Hrun E1) as F1.
    destruct (at_run_fields b f args w o Ho)
      as (_ & _ & _ & _ & Hfa & _).
    destruct (wf_heap _ Hwf1 _ _ Hhd1) as (Hhandle & _).
    destruct (finished_fields b f w1 hd Hhd1 Hhandle)
      as (w3 & Hfin3 & _ & _ & _ & _ & Hobj3 & Hfun3 & _).
    assert (w3 = w') as -> by congruence.
    intros g Hg Hot Hcg.
    rewrite !run_args_app, !invoke_args_app.
    destruct (pre_events_readers b (length (active w)) f args g)
      as (-> & -> & _).
    destruct (post_events_readers b f g) as (-> & -> & _).
    rewrite !app_nil_r.
    destruct (decide (f = g)) as [<-|Hne].
    - assert (b = true) as ->.
      { pose proof (HasOwn_Has _ _ _ Hot). congruence. }
      pose proof (HasOwn_at_run_called f args w o Ho) as Hmark.
      rewrite (ext_once _ _ _ E1 f);
        [|rewrite Hfa; eauto
         |by rewrite (Has_at_run_one_time true f args w o Ho)
         |by apply HasOwn_Has].
      assert (Hmark' : is_Some (functions w' !! f) →
                HasOwn w' f "called" = Some true).
      { rewrite Hfun3. intros Hf1.
        rewrite (HasOwn_objects w1 w' f "called" Hobj3).
        destruct (ext_own _ _ _ E1 f) as [_ Hmono];
          [rewrite Hfa; eauto|done|]. by apply Hmono. }
      split; [cbn; lia|]. split.
      { intros Hf1 Hc1. rewrite (Hmark' Hf1) in Hc1. done. }
      intros _. split; [done|].
      intros Hf1 Hc1. rewrite (Hmark' Hf1) in Hc1. done.
    - cbn. destruct (F1 g) as (L1 & N1 & C1).
      + by rewrite Hfa.
      + by rewrite (HasOwn_at_run_other b f args w o g "oneTime" Ho) by congruence.
      + by rewrite (HasOwn_at_run_other b f args w o g "called" Ho) by congruence.
      + rewrite Hfun3, (HasOwn_objects w1 w' g "called" Hobj3).
        split; [done|]. split; [done|]. intros Hinh. apply C1.
        by rewrite (inherited_proto w _ "called" (at_run_proto b f args w)). }
  destruct b; [|by apply Hopen]. destruct c; [|by apply Hopen].
  rewrite <- Hbs in Hb, Hc.
  pose proof (dispatch_throw script_call f args w fn Hfn Hb Hc) as Hthrow.
  rewrite Hbs in Hb, Hc.
  destruct (already_called_safe f args w fn Hwf Hfn Hb) as [_ E'].
  rewrite Hthrow in Hd. injection Hd as <-.
  assert (Δ = [EvInvoke (length (active w)) f args;
               EvThrow already_called_message; EvReturn f]) as ->.
  { apply (Ext_log _ _ _ _ E'), (ext_trace _ _ _ E). }
  intros g Hg Hot Hcg.
  destruct (decide (f = g)) as [<-|Hne].
  - unfold run_args, invoke_args. cbn. rewrite decide_True by done. cbn.
    split; [lia|]. split; [done|]. intros Hinh.
    rewrite (Has_of_own _ _ _ _ Hcg Hinh) in Hc. done.
  - unfold run_args, invoke_args. cbn. rewrite decide_False by done. cbn.
    split; [lia|]. split; [done|]. intros _. by split.
Qed.

End TrampolineOnce.

Lemma Call_once depth : ∀ f args, once (Call depth f args).
Proof.
  induction depth as [|d IH]; intros f args; cbn.
  - apply once_throw.
  - apply dispatch_once; [apply Call_safe|done].
Qed.

Lemma perform_log a w w' Δ :
  WF w → native_action a → perform a w = Some w' → trace w' = trace w ++ Δ →
  Ext w Δ w'.
Proof.
  intros Hwf Hn Hp Ht. destruct (perform_ext a w w' Hwf Hn Hp) as (_ & Δ' & E).
  by rewrite (Ext_log _ _ _ _ E Ht).
Qed.

Lemma create_silent isolate tr one_time w f w' :
  CreateFunctionFromTranslater isolate tr one_time w = Some (f, w') →
  trace w' = trace w ++ create_events isolate one_time w.
Proof.
  intros Hc.
  destruct (create_fields isolate tr one_time w)
    as (w1 & Hc1 & _ & _ & _ & _ & _ & _ & _ & _ & _ & _ & Ht).
  { eapply created_for; eauto. }
  rewrite Hc in Hc1. by injection Hc1 as -> <-.
Qed.

(** One action of a script, seen from a one-shot callable. *)
Lemma perform_first_only a w w' Δ :
  WF w → perform a w = Some w' → trace w' = trace w ++ Δ → FirstOnly w Δ w'.
Proof.
  intros Hwf Hp Ht.
  destruct a as [isolate tr one_time|depth f args|f|key v|key].
  - apply FirstOnly_silent. intros g. cbn in Hp.
    destruct (CreateFunctionFromTranslater isolate tr one_time w)
      as [[f w1]|] eqn:Hc; [|done].
    injection Hp as <-. rewrite (create_silent _ _ _ _ _ _ Hc) in Ht.
    apply app_inv_head in Ht as <-.
    by destruct (create_events_readers isolate one_time w g) as (-> & -> & _).
  - cbn in Hp. destruct (Call depth f args w) as [w1|] eqn:Hc; [|done].
    injection Hp as <-. cbn in Ht.
    destruct (call_facts _ _ _ _ _ Hwf Hc) as (_ & Δ' & E).
    rewrite (Ext_log _ _ _ _ E Ht) in *.
    exact (Call_once depth f args w w1 Δ' Hwf Hc E).
  - apply FirstOnly_silent. cbn in Hp.
    destruct (collect_silent f w w' Hp) as (Δ' & Ht' & Hno).
    rewrite Ht' in Ht. by apply app_inv_head in Ht as <-.
  - injection Hp as <-. cbn in Ht.
    rewrite <- (app_nil_r (trace w)) in Ht at 1.
    apply app_inv_head in Ht as <-. by apply FirstOnly_silent.
  - injection Hp as <-. cbn in Ht.
    rewrite <- (app_nil_r (trace w)) in Ht at 1.
    apply app_inv_head in Ht as <-. by apply FirstOnly_silent.
Qed.

Lemma perform_fresh a w w' Δ f :
  WF w → perform a w = Some w' → trace w' = trace w ++ Δ →
  is_Some (functions w !! f) → is_Some (functions w' !! f) →
  HasOwn w f "called" = Some false → inherited w "called" = false →
  invoke_args f Δ = [] → HasOwn w' f "called" = Some false.
Proof.
  intros Hwf Hp Ht Hf Hf' Hown Hinh Hinv.
  destruct a as [isolate tr one_time|depth g args|g|key v|key].
  - apply (Ext_fresh_own w Δ w' f); try done.
    by apply (perform_log (ACreate isolate tr one_time)).
  - apply (Ext_fresh_own w Δ w' f); try done.
    by apply (perform_log (AInvoke depth g args)).
  - apply (Ext_fresh_own w Δ w' f); try done.
    by apply (perform_log (ACollect g)).
  - by injection Hp as <-.
  - by injection Hp as <-.
Qed.

Lemma perform_keeps_marker_own a w w' :
  WF w → perform a w = Some w' → keeps_marker_own a →
  inherited w "called" = false → inherited w' "called" = false.
Proof.
  intros Hwf Hp Hk Hinh.
  destruct a as [isolate tr one_time|depth g args|g|key v|key].
  - destruct (perform_ext (ACreate isolate tr one_time) w w' Hwf I Hp)
      as (_ & Δ & E).
    by rewrite (inherited_proto w w' "called" (ext_proto _ _ _ E)).
  - destruct (perform_ext (AInvoke depth g args) w w' Hwf I Hp) as (_ & Δ & E).
    by rewrite (inherited_proto w w' "called" (ext_proto _ _ _ E)).
  - destruct (perform_ext (ACollect g) w w' Hwf I Hp) as (_ & Δ & E).
    by rewrite (inherited_proto w w' "called" (ext_proto _ _ _ E)).
  - injection Hp as <-. unfold inherited in *. cbn.
    rewrite lookup_insert_ne; [done|]. intros ->. by apply (Hk v).
  - injection Hp as <-. unfold inherited in *. cbn.
    apply bool_decide_eq_false in Hinh. apply bool_decide_eq_false.
    intros [x Hx]. apply Hinh. exists x.
    apply lookup_delete_Some in Hx as [_ Hx]. done.
Qed.

Lemma perform_all_at_most_once acts : ∀ w w' Δ,
  WF w → perform_all acts w = Some w' → trace w' = trace w ++ Δ →
  AtMostOnce w Δ w'.
Proof.
  induction acts as [|a acts IH]; intros w w' Δ Hwf Hp Ht.
  - injection Hp as <-. rewrite <- (app_nil_r (trace w)) in Ht at 1.
    apply app_inv_head in Ht as <-.
    by apply FirstOnly_AtMostOnce, FirstOnly_silent.
  - cbn in Hp. destruct (perform a w) as [w1|] eqn:Ha; [|done]. cbn in Hp.
    destruct (perform_sound a w w1 Hwf Ha) as (Hwf1 & Δ1 & E1).
    destruct (perform_all_sound acts w1 w' Hwf1 Hp) as (_ & Δ2 & E2).
    assert (Δ = Δ1 ++ Δ2) as ->.
    { rewrite (since_trace _ _ _ E2), (since_trace _ _ _ E1), <- app_assoc in Ht.
      by apply app_inv_head in Ht. }
    apply (AtMostOnce_trans w Δ1 w1 Δ2 w'); try done.
    + apply FirstOnly_AtMostOnce.
      exact (perform_first_only a w w1 Δ1 Hwf Ha (since_trace _ _ _ E1)).
    + exact (IH w1 w' Δ2 Hwf1 Hp (since_trace _ _ _ E2)).
Qed.

Lemma perform_all_first_only acts : ∀ w w' Δ,
  Forall keeps_marker_own acts → inherited w "called" = false →
  WF w → perform_all acts w = Some w' → trace w' = trace w ++ Δ →
  FirstOnly w Δ w'.
Proof.
  induction acts as [|a acts IH]; intros w w' Δ Hk Hinh Hwf Hp Ht.
  - injection Hp as <-. rewrite <- (app_nil_r (trace w)) in Ht at 1.
    apply app_inv_head in Ht as <-. by apply FirstOnly_silent.
  - cbn in Hp. destruct (perform a w) as [w1|] eqn:Ha; [|done]. cbn in Hp.
    apply Forall_cons in Hk as [Hka Hk].
    destruct (perform_sound a w w1 Hwf Ha) as (Hwf1 & Δ1 & E1).
    destruct (perform_all_sound acts w1 w' Hwf1 Hp) as (_ & Δ2 & E2).
    assert (Δ = Δ1 ++ Δ2) as ->.
    { rewrite (since_trace _ _ _ E2), (since_trace _ _ _ E1), <- app_assoc in Ht.
      by apply app_inv_head in Ht. }
    pose proof (perform_keeps_marker_own a w w1 Hwf Ha Hka Hinh) as Hinh1.
    apply (FirstOnly_trans w Δ1 w1 Δ2 w'); try done.
    + intros f. apply (perform_fresh a w w1 Δ1 f Hwf Ha (since_trace _ _ _ E1)).
    + exact (perform_first_only a w w1 Δ1 Hwf Ha (since_trace _ _ _ E1)).
    + exact (IH w1 w' Δ2 Hk Hinh1 Hwf1 Hp (since_trace _ _ _ E2)).
Qed.

Lemma Since_drop w Δ w' : Since w Δ w' → drop (length (trace w)) (trace w') = Δ.
Proof. intros E. by rewrite (since_trace _ _ _ E), drop_app_length. Qed.

(** ** What script may do without harm *)

Lemma Gated_prototype w x :
  (inherited w "oneTime" = true →
   bool_decide (is_Some (x !! "oneTime")) = true) →
  Gated w → Gated (set_object_prototype x w).
Proof.
  intros Hx G f Hf Hdead.
  destruct (Has_cases _ _ _ _ (G f Hf Hdead)) as (own & Hown & Hor).
  unfold Has.
  rewrite (HasOwn_objects w (set_object_prototype x w) f "oneTime" eq_refl).
  rewrite Hown. cbn. f_equal.
  destruct own; [done|]. cbn in Hor. cbn. apply Hx. by symmetry.
Qed.

Lemma cached_for_step engine a w w' :
  WF w → cached_for engine w → made_for engine a → perform a w = Some w' →
  cached_for engine w'.
Proof.
  intros Hwf Hfor Hmade Hp.
  destruct a as [isolate tr one_time|depth g args|g|key v|key].
  - cbn in Hmade. subst isolate. cbn in Hp.
    destruct (create_fields engine tr one_time w Hfor)
      as (w1 & Hc & _ & Hcache & _).
    rewrite Hc in Hp. injection Hp as <-.
    intros t. rewrite Hcache. intros [= <-]. unfold cached_or_new.
    destruct (g_call_translater w) as [t|] eqn:Ht; [by apply Hfor|done].
  - destruct (perform_ext (AInvoke depth g args) w w' Hwf I Hp) as (Hwf' & Δ & E).
    destruct (g_call_translater w) as [t|] eqn:Ht.
    + intros t'. rewrite (ext_cache _ _ _ E t Ht). intros [= <-]. by apply Hfor.
    + assert (Hnone : functions w !! g = None).
      { destruct (functions w !! g) as [fn|] eqn:Hfn; [|done].
        destruct (wf_fun _ Hwf _ _ Hfn) as (_ & _ & _ & _ & _ & Hc). congruence. }
      cbn in Hp. destruct depth as [|d]; cbn in Hp.
      * injection Hp as <-. intros t. cbn. by rewrite Ht.
      * unfold dispatch in Hp. rewrite Hnone in Hp. injection Hp as <-.
        intros t. cbn. by rewrite Ht.
  - destruct (g_call_translater w) as [t|] eqn:Ht.
    + destruct (perform_ext (ACollect g) w w' Hwf I Hp) as (Hwf' & Δ & E).
      intros t'. rewrite (ext_cache _ _ _ E t Ht). intros [= <-]. by apply Hfor.
    + assert (Hnone : functions w !! g = None).
      { destruct (functions w !! g) as [fn|] eqn:Hfn; [|done].
        destruct (wf_fun _ Hwf _ _ Hfn) as (_ & _ & _ & _ & _ & Hc). congruence. }
      cbn in Hp. unfold collect in Hp. rewrite Hnone in Hp. by injection Hp as <-.
  - by injection Hp as <-.
  - by injection Hp as <-.
Qed.

(** A gentle action for the engine of the cached template is defined, and
    leaves every freed holder behind a closed gate. *)
Lemma gentle_step engine a w :
  WF w → Gated w → cached_for engine w → gentle a → made_for engine a →
  ∃ w', perform a w = Some w' ∧ WF w' ∧ Gated w' ∧ cached_for engine w'.
Proof.
  intros Hwf G Hfor Hg Hmade.
  assert (Hdef : ∃ w', perform a w = Some w' ∧ WF w' ∧ Gated w').
  { destruct a as [isolate tr one_time|depth g args|g|key v|key].
    - cbn in Hmade. subst isolate.
      destruct (create_safe engine tr one_time w Hwf Hfor) as (w' & Hc & Hwf' & E).
      exists w'. cbn. rewrite Hc. split; [done|]. split; [done|].
      by apply (ext_gated _ _ _ E).
    - destruct (Call_safe depth g args w Hwf) as (w1 & Δ & Hc & Hwf1 & E);
        [by left|].
      exists (set_pending None w1). cbn. rewrite Hc. split; [done|].
      split; [by apply pending_step|].
      pose proof (ext_gated _ _ _ E G) as G1.
      by apply (Gated_core w1).
    - destruct (collect_safe g w Hwf) as (w' & Δ & Hc & Hwf' & E); [by left|].
      exists w'. split; [done|]. split; [done|]. by apply (ext_gated _ _ _ E).
    - eexists. split; [reflexivity|]. split; [by apply prototype_step|].
      apply Gated_prototype; [|done]. intros Hin.
      apply bool_decide_eq_true. apply bool_decide_eq_true in Hin.
      destruct (decide (key = "oneTime")) as [->|Hne].
      + rewrite lookup_insert_eq. eauto.
      + by rewrite lookup_insert_ne.
    - eexists. split; [reflexivity|]. split; [by apply prototype_step|].
      apply Gated_prototype; [|done]. intros Hin.
      apply bool_decide_eq_true. apply bool_decide_eq_true in Hin.
      rewrite lookup_delete_ne; [done|]. intros ->. by apply Hg. }
  destruct Hdef as (w' & Hp & Hwf' & G').
  exists w'. split; [done|]. split; [done|]. split; [done|].
  by apply (cached_for_step engine a w w').
Qed.

Lemma gentle_steps engine acts : ∀ w,
  WF w → Gated w → cached_for engine w →
  Forall gentle acts → Forall (made_for engine) acts →
  ∃ w', perform_all acts w = Some w' ∧ WF w' ∧ Gated w' ∧ cached_for engine w'.
Proof.
  induction acts as [|a acts IH]; intros w Hwf G Hfor Hg Hm.
  - exists w. by cbn.
  - apply Forall_cons in Hg as [Hga Hg]. apply Forall_cons in Hm as [Hma Hm].
    destruct (gentle_step engine a w Hwf G Hfor Hga Hma)
      as (w1 & Ha & Hwf1 & G1 & Hfor1).
    destruct (IH w1 Hwf1 G1 Hfor1 Hg Hm) as (w' & Hp & ?).
    exists w'. cbn. rewrite Ha. by cbn.
Qed.

Lemma init_Gated : Gated init.
Proof. intros f [fn Hfn]. done. Qed.

Lemma init_cached_for engine : cached_for engine init.
Proof. intros t Ht. done. Qed.









(** ** Callbacks that stay on the native side *)

Lemma Run_plain sc tr args : ∀ w,
  plain tr →
  ∃ w', Run sc tr args w = Some w'
    ∧ heap w' = heap w ∧ weak w' = weak w ∧ objects w' = objects w
    ∧ functions w' = functions w ∧ externals w' = externals w
    ∧ g_call_translater w' = g_call_translater w
    ∧ next_id w' = next_id w ∧ active w' = active w
    ∧ native_log w' = native_log w ++ observes_of tr args
    ∧ pending_exception w' = last_error (pending_exception w) (throws_of tr)
    ∧ trace w' = trace w ++ (EvThrow <$> throws_of tr).
Proof.
  induction tr as [|op tr IH]; intros w Hplain.
  - exists w. cbn. by rewrite !app_nil_r.
  - assert (Hrest : plain tr).
    { intros op' Hin. apply Hplain. by apply list_elem_of_further. }
    destruct (Hplain op) as [->|[msg ->]]; [apply elem_of_cons; auto| |]; cbn.
    + destruct (IH (set_native_log (native_log w ++ [args]) w) Hrest)
        as (w' & -> & Hh & Hk & Ho & Hf & He & Hc & Hn & Ha & Hlog & Hpend & Ht).
      exists w'. repeat (split; [done|]).
      split; [by rewrite Hlog; cbn; rewrite <- app_assoc|]. by split.
    + destruct (IH (ThrowError msg w) Hrest)
        as (w' & -> & Hh & Hk & Ho & Hf & He & Hc & Hn & Ha & Hlog & Hpend & Ht).
      exists w'. repeat (split; [done|]).
      by rewrite Ht; cbn; rewrite <- app_assoc.
Qed.

Lemma thrown_of_throws msgs : thrown (EvThrow <$> msgs) = msgs.
Proof. induction msgs as [|m msgs IH]; cbn; [done|]. by f_equal. Qed.

Lemma readers_of_throws msgs g :
  run_args g (EvThrow <$> msgs) = [] ∧ invoke_args g (EvThrow <$> msgs) = []
  ∧ destroyed g (EvThrow <$> msgs) = [].
Proof. induction msgs as [|m msgs IH]; cbn; done. Qed.

(** A call whose gate is open and whose callback stays on the native
    side, field by field. *)
Lemma plain_call_shape d f args w fn hd b o :
  WF w → functions w !! f = Some fn → heap w !! f = Some hd →
  objects w !! f = Some o →
  Has w f "oneTime" = Some b → (b = true → Has w f "called" = Some false) →
  plain (translater hd) →
  ∃ w', Call (S d) f args w = Some w'
    ∧ heap w' = (if b then delete f (heap w) else heap w)
    ∧ weak w' = (if b then delete f (weak w) else weak w)
    ∧ objects w'
      = (if b then <[f := <["called" := VBool true]> o]> (objects w)
         else objects w)
    ∧ functions w' = functions w ∧ externals w' = externals w
    ∧ g_call_translater w' = g_call_translater w
    ∧ next_id w' = next_id w ∧ active w' = active w
    ∧ native_log w' = native_log w ++ observes_of (translater hd) args
    ∧ pending_exception w'
      = last_error (pending_exception w) (throws_of (translater hd))
    ∧ trace w'
      = trace w ++ pre_events b (length (active w)) f args
          ++ (EvThrow <$> throws_of (translater hd)) ++ post_events b f.
Proof.
  intros Hwf Hfn Hhd Ho Hb Hgate Hplain.
  destruct (wf_fun _ Hwf _ _ Hfn) as (_ & Hbe & Hbs & Hext & _).
  destruct (wf_heap _ Hwf _ _ Hhd) as (Hhandle & _).
  cbn [Call].
  rewrite (dispatch_run (Call d) f args w fn hd b Hfn Hbe Hbs Hb Hgate Hext Hhd).
  destruct (at_run_fields b f args w o Ho)
    as (Ah & Ac & Ae & Ak & Af & An & Aa & Al & Ap & At & Ao).
  destruct (Run_plain (Call d) (translater hd) args (at_run b f args w) Hplain)
    as (w1 & -> & Ch & Ck & Co & Cf & Ce & Cc & Cn & Ca & Hlog & Hpend & Ht).
  cbn [mbind option_bind].
  destruct (finished_fields b f w1 hd) as
    (w' & -> & Fh & Fk & Fc & Fe & Fo & Ff & Fn & Fa & Fl & Fp & Ft);
    [by rewrite Ch, Ah|done|].
  exists w'. split; [done|].
  rewrite Fh, Fk, Fo, Ff, Fe, Fc, Fn, Fa, Fl, Fp, Ft.
  rewrite Ch, Ck, Co, Cf, Ce, Cc, Cn, Ca, Hlog, Hpend, Ht.
  rewrite Ah, Ak, Ao, Af, Ae, Ac, An, Aa, Al, Ap, At.
  rewrite <- !app_assoc. repeat split.
Qed.

(** Repeated calls of a callable that the trampoline reads as repeatable
    and whose callback stays on the native side. *)
Lemma plain_repeat_calls d f hd argss : ∀ w fn o,
  WF w → functions w !! f = Some fn → heap w !! f = Some hd →
  objects w !! f = Some o →
  Has w f "oneTime" = Some false → plain (translater hd) →
  ∃ w' Δ, call_all (S d) f argss w = Some w'
    ∧ heap w' = heap w ∧ weak w' = weak w
    ∧ native_log w'
      = native_log w ++ concat (observes_of (translater hd) <$> argss)
    ∧ trace w' = trace w ++ Δ
    ∧ run_args f Δ = argss ∧ invoke_args f Δ = argss
    ∧ ∀ p, destroyed p Δ = [].
Proof.
  induction argss as [|args argss IH]; intros w fn o Hwf Hfn Hhd Ho Hb Hplain.
  - exists w, []. cbn. by rewrite !app_nil_r.
  - destruct (plain_call_shape d f args w fn hd false o Hwf Hfn Hhd Ho Hb)
      as (w1 & Hcall & Hh & Hk & Hobj & Hf & _ & _ & _ & _ & Hlog & _ & Ht);
      [done|done|].
    destruct (call_facts _ _ _ _ _ Hwf Hcall) as (Hwf1 & Δ1 & E1).
    destruct (IH w1 fn o Hwf1) as (w' & Δ & Hall & Hh' & Hk' & Hlog' & Ht' & Hr
                                   & Hi & Hd);
      [by rewrite Hf|by rewrite Hh|by rewrite Hobj| |done|].
    { rewrite <- Hb. apply Has_objects; [done|exact (ext_proto _ _ _ E1)]. }
    exists w', (pre_events false (length (active w)) f args
                ++ (EvThrow <$> throws_of (translater hd))
                ++ post_events false f ++ Δ).
    cbn [call_all]. rewrite Hcall. cbn [mbind option_bind].
    split; [done|]. split; [congruence|]. split; [congruence|].
    split; [rewrite Hlog', Hlog; cbn; by rewrite <- app_assoc|].
    split; [rewrite Ht', Ht; by rewrite <- !app_assoc|].
    destruct (pre_events_readers false (length (active w)) f args f)
      as (P1 & P2 & _).
    destruct (post_events_readers false f f) as (Q1 & Q2 & _).
    destruct (readers_of_throws (throws_of (translater hd)) f) as (T1 & T2 & _).
    rewrite !run_args_app, !invoke_args_app, P1, P2, Q1, Q2, T1, T2, Hr, Hi.
    rewrite decide_True by done.
    split; [done|]. split; [done|]. intros p.
    destruct (pre_events_readers false (length (active w)) f args p)
      as (_ & _ & _ & P4 & _).
    destruct (post_events_readers false f p) as (_ & _ & _ & Q4).
    destruct (readers_of_throws (throws_of (translater hd)) p) as (_ & _ & T3).
    by rewrite !destroyed_app, P4, Q4, T3, Hd.
Qed.

(** X11: a callable that the trampoline reads as repeatable, with a
    callback that stays on the native side, is invoked [N] times by its
    caller.  Every invocation hands the argument list of the call to [Run]
    of the callback stored in the holder; [Run] is started exactly [N]
    times, with the [N] argument lists in order, the callback observes
    exactly these, and no invocation destroys or detaches the holder. *)
Theorem repeatable_runs_every_call_with_its_arguments d f argss w fn p hd :
  reachable w → functions w !! f = Some fn →
  externals w !! bound_external fn = Some p → heap w !! p = Some hd →
  plain (translater hd) →
  Has w (bound_state fn) "oneTime" = Some false →
  (∀ args,
     Call (S d) f args w
     = (w1 ← Run (Call d) (translater hd) args
               (emit (EvRunBegin p args) (entered f args w));
        Some (emit (EvReturn f)
               (set_active (tail (active w1)) (emit (EvRunEnd p) w1)))))
  ∧ ∃ w', call_all (S d) f argss w = Some w'
    ∧ native_log w'
      = native_log w ++ concat (observes_of (translater hd) <$> argss)
    ∧ run_args p (drop (length (trace w)) (trace w')) = argss
    ∧ invoke_args f (drop (length (trace w)) (trace w')) = argss
    ∧ destroyed p (drop (length (trace w)) (trace w')) = []
    ∧ heap w' !! p = Some hd
    ∧ weak w' !! bound_external fn = Some p.
Proof.
  intros Hr Hfn Hp Hhd Hplain Hone. pose proof (reachable_WF w Hr) as Hwf.
  destruct (wf_fun _ Hwf _ _ Hfn) as (_ & Hbe & Hbs & Hext & [o Ho] & _).
  rewrite Hbe, Hext in Hp. injection Hp as <-. rewrite Hbs in Hone.
  destruct (wf_heap _ Hwf _ _ Hhd) as (_ & Hweak & _).
  split.
  { intros args. cbn [Call].
    by rewrite (dispatch_run (Call d) f args w fn hd false Hfn Hbe Hbs Hone). }
  destruct (plain_repeat_calls d f hd argss w fn o Hwf Hfn Hhd Ho Hone Hplain)
    as (w' & Δ & Hall & Hh & Hk & Hlog & Ht & Hrun & Hinv & Hd).
  exists w'. rewrite Ht, drop_app_length, Hh, Hk, Hbe.
  split; [done|]. split; [done|]. split; [done|]. split; [done|].
  split; [apply Hd|]. by split.
Qed.

Lemma repeatable_runs_every_call_with_its_arguments_witness :
  ∃ w',
    call_all 1 0 [[VInt 1]; [VInt 2; VStr "x"]; []]
      (default init (perform (ACreate 0 [OpObserve] false) init)) = Some w'
    ∧ native_log w' = [[VInt 1]; [VInt 2; VStr "x"]; []]
    ∧ heap w' !! 0 = Some (mkHolder (Some 0) [OpObserve]).
Proof.
  destruct (repeatable_runs_every_call_with_its_arguments 0 0
              [[VInt 1]; [VInt 2; VStr "x"]; []]
              (default init (perform (ACreate 0 [OpObserve] false) init))
              (mkBound 0 (mkTemplate 0 0) 0 0) 0 (mkHolder (Some 0) [OpObserve]))
    as (_ & w' & Hall & Hlog & _ & _ & _ & Hlive & _).
  - exists [ACreate 0 [OpObserve] false]. vm_compute; reflexivity.
  - vm_compute; reflexivity.
  - vm_compute; reflexivity.
  - vm_compute; reflexivity.
  - intros op [->|Hin]%elem_of_cons; [by left|by apply elem_of_nil in Hin].
  - vm_compute; reflexivity.
  - exists w'. split; [exact Hall|]. split; [exact Hlog|exact Hlive].
Defined.



Lemma thrown_pre_post b l f args :
  thrown (pre_events b l f args) = [] ∧ thrown (post_events b f) = [].
Proof. by destruct b. Qed.

(** X13: the trampoline hands the arguments and the errors through.
    When the gate is open and the callback stays on the native side, the
    callback is run once with the very argument list of the call, what the
    call logs as raised is what the callback signalled, in order, and the
    exception pending afterwards is the last of these (the one pending before
    if the callback signalled none): the trampoline raises nothing of its own
    and clears nothing. *)
Theorem open_call_passes_arguments_and_errors d f args w fn p hd :
  reachable w → functions w !! f = Some fn →
  externals w !! bound_external fn = Some p → heap w !! p = Some hd →
  plain (translater hd) →
  Has w (bound_state fn) "oneTime" = Some false
  ∨ Has w (bound_state fn) "called" = Some false →
  ∃ w', Call (S d) f args w = Some w'
    ∧ native_log w' = native_log w ++ observes_of (translater hd) args
    ∧ pending_exception w'
      = last_error (pending_exception w) (throws_of (translater hd))
    ∧ thrown (drop (length (trace w)) (trace w')) = throws_of (translater hd)
    ∧ run_args p (drop (length (trace w)) (trace w')) = [args].
Proof.
  intros Hr Hfn Hp Hhd Hplain Hgate. pose proof (reachable_WF w Hr) as Hwf.
  destruct (wf_fun _ Hwf _ _ Hfn) as (_ & Hbe & Hbs & Hext & [o Ho] & _).
  rewrite Hbe, Hext in Hp. injection Hp as <-. rewrite Hbs in Hgate.
  destruct (Has_is_Some w f "oneTime") as [b Hb]; [eauto|].
  destruct (plain_call_shape d f args w fn hd b o Hwf Hfn Hhd Ho Hb)
    as (w' & Hcall & _ & _ & _ & _ & _ & _ & _ & _ & Hlog & Hpend & Ht);
    [|done|].
  { intros ->. destruct Hgate as [Hgate|Hgate]; [congruence|done]. }
  exists w'. split; [done|]. split; [done|]. split; [done|].
  rewrite Ht, drop_app_length, !thrown_app, !run_args_app.
  destruct (thrown_pre_post b (length (active w)) f args) as [-> ->].
  destruct (pre_events_readers b (length (active w)) f args f) as (-> & _).
  destruct (post_events_readers b f f) as (-> & _).
  destruct (readers_of_throws (throws_of (translater hd)) f) as (-> & _).
  rewrite thrown_of_throws, decide_True, !app_nil_r by done. done.
Qed.

Lemma open_call_passes_arguments_and_errors_witness :
  ∃ w',
    Call 1 0 [VInt 1; VStr "x"]
      (default init
         (perform (ACreate 0 [OpThrow "first"; OpObserve; OpThrow "second"]
                     false) init))
    = Some w'
    ∧ native_log w' = [[VInt 1; VStr "x"]]
    ∧ pending_exception w' = Some "second".
Proof.
  destruct (open_call_passes_arguments_and_errors 0 0 [VInt 1; VStr "x"]
              (default init
                 (perform (ACreate 0 [OpThrow "first"; OpObserve;
                                      OpThrow "second"] false) init))
              (mkBound 0 (mkTemplate 0 0) 0 0) 0
              (mkHolder (Some 0) [OpThrow "first"; OpObserve; OpThrow "second"]))
    as (w' & Hcall & Hlog & Hpend & _).
  - exists [ACreate 0 [OpThrow "first"; OpObserve; OpThrow "second"] false].
    vm_compute; reflexivity.
  - vm_compute; reflexivity.
  - vm_compute; reflexivity.
  - vm_compute; reflexivity.
  - intros op Hin. cbn in Hin.
    repeat (apply elem_of_cons in Hin as [->|Hin]; [eauto|]).
    by apply elem_of_nil in Hin.
  - left. vm_compute; reflexivity.
  - exists w'. split; [exact Hcall|]. split; [exact Hlog|exact Hpend].
Defined.










